(** * Lattices of torsion classes: a shallow embedding of [tors_lattice.py]

    The Python module extends SageMath's [FiniteLatticePoset] with the
    combinatorics of torsion classes (bricks, kappa map, interval hearts,
    wide / ICE / IKE intervals, tau-tilting queries).

    Layout of this development:
    - [Py]       exceptions and the error monad of the embedding;
    - [Sage]     the lattice primitives the module consumes;
    - [Tors]     the functions of [tors_lattice.py], one definition each;
    - [Order]    order theory of the primitives;
    - [Facts]    closed forms of the methods on elements of a lattice;
    - the properties of the module;
    - [Hearts], [Intervals], [TauTilting]  further order theory, and the
      further properties of the module that rest on it. *)

From stdpp Require Import base decidable option list sets gmap.

(** ** Python values, exceptions and the error monad *)

Module Py.

(** Every [raise] of the module is a [ValueError] told apart by its message;
    the constructors name the message.  [IndexError] and [StopIteration] are
    the built-in exceptions of [list(...)[0]] and [next(...)], and
    [UnpackError] is the [ValueError] of [U, T = arg] on a tuple that does
    not have two components. *)
Inductive exn : Set :=
  | NotAnInterval          (* ValueError("This is not an interval.") *)
  | NotACoveringRelation   (* ValueError("The heart contains more than one brick, so not a covering relation.") *)
  | NotJoinIrreducible     (* ValueError("This is not join-irreducible.") *)
  | NotSimple              (* ValueError("This is not a simple torsion class (doesn't cover 0).") *)
  | NotSemidistributive    (* ValueError("This lattice is not semidistributive.") *)
  | NotALattice            (* ValueError raised by LatticePoset: not a lattice *)
  | NotAnElement           (* ValueError("element (=...) not in poset") *)
  | IndexError             (* list index out of range *)
  | StopIteration          (* next() on an exhausted iterator *)
  | UnpackError.           (* ValueError("too many values to unpack (expected 2)") and the like *)

#[global] Instance exn_eq_dec : EqDecision exn.
Proof. solve_decision. Defined.

Inductive result (A : Type) : Type :=
  | Ok (a : A)
  | Raise (e : exn).
Arguments Ok {A} a.
Arguments Raise {A} e.

#[global] Instance result_ret : MRet result := λ A, Ok.
#[global] Instance result_bind : MBind result := λ A B f m,
  match m with Ok a => f a | Raise e => Raise e end.
#[global] Instance result_fmap : FMap result := λ A B f m,
  match m with Ok a => Ok (f a) | Raise e => Raise e end.

(** A comprehension [[x for x in l if p(x)]] whose condition may raise. *)
Fixpoint filterM {A} (p : A → result bool) (l : list A) : result (list A) :=
  match l with
  | [] => Ok []
  | x :: l' =>
      b ← p x;
      r ← filterM p l';
      Ok (if b : bool then x :: r else r)
  end.

(** A comprehension [[f(x) for x in l]] whose body may raise. *)
Fixpoint forM {A B} (f : A → result B) (l : list A) : result (list B) :=
  match l with
  | [] => Ok []
  | x :: l' => y ← f x; r ← forM f l'; Ok (y :: r)
  end.

(** [try: return m  except: return None] *)
Definition try_or_None {A} (m : result A) : option A :=
  match m with Ok a => Some a | Raise _ => None end.

(** A Python object, as far as the module looks at its type: [None], a
    tuple of objects, or any other object (an integer, a string, ...)
    named by a number.  The elements of a poset are Python objects of any
    of these kinds: Sage keeps the elements it is given, tuples included. *)
Unset Elimination Schemes.
Inductive pyobj : Type :=
  | PyNone
  | PyAtom (n : nat)
  | PyTuple (xs : list pyobj).
Set Elimination Schemes.

(** [a == b] *)
Fixpoint pyobj_eqb (a b : pyobj) {struct a} : bool :=
  match a, b with
  | PyNone, PyNone => true
  | PyAtom n, PyAtom m => bool_decide (n = m)
  | PyTuple xs, PyTuple ys =>
      (fix go (xs ys : list pyobj) {struct xs} : bool :=
         match xs, ys with
         | [], [] => true
         | x :: xs', y :: ys' => pyobj_eqb x y && go xs' ys'
         | _, _ => false
         end) xs ys
  | _, _ => false
  end.

(** [isinstance(x, tuple)] *)
Definition is_tuple (x : pyobj) : bool :=
  match x with PyTuple _ => true | _ => false end.

End Py.
Export Py.

(** An element of a lattice is a vertex number; a Python variable that is
    expected to hold an element may also hold [None]. *)
Abbreviation val := (option nat).

(** ** The lattice primitives

    [tors_lattice.py] subclasses SageMath's [FiniteLatticePoset], which is
    not part of the repository. *)

Module Sage.

(** The data of a finite poset: its elements and its order relation. *)
Record FiniteLatticePoset : Type := LatticeData {
  elems : list nat;
  leq : nat → nat → bool;
}.

Section primitives.
Context (L : FiniteLatticePoset).

(** Modelled from the spec: [coerce(x)] of the Lattice Primitives Adapter
    (section 6), Sage's [self(x)]: the element itself, or the
    [NotAnElement] failure for a value that is not in the lattice. *)
Definition coerce (x : val) : result nat :=
  match x with
  | Some a => if bool_decide (a ∈ elems L) then Ok a else Raise NotAnElement
  | None => Raise NotAnElement
  end.

(** Modelled from the spec: [leq(a,b)] of the adapter, on elements. *)
Definition is_lequal (a b : nat) : bool := leq L a b.

(** Modelled from the spec: [geq(a,b)] of the adapter.  The module calls
    it on results of [kappa], which may be [None]: an argument that is
    not an element is refused as by [coerce]. *)
Definition is_gequal (x y : val) : result bool :=
  a ← coerce x; b ← coerce y; Ok (leq L b a).

Definition lt (a b : nat) : bool := leq L a b && negb (bool_decide (a = b)).

(** [covers a b]: [b] is an upper cover of [a] in the Hasse diagram. *)
Definition covers (a b : nat) : bool :=
  lt a b && forallb (λ c, negb (lt a c && lt c b)) (elems L).

(** Modelled from the spec: [upperCovers(x)], [lowerCovers(x)] of the
    adapter, the immediate covers in the Hasse diagram. *)
Definition upper_covers (x : nat) : list nat :=
  filter (λ y, covers x y) (elems L).
Definition lower_covers (x : nat) : list nat :=
  filter (λ y, covers y x) (elems L).

(** Modelled from the spec: [bottom()], [top()] of the adapter; [None]
    when the poset has no least (greatest) element. *)
Definition bottom : val :=
  head (filter (λ b, forallb (λ x, leq L b x) (elems L)) (elems L)).
Definition top : val :=
  head (filter (λ t, forallb (λ x, leq L x t) (elems L)) (elems L)).

Definition is_lub (a b c : nat) : bool :=
  leq L a c && leq L b c &&
  forallb (λ d, implb (leq L a d && leq L b d) (leq L c d)) (elems L).
Definition is_glb (a b c : nat) : bool :=
  leq L c a && leq L c b &&
  forallb (λ d, implb (leq L d a && leq L d b) (leq L d c)) (elems L).

(** The entries of the join and meet tables of the Hasse diagram. *)
Definition join2 (a b : nat) : option nat :=
  head (filter (λ c, is_lub a b c) (elems L)).
Definition meet2 (a b : nat) : option nat :=
  head (filter (λ c, is_glb a b c) (elems L)).

Definition table (o : option nat) : result nat :=
  match o with Some c => Ok c | None => Raise NotALattice end.

(** Modelled from the spec: [join(subset)] of the adapter.  Sage folds
    the binary join over the argument, starting from the bottom element,
    so the join of no element is the bottom. *)
Definition join (xs : list val) : result nat :=
  foldl (λ acc x, j ← acc; i ← coerce x; table (join2 i j)) (coerce bottom) xs.

(** Modelled from the spec: [meet(subset)] of the adapter, the fold of
    the binary meet starting from the top element.  An argument that is
    not an element (such as [None]) makes it fail. *)
Definition meet (xs : list val) : result nat :=
  foldl (λ acc x, m ← acc; i ← coerce x; table (meet2 i m)) (coerce top) xs.

(** Modelled from the spec: [joinIrreducibles()] of the adapter, the
    elements with exactly one lower cover (data model, section 3). *)
Definition join_irreducibles : list nat :=
  filter (λ x, length (lower_covers x) = 1) (elems L).

(** The maximal elements of a list of elements. *)
Definition maximal_of (S : list nat) : list nat :=
  filter (λ e, forallb (λ x, negb (lt e x)) S) S.
Definition minimal_of (S : list nat) : list nat :=
  filter (λ e, forallb (λ x, negb (lt x e)) S) S.

(** [the_only l]: the element of a one-element list. *)
Definition the_only (l : list nat) : option nat :=
  match l with [m] => Some m | _ => None end.

(** Modelled from the spec: the kappa map of the Hasse diagram
    ([HasseDiagram.kappa]), data model of section 3 and section 8: with
    [lc] the lower cover of [j], the unique maximal element of
    [{x : lc ≤ x, j ≰ x}], or [None] when there is no unique one.  The
    lower cover is taken with [next] from the iterator of lower covers,
    which fails on an element without one. *)
Definition hasse_kappa (j : nat) : result val :=
  match lower_covers j with
  | [] => Raise StopIteration
  | lc :: _ =>
      Ok (the_only (maximal_of
            (filter (λ x, leq L lc x && negb (leq L j x)) (elems L))))
  end.

(** Modelled from the spec: [canonicalJoinRepresentation(x)] of the
    adapter, "minimal join-decomposition, or none if it doesn't exist":
    one joinand for every lower cover [a] of [e], the unique minimal
    element of [{x : x ≤ e, x ≰ a}]; [None] as soon as one lower cover
    has no unique one. *)
Definition canonical_joinand_at (e a : nat) : option nat :=
  the_only (minimal_of
    (filter (λ x, leq L x e && negb (leq L x a)) (elems L))).
Definition canonical_joinands (x : val) : result (option (list nat)) :=
  e ← coerce x;
  Ok (mapM (canonical_joinand_at e) (lower_covers e)).

(** The checks of the constructors [LatticePoset] and [TorsLattice]. *)
Definition is_poset : bool :=
  bool_decide (NoDup (elems L)) &&
  forallb (λ a, leq L a a) (elems L) &&
  forallb (λ a, forallb (λ b,
    implb (leq L a b && leq L b a) (bool_decide (a = b))) (elems L)) (elems L) &&
  forallb (λ a, forallb (λ b, forallb (λ c,
    implb (leq L a b && leq L b c) (leq L a c)) (elems L)) (elems L)) (elems L).

(** A lattice: a poset with a least and a greatest element in which any
    two elements have a join and a meet. *)
Definition is_lattice : bool :=
  is_poset &&
  bool_decide (is_Some bottom) && bool_decide (is_Some top) &&
  forallb (λ a, forallb (λ b,
    bool_decide (is_Some (join2 a b)) && bool_decide (is_Some (meet2 a b)))
    (elems L)) (elems L).

Definition is_join_semidistributive : bool :=
  forallb (λ a, forallb (λ b, forallb (λ c,
    implb (bool_decide (join2 a b = join2 a c))
          (bool_decide ((meet2 b c ≫= join2 a) = join2 a b)))
    (elems L)) (elems L)) (elems L).
Definition is_meet_semidistributive : bool :=
  forallb (λ a, forallb (λ b, forallb (λ c,
    implb (bool_decide (meet2 a b = meet2 a c))
          (bool_decide ((join2 b c ≫= meet2 a) = meet2 a b)))
    (elems L)) (elems L)) (elems L).
Definition is_semidistributive : bool :=
  is_join_semidistributive && is_meet_semidistributive.
End primitives.

#[global] Arguments coerce _ _ : simpl never.

End Sage.
Export Sage.

(** ** The functions of [tors_lattice.py] *)

Module Tors.

Section methods.
Context (L : FiniteLatticePoset).

(** [_kappa(lattice, j)] *)
Definition _kappa (j : val) : result val :=
  j_vtx ← coerce L j;
  m_vtx ← hasse_kappa L j_vtx;
  match m_vtx with
  | None => Ok None
  | Some m => Ok (Some m)
  end.

(** [_extended_kappa(lattice, x)] *)
Definition _extended_kappa (x : val) : result val :=
  CJR ← canonical_joinands L x;
  match CJR with
  | None => Ok None
  | Some CJR =>
      kappa_CJR ← forM (λ j, _kappa (Some j)) CJR;
      Ok (try_or_None (meet L kappa_CJR))
  end.

Definition zero : val := bottom L.
Definition whole : val := top L.

Definition simples : result (gset nat) :=
  z ← coerce L zero;
  Ok (list_to_set (upper_covers L z)).

Definition all_bricks : gset nat := list_to_set (join_irreducibles L).

Definition kappa (T : val) : result val :=
  T ← coerce L T;
  _extended_kappa (Some T).

Definition bricks_in_tors (T : val) : result (gset nat) :=
  T ← coerce L T;
  Ok (filter (λ j, is_lequal L j T) all_bricks).

Definition bricks_in_torf (T : val) : result (gset nat) :=
  T ← coerce L T;
  js ← filterM (λ j, k ← kappa (Some j); is_gequal L k (Some T))
               (elements all_bricks);
  Ok (list_to_set js).

Definition bricks (itv : val * val) (check : bool) : result (gset nat) :=
  let '(U, T) := itv in
  U ← coerce L U;
  T ← coerce L T;
  if check && negb (is_lequal L U T) then Raise NotAnInterval
  else
    in_tors ← bricks_in_tors (Some T);
    in_torf ← bricks_in_torf (Some U);
    Ok (in_tors ∩ in_torf).

(** [list(bricks_in)[0]] is the first element in the iteration order of
    the set. *)
Definition label (itv : val * val) (check : bool) : result nat :=
  bricks_in ← bricks itv true;
  if check && bool_decide (1 < size bricks_in) then Raise NotACoveringRelation
  else
    match elements bricks_in with
    | b :: _ => Ok b
    | [] => Raise IndexError
    end.

Definition plus (U : val) : result nat :=
  U ← coerce L U;
  if bool_decide (Some U = whole) then Ok U
  else
    let upper := upper_covers L U in
    join L (Some <$> upper).

Definition minus (T : val) : result nat :=
  T ← coerce L T;
  if bool_decide (Some T = zero) then Ok T
  else
    let lower := lower_covers L T in
    meet L (Some <$> lower).

Definition is_wide_itv (itv : val * val) (check : bool) : result bool :=
  let '(U, T) := itv in
  U ← coerce L U;
  T ← coerce L T;
  if check && negb (is_lequal L U T) then Raise NotAnInterval
  else if bool_decide (U = T) then Ok true
  else
    let covers := filter (λ x, is_lequal L x T) (upper_covers L U) in
    j ← join L (Some <$> covers);
    Ok (bool_decide (T = j)).

Definition is_ice_itv (itv : val * val) (check : bool) : result bool :=
  let '(U, T) := itv in
  U ← coerce L U;
  T ← coerce L T;
  if check && negb (is_lequal L U T) then Raise NotAnInterval
  else
    p ← plus (Some U);
    Ok (is_lequal L T p).

Definition is_ike_itv (itv : val * val) (check : bool) : result bool :=
  let '(U, T) := itv in
  U ← coerce L U;
  T ← coerce L T;
  if check && negb (is_lequal L U T) then Raise NotAnInterval
  else
    m ← minus (Some T);
    Ok (is_lequal L m U).

Definition itv_lequal (itv1 itv2 : val * val) : result bool :=
  b1 ← bricks itv1 true;
  b2 ← bricks itv2 true;
  Ok (bool_decide (b1 ⊆ b2)).

(** [a and b] evaluates [b] only when [a] is true. *)
Definition wide_lequal (U T : val) : result bool :=
  U ← coerce L U;
  T ← coerce L T;
  kappa_U ← kappa (Some U);
  kappa_T ← kappa (Some T);
  if is_lequal L U T then is_gequal L kappa_U kappa_T else Ok false.

Definition indec_tau_rigid : gset nat := all_bricks.

Definition has_tau_rigid_summand (M : val) (check : bool) : result (gset nat) :=
  M ← coerce L M;
  if check && bool_decide (M ∉ indec_tau_rigid) then Raise NotJoinIrreducible
  else
    M_plus ← plus (Some M);
    Ok (list_to_set
          (filter (λ T, is_lequal L M T && is_lequal L T M_plus) (elems L))).

Definition has_support_summand (S : val) (check : bool) : result (gset nat) :=
  S ← coerce L S;
  simples_ ← simples;
  if check && bool_decide (S ∉ simples_) then Raise NotSimple
  else
    let non_S_simple := simples_ ∖ {[S]} in
    non_S_Serre ← join L (Some <$> elements non_S_simple);
    Ok (list_to_set (filter (λ T, is_lequal L T non_S_Serre) (elems L))).

Definition projectives (T : val) : result (gset nat) :=
  T ← coerce L T;
  Ms ← filterM (λ M, s ← has_tau_rigid_summand (Some M) false;
                      Ok (bool_decide (T ∈ s)))
               (elements indec_tau_rigid);
  Ok (list_to_set Ms).

Definition composition_factors (T : val) : result (gset nat) :=
  T ← coerce L T;
  simples_ ← simples;
  Ss ← filterM (λ S, s ← has_support_summand (Some S) false;
                      Ok (bool_decide (T ∉ s)))
               (elements simples_);
  Ok (list_to_set Ss).

Definition is_sincere (T : val) : result bool :=
  T ← coerce L T;
  cf ← composition_factors (Some T);
  simples_ ← simples;
  Ok (bool_decide (size cf = size simples_)).

(** [all_itvs()]: the pairs [(U,T)] of elements with [U ≤ T]. *)
Definition all_itvs : gset (nat * nat) :=
  list_to_set (U ← elems L; T ← elems L;
               if is_lequal L U T then [(U, T)] else []).

(** [tau_rigid_pair_summand(T)]: the projectives tagged [0], then the
    simples [S] with [T] in [has_support_summand(S)] tagged [1]. *)
Definition tau_rigid_pair_summand (T : val) : result (gset (nat * nat)) :=
  T ← coerce L T;
  projs ← projectives (Some T);
  simples_ ← simples;
  Ss ← filterM (λ S, s ← has_support_summand (Some S) false;
                      Ok (bool_decide (T ∈ s)))
               (elements simples_);
  Ok (list_to_set ((λ M, (M, 0)) <$> elements projs)
      ∪ list_to_set ((λ S, (S, 1)) <$> Ss)).
End methods.

(** [number_of_projs] looks at the Python type of its argument, so it is
    stated on Python objects.  The elements of the lattice are the objects
    [vertex_to_element v] of its vertices [v] (Sage's
    [_vertex_to_element]); the other methods are stated on vertices. *)
Section facade.
Context (L : FiniteLatticePoset) (vertex_to_element : nat → pyobj).

(** The element held by a variable of the other methods. *)
Definition element_of (x : val) : pyobj :=
  match x with
  | Some v => vertex_to_element v
  | None => PyNone
  end.

(** The vertex of an object, [None] when the object is no element
    (Sage's [_element_to_vertex]). *)
Definition element_to_vertex (x : pyobj) : val :=
  head (filter (λ v, pyobj_eqb (vertex_to_element v) x) (elems L)).

(** [self(x)] on a Python object. *)
Definition coerce_obj (x : pyobj) : result nat :=
  coerce L (element_to_vertex x).

(** The elements of a poset are pairwise distinct: each one is found at
    its own vertex. *)
Definition distinct_elements : bool :=
  forallb (λ v, bool_decide (element_to_vertex (vertex_to_element v) = Some v))
          (elems L).

(** [number_of_projs(arg)]; [U, T = arg] needs a tuple of two
    components. *)
Definition number_of_projs (arg : pyobj) : result nat :=
  UT ← (if is_tuple arg then
          match arg with
          | PyTuple [U; T] => Ok (U, T)
          | _ => Raise UnpackError
          end
        else Ok (element_of (zero L), arg));
  let '(U, T) := UT in
  U ← coerce_obj U;
  T ← coerce_obj T;
  projs ← projectives L (Some T);
  let T_minus_U := filter (λ M, ¬ is_lequal L M U) projs in
  Ok (size T_minus_U).
End facade.

(** [TorsLattice(data)]: build the lattice, refuse it unless it is
    semidistributive. *)
Definition TorsLattice (data : FiniteLatticePoset) : result FiniteLatticePoset :=
  if negb (is_lattice data) then Raise NotALattice
  else if negb (is_semidistributive data) then Raise NotSemidistributive
  else Ok data.

End Tors.
Export Tors.

(** ** Example lattices *)

(** The chain [0 < 1 < 2 < 3] (the scenario [0 < a < b < 1] with [a = 1],
    [b = 2] and top element [3]). *)
Definition chain4 : FiniteLatticePoset :=
  {| elems := [0; 1; 2; 3]; leq := Nat.leb |}.

(** The pentagon [N5]: [0 < 1 < 2 < 4] and [0 < 3 < 4]. *)
Definition pentagon : FiniteLatticePoset :=
  {| elems := [0; 1; 2; 3; 4];
     leq := λ a b, bool_decide (a = b) || bool_decide (a = 0) || bool_decide (b = 4)
                   || (bool_decide (a = 1) && bool_decide (b = 2)) |}.

(** The square [2 x 2]: [0 < 1, 2 < 3]. *)
Definition square : FiniteLatticePoset :=
  {| elems := [0; 1; 2; 3];
     leq := λ a b, bool_decide (a = b) || bool_decide (a = 0) || bool_decide (b = 3) |}.

(** Elements that are integers, each vertex holding its own number, and
    the elements of the square as the pairs [(0,0)], [(0,1)], [(1,0)],
    [(1,1)] of a product of two chains. *)
Definition int_elements (v : nat) : pyobj := PyAtom v.
Definition pair_elements (v : nat) : pyobj :=
  PyTuple [PyAtom (v / 2); PyAtom (v mod 2)].

(** The diamond [M3]: three atoms [1], [2], [3] between [0] and [4]; a
    lattice that is not semidistributive. *)
Definition diamond : FiniteLatticePoset :=
  {| elems := [0; 1; 2; 3; 4];
     leq := λ a b, bool_decide (a = b) || bool_decide (a = 0) || bool_decide (b = 4) |}.

(** A lattice with seven elements that is not meet-semidistributive: the
    atoms [1], [2], [3], the coatoms [4 = 1 ∨ 2] and [5 = 1 ∨ 3], and
    [2 ∨ 3 = 6] the top element. *)
Definition two_coatoms : FiniteLatticePoset :=
  {| elems := [0; 1; 2; 3; 4; 5; 6];
     leq := λ a b, bool_decide (a = b) || bool_decide (a = 0) || bool_decide (b = 6)
                   || (bool_decide (b = 4) && (bool_decide (a = 1) || bool_decide (a = 2)))
                   || (bool_decide (b = 5) && (bool_decide (a = 1) || bool_decide (a = 3))) |}.

(** ** Order-theoretic notions of the statements *)

Section notions.
Context (L : FiniteLatticePoset).
Local Abbreviation E := (elems L).
Local Notation "a ≼ b" := (Is_true (leq L a b)) (at level 70).
Local Notation "a ≺ b" := (Is_true (lt L a b)) (at level 70).

(** [c] is the supremum (infimum) of the elements of [xs]. *)
Definition is_sup (xs : list nat) (c : nat) : Prop :=
  c ∈ E ∧ (∀ x, x ∈ xs → x ≼ c) ∧ ∀ d, d ∈ E → (∀ x, x ∈ xs → x ≼ d) → c ≼ d.
Definition is_inf (xs : list nat) (c : nat) : Prop :=
  c ∈ E ∧ (∀ x, x ∈ xs → c ≼ x) ∧ ∀ d, d ∈ E → (∀ x, x ∈ xs → d ≼ x) → d ≼ c.

(** [m] is the unique maximal (minimal) element among those satisfying
    [P]. *)
Definition unique_maximal (P : nat → Prop) (m : nat) : Prop :=
  (P m ∧ ∀ x, P x → ¬ m ≺ x) ∧
  ∀ m', P m' → (∀ x, P x → ¬ m' ≺ x) → m' = m.
Definition unique_minimal (P : nat → Prop) (m : nat) : Prop :=
  (P m ∧ ∀ x, P x → ¬ x ≺ m) ∧
  ∀ m', P m' → (∀ x, P x → ¬ x ≺ m') → m' = m.

(** The candidates for [kappa(j)], [lc] being the lower cover of [j]. *)
Definition kappa_cand (lc j x : nat) : Prop := x ∈ E ∧ lc ≼ x ∧ ¬ j ≼ x.

(** The candidates for the canonical joinand of [e] at its lower cover
    [a]. *)
Definition joinand_cand (e a x : nat) : Prop := x ∈ E ∧ x ≼ e ∧ ¬ x ≼ a.

End notions.

(** ** Order theory of the primitives *)

Module Order.

Lemma forallb_elem {A} (f : A → bool) (l : list A) :
  forallb f l ↔ ∀ x, x ∈ l → f x.
Proof. by rewrite forallb_True, Forall_forall. Qed.

Lemma implb_True (b c : bool) : implb b c ↔ (b → c).
Proof. destruct b, c; simpl; tauto. Qed.

Lemma head_filter_Some {A} (P : A → Prop) `{!∀ x, Decision (P x)} l x :
  head (filter P l) = Some x → x ∈ l ∧ P x.
Proof.
  intros Hhd. apply head_Some_elem_of in Hhd.
  apply list_elem_of_filter in Hhd. tauto.
Qed.

Lemma head_filter_is_Some {A} (P : A → Prop) `{!∀ x, Decision (P x)} l x :
  x ∈ l → P x → is_Some (head (filter P l)).
Proof.
  intros Hx HP. apply head_is_Some. intros Hnil.
  assert (Hin : x ∈ filter P l) by (apply list_elem_of_filter; done).
  rewrite Hnil in Hin. by apply not_elem_of_nil in Hin.
Qed.

Section poset.
Context (L : FiniteLatticePoset).
Local Abbreviation E := (elems L).
Local Notation "a ≼ b" := (Is_true (leq L a b)) (at level 70).
Local Notation "a ≺ b" := (Is_true (lt L a b)) (at level 70).

Lemma coerce_elem a : a ∈ E → coerce L (Some a) = Ok a.
Proof. intros H. unfold coerce. by rewrite bool_decide_eq_true_2. Qed.

Lemma coerce_Ok x a : coerce L x = Ok a → x = Some a ∧ a ∈ E.
Proof.
  unfold coerce. destruct x as [b|]; [|done].
  case_bool_decide; [|done]. intros [= ->]. done.
Qed.

Lemma lt_spec a b : a ≺ b ↔ a ≼ b ∧ a ≠ b.
Proof.
  unfold lt. rewrite andb_True, negb_True, bool_decide_spec. done.
Qed.

Lemma covers_spec a b :
  covers L a b ↔ a ≺ b ∧ ∀ c, c ∈ E → ¬ (a ≺ c ∧ c ≺ b).
Proof.
  unfold covers. rewrite andb_True, forallb_elem.
  split; intros [H1 H2]; (split; [done|]); intros c Hc; specialize (H2 c Hc).
  - by rewrite negb_True, andb_True in H2.
  - by rewrite negb_True, andb_True.
Qed.

Lemma elem_upper_covers x y : y ∈ upper_covers L x ↔ y ∈ E ∧ covers L x y.
Proof. unfold upper_covers. rewrite list_elem_of_filter. tauto. Qed.

Lemma elem_lower_covers x y : y ∈ lower_covers L x ↔ y ∈ E ∧ covers L y x.
Proof. unfold lower_covers. rewrite list_elem_of_filter. tauto. Qed.

Lemma bottom_spec b : bottom L = Some b → b ∈ E ∧ ∀ x, x ∈ E → b ≼ x.
Proof.
  intros H. apply head_filter_Some in H as [Hb Hall].
  by rewrite forallb_elem in Hall.
Qed.

Lemma top_spec t : top L = Some t → t ∈ E ∧ ∀ x, x ∈ E → x ≼ t.
Proof.
  intros H. apply head_filter_Some in H as [Hb Hall].
  by rewrite forallb_elem in Hall.
Qed.

Lemma is_lub_spec a b c :
  is_lub L a b c ↔ a ≼ c ∧ b ≼ c ∧ ∀ d, d ∈ E → a ≼ d → b ≼ d → c ≼ d.
Proof.
  unfold is_lub. rewrite !andb_True, forallb_elem. split.
  - intros [[H1 H2] H3]. repeat split; try done. intros d Hd H4 H5.
    specialize (H3 d Hd). rewrite implb_True, andb_True in H3. auto.
  - intros (H1&H2&H3). repeat split; try done. intros d Hd.
    rewrite implb_True, andb_True. intros [H4 H5]. auto.
Qed.

Lemma is_glb_spec a b c :
  is_glb L a b c ↔ c ≼ a ∧ c ≼ b ∧ ∀ d, d ∈ E → d ≼ a → d ≼ b → d ≼ c.
Proof.
  unfold is_glb. rewrite !andb_True, forallb_elem. split.
  - intros [[H1 H2] H3]. repeat split; try done. intros d Hd H4 H5.
    specialize (H3 d Hd). rewrite implb_True, andb_True in H3. auto.
  - intros (H1&H2&H3). repeat split; try done. intros d Hd.
    rewrite implb_True, andb_True. intros [H4 H5]. auto.
Qed.

Lemma join2_Some a b c : join2 L a b = Some c → c ∈ E ∧ is_lub L a b c.
Proof. intros H. by apply (head_filter_Some (λ c, is_lub L a b c)) in H. Qed.

Lemma meet2_Some a b c : meet2 L a b = Some c → c ∈ E ∧ is_glb L a b c.
Proof. intros H. by apply (head_filter_Some (λ c, is_glb L a b c)) in H. Qed.

(** *** Partial orders *)
Section laws.
Hypothesis HP : is_poset L.

Lemma elems_NoDup : NoDup E.
Proof.
  unfold is_poset in HP. rewrite !andb_True in HP.
  destruct HP as [[[H _] _] _]. by apply bool_decide_spec in H.
Qed.

Lemma leq_refl a : a ∈ E → a ≼ a.
Proof.
  unfold is_poset in HP. rewrite !andb_True in HP.
  destruct HP as [[[_ H] _] _]. rewrite forallb_elem in H. apply H.
Qed.

Lemma leq_antisym a b : a ∈ E → b ∈ E → a ≼ b → b ≼ a → a = b.
Proof.
  unfold is_poset in HP. rewrite !andb_True in HP.
  destruct HP as [[_ H] _]. rewrite forallb_elem in H.
  intros Ha Hb Hab Hba. specialize (H a Ha).
  rewrite forallb_elem in H. specialize (H b Hb).
  rewrite implb_True, andb_True, bool_decide_spec in H. tauto.
Qed.

Lemma leq_trans a b c : a ∈ E → b ∈ E → c ∈ E → a ≼ b → b ≼ c → a ≼ c.
Proof.
  unfold is_poset in HP. rewrite !andb_True in HP.
  destruct HP as [_ H]. rewrite forallb_elem in H.
  intros Ha Hb Hc Hab Hbc. specialize (H a Ha).
  rewrite forallb_elem in H. specialize (H b Hb).
  rewrite forallb_elem in H. specialize (H c Hc).
  rewrite implb_True, andb_True in H. tauto.
Qed.

Lemma lt_irrefl a : ¬ a ≺ a.
Proof. rewrite lt_spec. tauto. Qed.

Lemma lt_leq_trans a b c : a ∈ E → b ∈ E → c ∈ E → a ≺ b → b ≼ c → a ≺ c.
Proof.
  rewrite !lt_spec. intros Ha Hb Hc [Hab Hne] Hbc. split.
  - by apply leq_trans with b.
  - intros ->. apply Hne. by apply leq_antisym.
Qed.

Lemma leq_lt_trans a b c : a ∈ E → b ∈ E → c ∈ E → a ≼ b → b ≺ c → a ≺ c.
Proof.
  rewrite !lt_spec. intros Ha Hb Hc Hab [Hbc Hne]. split.
  - by apply leq_trans with b.
  - intros ->. apply Hne. by apply leq_antisym.
Qed.

(** Least upper bounds are unique, so the table entry is the one. *)
Lemma is_lub_unique a b c c' :
  c ∈ E → c' ∈ E → is_lub L a b c → is_lub L a b c' → c = c'.
Proof.
  rewrite !is_lub_spec. intros Hc Hc' (?&?&H) (?&?&H').
  apply leq_antisym; auto.
Qed.

Lemma is_glb_unique a b c c' :
  c ∈ E → c' ∈ E → is_glb L a b c → is_glb L a b c' → c = c'.
Proof.
  rewrite !is_glb_spec. intros Hc Hc' (?&?&H) (?&?&H').
  apply leq_antisym; auto.
Qed.

Lemma join2_lub a b c : c ∈ E → is_lub L a b c → join2 L a b = Some c.
Proof.
  intros Hc Hlub.
  destruct (head_filter_is_Some (λ c, is_lub L a b c) E c Hc Hlub) as [c' Hc'].
  pose proof (join2_Some _ _ _ Hc') as [? ?].
  unfold join2. rewrite Hc'. f_equal. by apply (is_lub_unique a b).
Qed.

Lemma meet2_glb a b c : c ∈ E → is_glb L a b c → meet2 L a b = Some c.
Proof.
  intros Hc Hglb.
  destruct (head_filter_is_Some (λ c, is_glb L a b c) E c Hc Hglb) as [c' Hc'].
  pose proof (meet2_Some _ _ _ Hc') as [? ?].
  unfold meet2. rewrite Hc'. f_equal. by apply (is_glb_unique a b).
Qed.

(** A non-empty part of a finite poset has a minimal and a maximal
    element. *)
Lemma exists_minimal (P : nat → Prop) (l : list nat) :
  (∀ x, Decision (P x)) → (∀ x, x ∈ l → x ∈ E) →
  (∃ x, x ∈ l ∧ P x) →
  ∃ m, m ∈ l ∧ P m ∧ ∀ y, y ∈ l → P y → ¬ y ≺ m.
Proof.
  intros Hdec. induction l as [|x l IH]; intros Hl [x0 [Hx0 HPx0]].
  { by apply not_elem_of_nil in Hx0. }
  destruct (decide (Exists P l)) as [Hex|Hnex].
  - apply Exists_exists in Hex. destruct IH as (m & Hm & HPm & Hmin); [|done|].
    { intros y Hy. apply Hl. by right. }
    destruct (decide (P x ∧ x ≺ m)) as [[HPx Hxm]|Hno].
    + exists x. split; [left|split; [done|]].
      intros y Hy HPy Hyx. apply elem_of_cons in Hy as [->|Hy].
      * by apply lt_irrefl in Hyx.
      * apply (Hmin y Hy HPy).
        apply lt_spec in Hxm as [Hxm _].
        apply lt_leq_trans with x; auto.
        -- apply Hl. by right.
        -- apply Hl. by left.
        -- apply Hl. by right.
    + exists m. split; [by right|split; [done|]].
      intros y Hy HPy Hym. apply elem_of_cons in Hy as [->|Hy]; [tauto|].
      by apply (Hmin y).
  - exists x. rewrite Exists_exists in Hnex.
    assert (HPx : P x).
    { apply elem_of_cons in Hx0 as [->|Hx0]; [done|]. destruct Hnex; eauto. }
    split; [left|split; [done|]].
    intros y Hy HPy Hyx. apply elem_of_cons in Hy as [->|Hy].
    + by apply lt_irrefl in Hyx.
    + apply Hnex; eauto.
Qed.

Lemma exists_maximal (P : nat → Prop) (l : list nat) :
  (∀ x, Decision (P x)) → (∀ x, x ∈ l → x ∈ E) →
  (∃ x, x ∈ l ∧ P x) →
  ∃ m, m ∈ l ∧ P m ∧ ∀ y, y ∈ l → P y → ¬ m ≺ y.
Proof.
  intros Hdec. induction l as [|x l IH]; intros Hl [x0 [Hx0 HPx0]].
  { by apply not_elem_of_nil in Hx0. }
  destruct (decide (Exists P l)) as [Hex|Hnex].
  - apply Exists_exists in Hex. destruct IH as (m & Hm & HPm & Hmax); [|done|].
    { intros y Hy. apply Hl. by right. }
    destruct (decide (P x ∧ m ≺ x)) as [[HPx Hmx]|Hno].
    + exists x. split; [left|split; [done|]].
      intros y Hy HPy Hxy. apply elem_of_cons in Hy as [->|Hy].
      * by apply lt_irrefl in Hxy.
      * apply (Hmax y Hy HPy).
        apply lt_spec in Hmx as [Hmx _].
        apply leq_lt_trans with x; auto.
        -- apply Hl. by right.
        -- apply Hl. by left.
        -- apply Hl. by right.
    + exists m. split; [by right|split; [done|]].
      intros y Hy HPy Hmy. apply elem_of_cons in Hy as [->|Hy]; [tauto|].
      by apply (Hmax y).
  - exists x. rewrite Exists_exists in Hnex.
    assert (HPx : P x).
    { apply elem_of_cons in Hx0 as [->|Hx0]; [done|]. destruct Hnex; eauto. }
    split; [left|split; [done|]].
    intros y Hy HPy Hxy. apply elem_of_cons in Hy as [->|Hy].
    + by apply lt_irrefl in Hxy.
    + apply Hnex; eauto.
Qed.

(** Between two comparable elements there is a cover at either end. *)
Lemma upper_cover_below a b :
  a ∈ E → b ∈ E → a ≺ b → ∃ c, c ∈ upper_covers L a ∧ c ≼ b.
Proof.
  intros Ha Hb Hab.
  destruct (exists_minimal (λ x, a ≺ x ∧ x ≼ b) E) as (m & Hm & [Ham Hmb] & Hmin);
    [apply _|done|..].
  { exists b. split; [done|]. split; [done|]. by apply leq_refl. }
  exists m. split; [|done]. apply elem_upper_covers. split; [done|].
  apply covers_spec. split; [done|].
  intros c Hc [Hac Hcm]. apply (Hmin c); [done| |done].
  split; [done|]. apply lt_spec in Hcm as [Hcm _]. by apply leq_trans with m.
Qed.

Lemma lower_cover_above a b :
  a ∈ E → b ∈ E → a ≺ b → ∃ c, c ∈ lower_covers L b ∧ a ≼ c.
Proof.
  intros Ha Hb Hab.
  destruct (exists_maximal (λ x, x ≺ b ∧ a ≼ x) E) as (m & Hm & [Hmb Ham] & Hmax);
    [apply _|done|..].
  { exists a. split; [done|]. split; [done|]. by apply leq_refl. }
  exists m. split; [|done]. apply elem_lower_covers. split; [done|].
  apply covers_spec. split; [done|].
  intros c Hc [Hmc Hcb]. apply (Hmax c); [done| |done].
  split; [done|]. apply lt_spec in Hmc as [Hmc _]. by apply leq_trans with m.
Qed.
End laws.
End poset.

(** *** Lattices *)

Section lattice.
Context (L : FiniteLatticePoset).
Local Abbreviation E := (elems L).
Local Notation "a ≼ b" := (Is_true (leq L a b)) (at level 70).
Local Notation "a ≺ b" := (Is_true (lt L a b)) (at level 70).

Hypothesis HL : is_lattice L.

Lemma lattice_poset : is_poset L.
Proof.
  unfold is_lattice in HL. rewrite !andb_True in HL. tauto.
Qed.
Local Hint Resolve lattice_poset : core.

Lemma bottom_total : ∃ b, bottom L = Some b ∧ b ∈ E ∧ ∀ x, x ∈ E → b ≼ x.
Proof.
  unfold is_lattice in HL. rewrite !andb_True in HL.
  destruct HL as [[[_ Hb] _] _]. apply bool_decide_spec in Hb as [b Hb].
  exists b. split; [done|]. by apply bottom_spec.
Qed.

Lemma top_total : ∃ t, top L = Some t ∧ t ∈ E ∧ ∀ x, x ∈ E → x ≼ t.
Proof.
  unfold is_lattice in HL. rewrite !andb_True in HL.
  destruct HL as [[_ Ht] _]. apply bool_decide_spec in Ht as [t Ht].
  exists t. split; [done|]. by apply top_spec.
Qed.

Lemma join2_total a b :
  a ∈ E → b ∈ E →
  ∃ c, join2 L a b = Some c ∧ c ∈ E ∧ a ≼ c ∧ b ≼ c ∧
       ∀ d, d ∈ E → a ≼ d → b ≼ d → c ≼ d.
Proof.
  intros Ha Hb. unfold is_lattice in HL. rewrite !andb_True in HL.
  destruct HL as [_ H]. rewrite forallb_elem in H. specialize (H a Ha).
  rewrite forallb_elem in H. specialize (H b Hb).
  rewrite andb_True, !bool_decide_spec in H. destruct H as [[c Hc] _].
  exists c. split; [done|]. apply join2_Some in Hc as [Hc Hlub].
  apply is_lub_spec in Hlub. tauto.
Qed.

Lemma meet2_total a b :
  a ∈ E → b ∈ E →
  ∃ c, meet2 L a b = Some c ∧ c ∈ E ∧ c ≼ a ∧ c ≼ b ∧
       ∀ d, d ∈ E → d ≼ a → d ≼ b → d ≼ c.
Proof.
  intros Ha Hb. unfold is_lattice in HL. rewrite !andb_True in HL.
  destruct HL as [_ H]. rewrite forallb_elem in H. specialize (H a Ha).
  rewrite forallb_elem in H. specialize (H b Hb).
  rewrite andb_True, !bool_decide_spec in H. destruct H as [_ [c Hc]].
  exists c. split; [done|]. apply meet2_Some in Hc as [Hc Hglb].
  apply is_glb_spec in Hglb. tauto.
Qed.

(** The fold of the join table computes suprema. *)
Lemma join_fold xs j :
  j ∈ E → (∀ x, x ∈ xs → x ∈ E) →
  ∃ c, foldl (λ acc x, j ← acc; i ← coerce L x; table (join2 L i j))
             (Ok j) (Some <$> xs) = Ok c ∧ is_sup L (j :: xs) c.
Proof.
  revert j. induction xs as [|x xs IH]; intros j Hj Hxs.
  - exists j. split; [done|]. split; [done|]. split.
    + intros x Hx. apply list_elem_of_singleton in Hx as ->. by apply leq_refl.
    + intros d Hd H. apply H. by left.
  - assert (Hx : x ∈ E) by (apply Hxs; by left).
    destruct (join2_total x j Hx Hj) as (c0 & Hc0 & Hc0E & Hxc & Hjc & Hleast).
    destruct (IH c0 Hc0E) as (c & Hc & HcE & Hub & Hlst).
    { intros y Hy. apply Hxs. by right. }
    exists c. split.
    + simpl. rewrite (coerce_elem L x Hx). simpl. rewrite Hc0. exact Hc.
    + assert (Hc0c : c0 ≼ c) by (apply Hub; by left).
      split; [done|]. split.
      * intros y Hy. apply elem_of_cons in Hy as [->|Hy].
        { by apply leq_trans with c0. }
        apply elem_of_cons in Hy as [->|Hy].
        { by apply leq_trans with c0. }
        apply Hub. by right.
      * intros d Hd Hall. apply Hlst; [done|].
        intros y Hy. apply elem_of_cons in Hy as [->|Hy].
        { apply Hleast; [done|apply Hall|apply Hall].
          - right. by left.
          - by left. }
        apply Hall. right. by right.
Qed.

Lemma meet_fold xs m :
  m ∈ E → (∀ x, x ∈ xs → x ∈ E) →
  ∃ c, foldl (λ acc x, m ← acc; i ← coerce L x; table (meet2 L i m))
             (Ok m) (Some <$> xs) = Ok c ∧ is_inf L (m :: xs) c.
Proof.
  revert m. induction xs as [|x xs IH]; intros m Hm Hxs.
  - exists m. split; [done|]. split; [done|]. split.
    + intros x Hx. apply list_elem_of_singleton in Hx as ->. by apply leq_refl.
    + intros d Hd H. apply H. by left.
  - assert (Hx : x ∈ E) by (apply Hxs; by left).
    destruct (meet2_total x m Hx Hm) as (c0 & Hc0 & Hc0E & Hcx & Hcm & Hgreatest).
    destruct (IH c0 Hc0E) as (c & Hc & HcE & Hlb & Hgst).
    { intros y Hy. apply Hxs. by right. }
    exists c. split.
    + simpl. rewrite (coerce_elem L x Hx). simpl. rewrite Hc0. exact Hc.
    + assert (Hcc0 : c ≼ c0) by (apply Hlb; by left).
      split; [done|]. split.
      * intros y Hy. apply elem_of_cons in Hy as [->|Hy].
        { by apply leq_trans with c0. }
        apply elem_of_cons in Hy as [->|Hy].
        { by apply leq_trans with c0. }
        apply Hlb. by right.
      * intros d Hd Hall. apply Hgst; [done|].
        intros y Hy. apply elem_of_cons in Hy as [->|Hy].
        { apply Hgreatest; [done|apply Hall|apply Hall].
          - right. by left.
          - by left. }
        apply Hall. right. by right.
Qed.

Lemma join_sup xs :
  (∀ x, x ∈ xs → x ∈ E) → ∃ c, join L (Some <$> xs) = Ok c ∧ is_sup L xs c.
Proof.
  intros Hxs. destruct bottom_total as (b & Hb & HbE & Hleast).
  destruct (join_fold xs b HbE Hxs) as (c & Hc & HcE & Hub & Hlst).
  exists c. split.
  - unfold join. rewrite Hb, (coerce_elem L b HbE). exact Hc.
  - split; [done|]. split.
    + intros x Hx. apply Hub. by right.
    + intros d Hd Hall. apply Hlst; [done|].
      intros y Hy. apply elem_of_cons in Hy as [->|Hy]; auto.
Qed.

Lemma meet_inf xs :
  (∀ x, x ∈ xs → x ∈ E) → ∃ c, meet L (Some <$> xs) = Ok c ∧ is_inf L xs c.
Proof.
  intros Hxs. destruct top_total as (t & Ht & HtE & Hgreatest).
  destruct (meet_fold xs t HtE Hxs) as (c & Hc & HcE & Hlb & Hgst).
  exists c. split.
  - unfold meet. rewrite Ht, (coerce_elem L t HtE). exact Hc.
  - split; [done|]. split.
    + intros x Hx. apply Hlb. by right.
    + intros d Hd Hall. apply Hgst; [done|].
      intros y Hy. apply elem_of_cons in Hy as [->|Hy]; auto.
Qed.

(** Semidistributivity, on table entries. *)
Lemma meet_sd a b c m j :
  is_meet_semidistributive L → a ∈ E → b ∈ E → c ∈ E →
  meet2 L a b = Some m → meet2 L a c = Some m → join2 L b c = Some j →
  meet2 L a j = Some m.
Proof.
  intros H Ha Hb Hc Hab Hac Hbc. unfold is_meet_semidistributive in H.
  rewrite forallb_elem in H. specialize (H a Ha).
  rewrite forallb_elem in H. specialize (H b Hb).
  rewrite forallb_elem in H. specialize (H c Hc).
  rewrite implb_True, !bool_decide_spec, Hab, Hac, Hbc in H.
  by apply H.
Qed.

Lemma join_sd a b c j m :
  is_join_semidistributive L → a ∈ E → b ∈ E → c ∈ E →
  join2 L a b = Some j → join2 L a c = Some j → meet2 L b c = Some m →
  join2 L a m = Some j.
Proof.
  intros H Ha Hb Hc Hab Hac Hbc. unfold is_join_semidistributive in H.
  rewrite forallb_elem in H. specialize (H a Ha).
  rewrite forallb_elem in H. specialize (H b Hb).
  rewrite forallb_elem in H. specialize (H c Hc).
  rewrite implb_True, !bool_decide_spec, Hab, Hac, Hbc in H.
  by apply H.
Qed.
End lattice.

(** *** Unique extremal elements *)

Section extremal.
Context (L : FiniteLatticePoset).
Local Abbreviation E := (elems L).
Local Notation "a ≼ b" := (Is_true (leq L a b)) (at level 70).
Local Notation "a ≺ b" := (Is_true (lt L a b)) (at level 70).

Lemma the_only_Some l m :
  NoDup l → the_only l = Some m ↔ m ∈ l ∧ ∀ x, x ∈ l → x = m.
Proof.
  intros Hnd. destruct l as [|a [|b l]]; simpl.
  - split; [done|]. intros [Hm _]. by apply not_elem_of_nil in Hm.
  - split.
    + intros [= ->]. split; [by left|].
      intros x Hx. by apply list_elem_of_singleton in Hx.
    + intros [_ H]. f_equal. apply H. by left.
  - split; [done|]. intros [_ H]. exfalso.
    assert (a = m) as -> by (apply H; by left).
    assert (b = m) as -> by (apply H; right; by left).
    apply NoDup_cons in Hnd as [Hnd _]. apply Hnd. by left.
Qed.

Lemma maximal_of_elem S e :
  e ∈ maximal_of L S ↔ e ∈ S ∧ ∀ x, x ∈ S → ¬ e ≺ x.
Proof.
  unfold maximal_of. rewrite list_elem_of_filter, forallb_elem.
  setoid_rewrite negb_True. tauto.
Qed.

Lemma minimal_of_elem S e :
  e ∈ minimal_of L S ↔ e ∈ S ∧ ∀ x, x ∈ S → ¬ x ≺ e.
Proof.
  unfold minimal_of. rewrite list_elem_of_filter, forallb_elem.
  setoid_rewrite negb_True. tauto.
Qed.

Lemma the_only_maximal S m :
  NoDup S →
  the_only (maximal_of L S) = Some m ↔ unique_maximal L (λ x, x ∈ S) m.
Proof.
  intros Hnd. rewrite the_only_Some by (by apply NoDup_filter).
  unfold unique_maximal. rewrite maximal_of_elem.
  setoid_rewrite maximal_of_elem.
  split; intros [H1 H2]; (split; [done|]).
  - intros m' H3 H4. by apply H2.
  - intros x [H3 H4]. by apply H2.
Qed.

Lemma the_only_minimal S m :
  NoDup S →
  the_only (minimal_of L S) = Some m ↔ unique_minimal L (λ x, x ∈ S) m.
Proof.
  intros Hnd. rewrite the_only_Some by (by apply NoDup_filter).
  unfold unique_minimal. rewrite minimal_of_elem.
  setoid_rewrite minimal_of_elem.
  split; intros [H1 H2]; (split; [done|]).
  - intros m' H3 H4. by apply H2.
  - intros x [H3 H4]. by apply H2.
Qed.

Lemma unique_maximal_ext (P Q : nat → Prop) m :
  (∀ x, P x ↔ Q x) → unique_maximal L P m → unique_maximal L Q m.
Proof.
  intros HPQ [[Hm Hmax] Huniq]. split; [split|].
  - by apply HPQ.
  - intros x Hx. apply Hmax. by apply HPQ.
  - intros m' Hm' Hmax'. apply Huniq; [by apply HPQ|].
    intros x Hx. apply Hmax'. by apply HPQ.
Qed.

Lemma unique_minimal_ext (P Q : nat → Prop) m :
  (∀ x, P x ↔ Q x) → unique_minimal L P m → unique_minimal L Q m.
Proof.
  intros HPQ [[Hm Hmin] Huniq]. split; [split|].
  - by apply HPQ.
  - intros x Hx. apply Hmin. by apply HPQ.
  - intros m' Hm' Hmin'. apply Huniq; [by apply HPQ|].
    intros x Hx. apply Hmin'. by apply HPQ.
Qed.

Lemma kappa_cand_filter lc j x :
  x ∈ filter (λ x, leq L lc x && negb (leq L j x)) E ↔ kappa_cand L lc j x.
Proof.
  unfold kappa_cand. rewrite list_elem_of_filter, andb_True, negb_True. tauto.
Qed.

Lemma joinand_cand_filter e a x :
  x ∈ filter (λ x, leq L x e && negb (leq L x a)) E ↔ joinand_cand L e a x.
Proof.
  unfold joinand_cand. rewrite list_elem_of_filter, andb_True, negb_True. tauto.
Qed.

Hypothesis HP : is_poset L.

(** What [HasseDiagram.kappa] returns on an element with a lower cover. *)
Lemma hasse_kappa_Some j lc rest m :
  lower_covers L j = lc :: rest →
  hasse_kappa L j = Ok (Some m) ↔ unique_maximal L (kappa_cand L lc j) m.
Proof.
  intros Hlc. unfold hasse_kappa. rewrite Hlc. split.
  - intros [= H]. apply the_only_maximal in H.
    + revert H. apply unique_maximal_ext, kappa_cand_filter.
    + apply NoDup_filter, elems_NoDup, HP.
  - intros H. f_equal. apply the_only_maximal.
    + apply NoDup_filter, elems_NoDup, HP.
    + revert H. apply unique_maximal_ext. intros x. symmetry.
      apply kappa_cand_filter.
Qed.

Lemma hasse_kappa_Ok j lc rest :
  lower_covers L j = lc :: rest → ∃ r, hasse_kappa L j = Ok r.
Proof. intros Hlc. unfold hasse_kappa. rewrite Hlc. eauto. Qed.

Lemma canonical_joinand_at_Some e a m :
  canonical_joinand_at L e a = Some m ↔ unique_minimal L (joinand_cand L e a) m.
Proof.
  unfold canonical_joinand_at. split.
  - intros H. apply the_only_minimal in H.
    + revert H. apply unique_minimal_ext, joinand_cand_filter.
    + apply NoDup_filter, elems_NoDup, HP.
  - intros H. apply the_only_minimal.
    + apply NoDup_filter, elems_NoDup, HP.
    + revert H. apply unique_minimal_ext. intros x. symmetry.
      apply joinand_cand_filter.
Qed.
End extremal.

(** *** Semidistributive lattices: kappa and canonical joinands exist *)

Section semidistributive.
Context (L : FiniteLatticePoset).
Local Abbreviation E := (elems L).
Local Notation "a ≼ b" := (Is_true (leq L a b)) (at level 70).
Local Notation "a ≺ b" := (Is_true (lt L a b)) (at level 70).

Hypothesis HL : is_lattice L.
Hypothesis HJ : is_join_semidistributive L.
Hypothesis HM : is_meet_semidistributive L.

Let HP : is_poset L := lattice_poset L HL.

(** Nothing lies strictly between the two ends of a cover. *)
Lemma covers_squeeze a b g :
  a ∈ E → b ∈ E → g ∈ E → covers L a b → a ≼ g → g ≼ b → g = a ∨ g = b.
Proof.
  intros Ha Hb Hg Hcov Hag Hgb. apply covers_spec in Hcov as [_ Hno].
  destruct (decide (g = a)) as [|Hga]; [by left|].
  destruct (decide (g = b)) as [|Hgb']; [by right|].
  destruct (Hno g Hg). rewrite !lt_spec. split; split; congruence.
Qed.

Lemma covers_lt a b : covers L a b → a ≺ b.
Proof. rewrite covers_spec. tauto. Qed.

Lemma kappa_cand_meet lc j x :
  lc ∈ E → j ∈ E → covers L lc j → kappa_cand L lc j x →
  meet2 L j x = Some lc.
Proof.
  intros Hlc Hj Hcov (Hx & Hlcx & Hjx).
  destruct (meet2_total L HL j x Hj Hx) as (g & Hg & HgE & Hgj & Hgx & Hgst).
  pose proof (covers_lt _ _ Hcov) as Hlt. apply lt_spec in Hlt as [Hle Hne].
  destruct (covers_squeeze lc j g) as [->| ->]; auto.
  exfalso. by apply Hjx.
Qed.

Lemma kappa_cand_join lc j m1 m2 :
  lc ∈ E → j ∈ E → covers L lc j →
  kappa_cand L lc j m1 → kappa_cand L lc j m2 →
  ∃ c, kappa_cand L lc j c ∧ m1 ≼ c ∧ m2 ≼ c.
Proof.
  intros Hlc Hj Hcov H1 H2.
  pose proof (kappa_cand_meet lc j m1 Hlc Hj Hcov H1) as Hm1.
  pose proof (kappa_cand_meet lc j m2 Hlc Hj Hcov H2) as Hm2.
  destruct H1 as (Hm1E & Hlc1 & Hj1). destruct H2 as (Hm2E & Hlc2 & Hj2).
  destruct (join2_total L HL m1 m2 Hm1E Hm2E) as (c & Hc & HcE & H1c & H2c & _).
  pose proof (meet_sd L j m1 m2 lc c HM Hj Hm1E Hm2E Hm1 Hm2 Hc) as Hjc.
  exists c. split; [|done]. split; [done|]. split.
  - by apply (leq_trans L HP) with m1.
  - intros Hle. apply covers_lt, lt_spec in Hcov as [_ Hne]. apply Hne.
    assert (Hglb : meet2 L j c = Some j).
    { apply meet2_glb; [done..|]. apply is_glb_spec.
      split; [by apply leq_refl|]. split; [done|]. auto. }
    congruence.
Qed.

(** In a meet-semidistributive lattice [HasseDiagram.kappa] is defined
    on every element that has a lower cover. *)
Lemma hasse_kappa_total j lc rest :
  j ∈ E → lower_covers L j = lc :: rest →
  ∃ m, hasse_kappa L j = Ok (Some m) ∧ m ∈ E.
Proof.
  intros Hj Hlow.
  assert (Hlc : lc ∈ lower_covers L j) by (rewrite Hlow; by left).
  apply elem_lower_covers in Hlc as [Hlc Hcov].
  pose proof (covers_lt _ _ Hcov) as Hlt. apply lt_spec in Hlt as [Hle Hne].
  destruct (exists_maximal L HP (λ x, lc ≼ x ∧ ¬ j ≼ x) E)
    as (m & Hm & [Hlcm Hjm] & Hmax); [apply _|done|..].
  { exists lc. split; [done|]. split; [by apply leq_refl|].
    intros Hjlc. apply Hne. by apply (leq_antisym L HP). }
  exists m. split; [|done].
  apply (hasse_kappa_Some L HP j lc rest m Hlow).
  assert (Hcm : kappa_cand L lc j m) by done.
  split; [split; [done|]|].
  - intros x (Hx & H1 & H2). by apply Hmax.
  - intros m' Hcm' Hmax'.
    destruct (kappa_cand_join lc j m m' Hlc Hj Hcov Hcm Hcm')
      as (c & Hc & Hmc & Hm'c).
    assert (m = c) as <-.
    { destruct (decide (m = c)) as [|Hmc']; [done|]. exfalso.
      destruct Hc as (HcE & Hc1 & Hc2).
      apply (Hmax c HcE); [done|]. by apply lt_spec. }
    destruct (decide (m' = m)) as [|Hm'm]; [done|]. exfalso.
    apply (Hmax' m Hcm). by apply lt_spec.
Qed.

Lemma joinand_cand_join e a x :
  a ∈ E → e ∈ E → covers L a e → joinand_cand L e a x →
  join2 L a x = Some e.
Proof.
  intros Ha He Hcov (Hx & Hxe & Hxa).
  destruct (join2_total L HL a x Ha Hx) as (g & Hg & HgE & Hag & Hxg & Hlst).
  pose proof (covers_lt _ _ Hcov) as Hlt. apply lt_spec in Hlt as [Hle Hne].
  destruct (covers_squeeze a e g) as [->| ->]; auto.
  exfalso. by apply Hxa.
Qed.

Lemma joinand_cand_meet e a x1 x2 :
  a ∈ E → e ∈ E → covers L a e →
  joinand_cand L e a x1 → joinand_cand L e a x2 →
  ∃ c, joinand_cand L e a c ∧ c ≼ x1 ∧ c ≼ x2.
Proof.
  intros Ha He Hcov H1 H2.
  pose proof (joinand_cand_join e a x1 Ha He Hcov H1) as Hj1.
  pose proof (joinand_cand_join e a x2 Ha He Hcov H2) as Hj2.
  destruct H1 as (Hx1E & Hx1e & Hx1a). destruct H2 as (Hx2E & Hx2e & Hx2a).
  destruct (meet2_total L HL x1 x2 Hx1E Hx2E) as (c & Hc & HcE & Hc1 & Hc2 & _).
  pose proof (join_sd L a x1 x2 e c HJ Ha Hx1E Hx2E Hj1 Hj2 Hc) as Hac.
  exists c. split; [|done]. split; [done|]. split.
  - by apply (leq_trans L HP) with x1.
  - intros Hle. apply covers_lt, lt_spec in Hcov as [_ Hne]. apply Hne.
    assert (Hlub : join2 L a c = Some a).
    { apply join2_lub; [done..|]. apply is_lub_spec.
      split; [by apply leq_refl|]. split; [done|]. auto. }
    congruence.
Qed.

(** In a join-semidistributive lattice every lower cover contributes a
    canonical joinand. *)
Lemma canonical_joinand_at_total e a :
  e ∈ E → a ∈ lower_covers L e →
  ∃ m, canonical_joinand_at L e a = Some m ∧ joinand_cand L e a m.
Proof.
  intros He Ha. apply elem_lower_covers in Ha as [Ha Hcov].
  pose proof (covers_lt _ _ Hcov) as Hlt. apply lt_spec in Hlt as [Hle Hne].
  destruct (exists_minimal L HP (λ x, x ≼ e ∧ ¬ x ≼ a) E)
    as (m & Hm & [Hme Hma] & Hmin); [apply _|done|..].
  { exists e. split; [done|]. split; [by apply leq_refl|].
    intros Hea. apply Hne. by apply (leq_antisym L HP). }
  assert (Hcm : joinand_cand L e a m) by done.
  exists m. split; [|done].
  apply (canonical_joinand_at_Some L HP).
  split; [split; [done|]|].
  - intros x (Hx & H1 & H2). by apply Hmin.
  - intros m' Hcm' Hmin'.
    destruct (joinand_cand_meet e a m m' Ha He Hcov Hcm Hcm')
      as (c & Hc & Hcm1 & Hcm2).
    assert (c = m) as ->.
    { destruct (decide (c = m)) as [|Hne']; [done|]. exfalso.
      destruct Hc as (HcE & Hc1 & Hc2).
      apply (Hmin c HcE); [done|]. by apply lt_spec. }
    destruct (decide (m' = m)) as [|Hm'm]; [done|]. exfalso.
    apply (Hmin' m Hcm). apply lt_spec. split; [done|congruence].
Qed.

(** A canonical joinand is not the bottom element: it has a lower
    cover. *)
Lemma joinand_cand_lower_cover e a m :
  a ∈ E → joinand_cand L e a m → lower_covers L m ≠ [].
Proof.
  intros Ha (Hm & Hme & Hma) Hnil.
  destruct (bottom_total L HL) as (b & _ & Hb & Hleast).
  destruct (lower_cover_above L HP b m Hb Hm) as (c & Hc & _).
  - apply lt_spec. split; [by apply Hleast|]. intros <-. apply Hma. by apply Hleast.
  - rewrite Hnil in Hc. by apply not_elem_of_nil in Hc.
Qed.

Lemma canonical_joinands_total e :
  e ∈ E →
  ∃ js, canonical_joinands L (Some e) = Ok (Some js) ∧
        ∀ j, j ∈ js → j ∈ E ∧ lower_covers L j ≠ [].
Proof.
  intros He. unfold canonical_joinands. rewrite (coerce_elem L e He). simpl.
  assert (Hsub : ∀ a, a ∈ lower_covers L e → a ∈ lower_covers L e) by done.
  revert Hsub. generalize (lower_covers L e) at 1 3 as l.
  induction l as [|a l IH]; intros Hsub.
  - exists []. split; [done|]. intros j Hj. by apply not_elem_of_nil in Hj.
  - destruct IH as (js & Hjs & Hall).
    { intros a' Ha'. apply Hsub. by right. }
    destruct (canonical_joinand_at_total e a He) as (m & Hm & Hcand).
    { apply Hsub. by left. }
    exists (m :: js). split.
    + simpl. rewrite Hm. simpl. injection Hjs as Hjs. rewrite Hjs. done.
    + intros j Hj. apply elem_of_cons in Hj as [->|Hj]; [|by apply Hall].
      split; [apply Hcand|].
      apply (joinand_cand_lower_cover e a); [|done].
      assert (Ha : a ∈ lower_covers L e) by (apply Hsub; by left).
      by apply elem_lower_covers in Ha as [Ha _].
Qed.

Lemma _kappa_total j :
  j ∈ E → lower_covers L j ≠ [] → ∃ m, _kappa L (Some j) = Ok (Some m) ∧ m ∈ E.
Proof.
  intros Hj Hlow. destruct (lower_covers L j) as [|lc rest] eqn:Hlc; [done|].
  destruct (hasse_kappa_total j lc rest Hj Hlc) as (m & Hm & HmE).
  exists m. split; [|done]. unfold _kappa.
  rewrite (coerce_elem L j Hj). simpl. rewrite Hm. done.
Qed.

(** In a semidistributive lattice the extended kappa map is total. *)
Lemma kappa_total x :
  x ∈ E → ∃ k, kappa L (Some x) = Ok (Some k) ∧ k ∈ E.
Proof.
  intros Hx. unfold kappa, _extended_kappa.
  rewrite (coerce_elem L x Hx). simpl.
  destruct (canonical_joinands_total x Hx) as (js & -> & Hjs). simpl.
  assert (∃ ms, forM (λ j, _kappa L (Some j)) js = Ok (Some <$> ms) ∧
                ∀ m, m ∈ ms → m ∈ E) as (ms & -> & Hms).
  { induction js as [|j js IH].
    - exists []. split; [done|]. intros m Hm. by apply not_elem_of_nil in Hm.
    - destruct IH as (ms & Hms & Hall).
      { intros j' Hj'. apply Hjs. by right. }
      destruct (Hjs j) as [Hj Hlow]; [by left|].
      destruct (_kappa_total j Hj Hlow) as (m & Hm & HmE).
      exists (m :: ms). split.
      + simpl. rewrite Hm. simpl. rewrite Hms. done.
      + intros m' Hm'. apply elem_of_cons in Hm' as [->|Hm']; auto. }
  simpl. destruct (meet_inf L HL ms Hms) as (c & -> & HcE & _).
  exists c. done.
Qed.
End semidistributive.

End Order.

(** ** Facts about the methods of [FiniteTorsLattice] *)

Module Facts.
Import Order.

Lemma TorsLattice_inv data L :
  TorsLattice data = Ok L →
  L = data ∧ is_lattice L ∧ is_join_semidistributive L ∧
  is_meet_semidistributive L.
Proof.
  unfold TorsLattice.
  destruct (is_lattice data) eqn:Hlat; simpl; [|done].
  destruct (is_semidistributive data) eqn:Hsd; simpl; [|done].
  intros [= <-]. split; [done|]. rewrite Hlat. split; [done|].
  unfold is_semidistributive in Hsd. apply andb_prop in Hsd as [-> ->]. done.
Qed.

Lemma filterM_Ok {A} (p : A → result bool) (l : list A) :
  (∀ x, x ∈ l → ∃ b, p x = Ok b) →
  ∃ r, filterM p l = Ok r ∧ ∀ x, x ∈ r ↔ x ∈ l ∧ p x = Ok true.
Proof.
  induction l as [|a l IH]; intros Hall.
  - exists []. split; [done|]. intros x. rewrite elem_of_nil. tauto.
  - destruct IH as (r & Hr & Hspec).
    { intros x Hx. apply Hall. by right. }
    destruct (Hall a) as [b Hb]; [by left|].
    exists (if b then a :: r else r). split.
    + simpl. rewrite Hb. simpl. rewrite Hr. done.
    + intros x. rewrite elem_of_cons. destruct b.
      * rewrite elem_of_cons, Hspec. split.
        -- intros [->|[H1 H2]]; auto.
        -- intros [[->|H1] H2]; auto.
      * rewrite Hspec. split.
        -- intros [H1 H2]; auto.
        -- intros [[->|H1] H2]; [congruence|auto].
Qed.

Section facts.
Context (L : FiniteLatticePoset).
Local Abbreviation E := (elems L).
Local Notation "a ≼ b" := (Is_true (leq L a b)) (at level 70).
Local Notation "a ≺ b" := (Is_true (lt L a b)) (at level 70).

Lemma elem_of_all_bricks j :
  j ∈ all_bricks L ↔ j ∈ E ∧ length (lower_covers L j) = 1.
Proof.
  unfold all_bricks, join_irreducibles.
  rewrite elem_of_list_to_set, list_elem_of_filter. tauto.
Qed.

Lemma bricks_in_tors_Ok T :
  T ∈ E →
  bricks_in_tors L (Some T) = Ok (filter (λ j, is_lequal L j T) (all_bricks L)).
Proof. intros HT. unfold bricks_in_tors. by rewrite (coerce_elem L T HT). Qed.

(** [bricks] on a pair of elements, by cases on the order. *)
Lemma bricks_not_leq U T check :
  U ∈ E → T ∈ E → leq L U T = false →
  bricks L (Some U, Some T) check =
    if check then Raise NotAnInterval
    else in_tors ← bricks_in_tors L (Some T);
         in_torf ← bricks_in_torf L (Some U);
         Ok (in_tors ∩ in_torf).
Proof.
  intros HU HT Hle. unfold bricks.
  rewrite (coerce_elem L U HU), (coerce_elem L T HT). simpl.
  unfold is_lequal. rewrite Hle. by destruct check.
Qed.

Lemma bricks_leq U T check :
  U ∈ E → T ∈ E → leq L U T = true →
  bricks L (Some U, Some T) check =
    (in_tors ← bricks_in_tors L (Some T);
     in_torf ← bricks_in_torf L (Some U);
     Ok (in_tors ∩ in_torf)).
Proof.
  intros HU HT Hle. unfold bricks.
  rewrite (coerce_elem L U HU), (coerce_elem L T HT). simpl.
  unfold is_lequal. rewrite Hle. by destruct check.
Qed.

(** [label] once the heart is known. *)
Lemma label_of_bricks itv check s :
  bricks L itv true = Ok s →
  label L itv check =
    if check && bool_decide (1 < size s) then Raise NotACoveringRelation
    else match elements s with b :: _ => Ok b | [] => Raise IndexError end.
Proof. intros H. unfold label. rewrite H. done. Qed.

(** [label] with [check = True], by the size of the heart: the guard
    [len(bricks_in) > 1] lets the empty heart through to
    [list(bricks_in)[0]]. *)
Lemma label_by_size itv s :
  bricks L itv true = Ok s →
  (1 < size s → label L itv true = Raise NotACoveringRelation) ∧
  (∀ b, s = {[b]} → label L itv true = Ok b) ∧
  (s = ∅ → label L itv true = Raise IndexError).
Proof.
  intros H. rewrite (label_of_bricks itv true s H). simpl.
  split; [|split].
  - intros Hsize. by rewrite bool_decide_eq_true_2.
  - intros b ->. rewrite size_singleton, elements_singleton.
    by rewrite bool_decide_eq_false_2 by lia.
  - intros ->. rewrite size_empty, elements_empty.
    by rewrite bool_decide_eq_false_2 by lia.
Qed.

Section semidistributive.
Hypothesis HL : is_lattice L.
Hypothesis HJ : is_join_semidistributive L.
Hypothesis HM : is_meet_semidistributive L.

(** In a semidistributive lattice [bricks_in_torf] returns the bricks
    whose kappa lies above the argument. *)
Lemma bricks_in_torf_Ok U :
  U ∈ E →
  ∃ s, bricks_in_torf L (Some U) = Ok s ∧
       ∀ j, j ∈ s ↔ j ∈ all_bricks L ∧
                    ∃ k, kappa L (Some j) = Ok (Some k) ∧ U ≼ k.
Proof.
  intros HU. unfold bricks_in_torf. rewrite (coerce_elem L U HU). simpl.
  assert (Hk : ∀ j, j ∈ elements (all_bricks L) →
            ∃ k, kappa L (Some j) = Ok (Some k) ∧ k ∈ E).
  { intros j Hj. apply elem_of_elements, elem_of_all_bricks in Hj as [Hj _].
    by apply kappa_total. }
  destruct (filterM_Ok
    (λ j, k ← kappa L (Some j); is_gequal L k (Some U))
    (elements (all_bricks L))) as (r & -> & Hr).
  { intros j Hj. destruct (Hk j Hj) as (k & -> & HkE). simpl.
    unfold is_gequal. rewrite (coerce_elem L k HkE), (coerce_elem L U HU).
    simpl. eauto. }
  simpl. eexists. split; [done|]. intros j.
  rewrite elem_of_list_to_set, Hr, elem_of_elements. split.
  - intros [Hj Hge]. split; [done|].
    destruct (Hk j) as (k & Hkj & HkE); [by apply elem_of_elements|].
    exists k. split; [done|]. rewrite Hkj in Hge. simpl in Hge.
    unfold is_gequal in Hge.
    rewrite (coerce_elem L k HkE), (coerce_elem L U HU) in Hge.
    simpl in Hge. injection Hge as Hge. by apply Is_true_true.
  - intros [Hj (k & Hkj & Hle)]. split; [done|].
    rewrite Hkj. simpl.
    destruct (Hk j) as (k' & Hkj' & HkE); [by apply elem_of_elements|].
    assert (k' = k) as -> by congruence.
    unfold is_gequal. rewrite (coerce_elem L k HkE), (coerce_elem L U HU).
    simpl. f_equal. by apply Is_true_true.
Qed.

(** [wide_lequal] in closed form. *)
Lemma wide_lequal_eq U T :
  U ∈ E → T ∈ E →
  ∃ kU kT, kappa L (Some U) = Ok (Some kU) ∧ kappa L (Some T) = Ok (Some kT) ∧
           kU ∈ E ∧ kT ∈ E ∧
           wide_lequal L (Some U) (Some T) = Ok (leq L U T && leq L kT kU).
Proof.
  intros HU HT.
  destruct (kappa_total L HL HJ HM U HU) as (kU & HkU & HkUE).
  destruct (kappa_total L HL HJ HM T HT) as (kT & HkT & HkTE).
  exists kU, kT. repeat (split; [done|]).
  unfold wide_lequal. rewrite (coerce_elem L U HU), (coerce_elem L T HT).
  simpl. rewrite HkU, HkT. simpl. unfold is_lequal, is_gequal.
  rewrite (coerce_elem L kU HkUE), (coerce_elem L kT HkTE). simpl.
  by destruct (leq L U T).
Qed.
End semidistributive.
End facts.

(** *** Kappa in an arbitrary finite lattice *)

Lemma forM_Ok {A B} (f : A → result B) (l : list A) :
  (∀ x, x ∈ l → ∃ y, f x = Ok y) → ∃ ys, forM f l = Ok ys.
Proof.
  induction l as [|a l IH]; intros Hall; [by exists []|].
  destruct IH as [ys Hys]. { intros x Hx. apply Hall. by right. }
  destruct (Hall a) as [y Hy]; [by left|].
  exists (y :: ys). simpl. rewrite Hy. simpl. by rewrite Hys.
Qed.

Lemma forM_Some_inv {A} (f : A → result val) (l : list A) (ms : list nat) :
  forM f l = Ok (Some <$> ms) → Forall2 (λ x m, f x = Ok (Some m)) l ms.
Proof.
  revert ms. induction l as [|a l IH]; intros ms; simpl.
  - intros [= H]. destruct ms; [constructor|done].
  - destruct (f a) as [y|] eqn:Hy; simpl; [|done].
    destruct (forM f l) as [ys|] eqn:Hys; simpl; [|done].
    intros [= H]. destruct ms as [|m ms]; [done|].
    injection H as -> ->. constructor; [done|]. by apply IH.
Qed.

Section kappa_facts.
Context (L : FiniteLatticePoset).
Local Abbreviation E := (elems L).
Local Notation "a ≼ b" := (Is_true (leq L a b)) (at level 70).

Lemma meet_foldl_Raise (xs : list val) e :
  foldl (λ acc x, m ← acc; i ← coerce L x; table (meet2 L i m)) (Raise e) xs
  = Raise e.
Proof. induction xs as [|x xs IH]; [done|]. simpl. exact IH. Qed.

(** [meet] fails on a list that holds [None]. *)
Lemma meet_None (ks : list val) : None ∈ ks → ∃ e, meet L ks = Raise e.
Proof.
  unfold meet. generalize (coerce L (top L)) as acc.
  induction ks as [|k ks IH]; intros acc Hin.
  { by apply not_elem_of_nil in Hin. }
  apply elem_of_cons in Hin as [<-|Hin].
  - simpl. destruct acc as [m|e]; simpl.
    + exists NotAnElement. apply meet_foldl_Raise.
    + exists e. apply meet_foldl_Raise.
  - simpl. by apply IH.
Qed.

Hypothesis HL : is_lattice L.

Lemma canonical_joinands_Ok x :
  x ∈ E →
  canonical_joinands L (Some x) =
    Ok (mapM (canonical_joinand_at L x) (lower_covers L x)).
Proof. intros Hx. unfold canonical_joinands. by rewrite (coerce_elem L x Hx). Qed.

(** Canonical joinands are elements with a lower cover. *)
Lemma canonical_joinands_elems x js :
  x ∈ E → canonical_joinands L (Some x) = Ok (Some js) →
  ∀ j, j ∈ js → j ∈ E ∧ lower_covers L j ≠ [].
Proof.
  intros Hx. rewrite canonical_joinands_Ok by done. intros [= H].
  apply mapM_Some in H. intros j Hj.
  apply list_elem_of_lookup in Hj as [i Hi].
  destruct (Forall2_lookup_r _ _ _ _ _ H Hi) as (a & Ha & Hat).
  apply list_elem_of_lookup_2 in Ha.
  apply (canonical_joinand_at_Some L (lattice_poset L HL)) in Hat.
  destruct Hat as [[Hcand _] _]. split; [apply Hcand|].
  apply (joinand_cand_lower_cover L HL x a); [|done].
  by apply elem_lower_covers in Ha as [Ha _].
Qed.

Lemma _kappa_Ok j :
  j ∈ E → lower_covers L j ≠ [] → ∃ r, _kappa L (Some j) = Ok r.
Proof.
  intros Hj Hlow. unfold _kappa. rewrite (coerce_elem L j Hj). simpl.
  destruct (lower_covers L j) as [|lc rest] eqn:Hlc; [done|].
  destruct (hasse_kappa_Ok L j lc rest Hlc) as [r ->]. simpl.
  destruct r; eauto.
Qed.

Lemma _kappa_hasse j r :
  j ∈ E → _kappa L (Some j) = Ok r ↔ hasse_kappa L j = Ok r.
Proof.
  intros Hj. unfold _kappa. rewrite (coerce_elem L j Hj). simpl.
  destruct (hasse_kappa L j) as [[m|]|e]; simpl; split; congruence.
Qed.
End kappa_facts.

(** *** Covers, simples and projectives in a finite lattice *)

Lemma filter_singleton {A} (P : A → Prop) `{!∀ x, Decision (P x)} (l : list A) z :
  NoDup l → z ∈ l → (∀ y, y ∈ l → P y ↔ y = z) → filter P l = [z].
Proof.
  induction l as [|a l IH]; intros Hnd Hz Hiff.
  { by apply not_elem_of_nil in Hz. }
  apply NoDup_cons in Hnd as [Ha Hnd].
  assert (Htail : ∀ y, y ∈ l → P y ↔ y = z).
  { intros y Hy. apply Hiff. by right. }
  destruct (decide (P a)) as [HPa|HPa].
  - assert (a = z) as -> by (apply Hiff; [by left|done]).
    rewrite filter_cons_True by done. f_equal.
    clear IH Hz Hiff Hnd. induction l as [|b l IH]; [done|].
    rewrite filter_cons_False.
    + apply IH.
      * intros Hin. apply Ha. by right.
      * intros y Hy. apply Htail. by right.
    + rewrite Htail by (by left). intros ->. apply Ha. by left.
  - rewrite filter_cons_False by done.
    apply IH; [done| |done].
    apply elem_of_cons in Hz as [->|Hz]; [|done].
    destruct HPa. apply Hiff; [by left|done].
Qed.

Section cover_facts.
Context (L : FiniteLatticePoset).
Local Abbreviation E := (elems L).
Local Notation "a ≼ b" := (Is_true (leq L a b)) (at level 70).
Local Notation "a ≺ b" := (Is_true (lt L a b)) (at level 70).

Hypothesis HL : is_lattice L.
Let HP : is_poset L := lattice_poset L HL.

Lemma simples_Ok :
  ∃ z, bottom L = Some z ∧ z ∈ E ∧
       simples L = Ok (list_to_set (upper_covers L z)).
Proof.
  destruct (bottom_total L HL) as (z & Hz & HzE & _).
  exists z. split; [done|]. split; [done|].
  unfold simples, zero. by rewrite Hz, (coerce_elem L z HzE).
Qed.

(** An upper cover of the bottom element has the bottom element as its
    only lower cover. *)
Lemma atom_lower_covers z x :
  bottom L = Some z → x ∈ upper_covers L z → lower_covers L x = [z].
Proof.
  intros Hz Hx. apply bottom_spec in Hz as [HzE Hleast].
  apply elem_upper_covers in Hx as [HxE Hcov].
  apply filter_singleton; [by apply elems_NoDup|done|].
  intros y Hy. split; [|by intros ->].
  intros Hyx. destruct (decide (y = z)) as [|Hne]; [done|]. exfalso.
  apply covers_spec in Hcov as [_ Hno]. apply (Hno y Hy). split.
  - apply lt_spec. split; [by apply Hleast|congruence].
  - apply covers_spec in Hyx. tauto.
Qed.

Lemma atom_is_brick z x :
  bottom L = Some z → x ∈ upper_covers L z → x ∈ all_bricks L.
Proof.
  intros Hz Hx. apply elem_of_all_bricks. split.
  - by apply elem_upper_covers in Hx as [Hx _].
  - by rewrite (atom_lower_covers z x).
Qed.

(** A brick does not lie below the bottom element. *)
Lemma brick_not_below_bottom z M :
  bottom L = Some z → M ∈ all_bricks L → ¬ M ≼ z.
Proof.
  intros Hz HM HMz. apply bottom_spec in Hz as [HzE Hleast].
  apply elem_of_all_bricks in HM as [HME Hlen].
  destruct (lower_covers L M) as [|c rest] eqn:Hlow; [done|].
  assert (Hc : c ∈ lower_covers L M) by (rewrite Hlow; by left).
  apply elem_lower_covers in Hc as [HcE Hcov].
  apply covers_spec in Hcov as [Hlt _]. apply lt_spec in Hlt as [HcM Hne].
  apply Hne. apply (leq_antisym L HP); [done..|].
  apply (leq_trans L HP) with z; auto.
Qed.

Lemma top_no_upper_cover t x : top L = Some t → x ∉ upper_covers L t.
Proof.
  intros Ht Hx. apply top_spec in Ht as [HtE Hgreatest].
  apply elem_upper_covers in Hx as [HxE Hcov].
  apply covers_spec in Hcov as [Hlt _]. apply lt_spec in Hlt as [Htx Hne].
  apply Hne. apply (leq_antisym L HP); auto.
Qed.

Lemma bottom_no_lower_cover z x : bottom L = Some z → x ∉ lower_covers L z.
Proof.
  intros Hz Hx. apply bottom_spec in Hz as [HzE Hleast].
  apply elem_lower_covers in Hx as [HxE Hcov].
  apply covers_spec in Hcov as [Hlt _]. apply lt_spec in Hlt as [Hxz Hne].
  apply Hne. apply (leq_antisym L HP); auto.
Qed.

(** [plus(U)] lies above [U] and above every upper cover of [U]. *)
Lemma plus_Ok U :
  U ∈ E →
  ∃ p, plus L (Some U) = Ok p ∧ p ∈ E ∧ U ≼ p ∧
       ∀ x, x ∈ upper_covers L U → x ≼ p.
Proof.
  intros HU. unfold plus, whole. rewrite (coerce_elem L U HU). simpl.
  destruct (top_total L HL) as (t & Ht & HtE & Hgreatest).
  case_bool_decide as Htop.
  - exists U. split; [done|]. split; [done|]. split; [by apply leq_refl|].
    intros x Hx. exfalso. rewrite Ht in Htop. injection Htop as ->.
    by apply (top_no_upper_cover t x).
  - destruct (join_sup L HL (upper_covers L U)) as (p & -> & HpE & Hub & _).
    { intros x Hx. by apply elem_upper_covers in Hx as [Hx _]. }
    exists p. split; [done|]. split; [done|]. split; [|done].
    destruct (upper_cover_below L HP U t HU HtE) as (c & Hc & _).
    { apply lt_spec. split; [by apply Hgreatest|]. congruence. }
    pose proof (Hub c Hc) as Hcp.
    apply elem_upper_covers in Hc as [HcE Hcov].
    apply covers_spec in Hcov as [Hlt _]. apply lt_spec in Hlt as [HUc _].
    by apply (leq_trans L HP) with c.
Qed.

(** [minus(T)] lies below [T] and below every lower cover of [T]. *)
Lemma minus_Ok T :
  T ∈ E →
  ∃ m, minus L (Some T) = Ok m ∧ m ∈ E ∧ m ≼ T ∧
       ∀ x, x ∈ lower_covers L T → m ≼ x.
Proof.
  intros HT. unfold minus, zero. rewrite (coerce_elem L T HT). simpl.
  destruct (bottom_total L HL) as (z & Hz & HzE & Hleast).
  case_bool_decide as Hbot.
  - exists T. split; [done|]. split; [done|]. split; [by apply leq_refl|].
    intros x Hx. exfalso. rewrite Hz in Hbot. injection Hbot as ->.
    by apply (bottom_no_lower_cover z x).
  - destruct (meet_inf L HL (lower_covers L T)) as (m & -> & HmE & Hlb & _).
    { intros x Hx. by apply elem_lower_covers in Hx as [Hx _]. }
    exists m. split; [done|]. split; [done|]. split; [|done].
    destruct (lower_cover_above L HP z T HzE HT) as (c & Hc & _).
    { apply lt_spec. split; [by apply Hleast|]. congruence. }
    pose proof (Hlb c Hc) as Hmc.
    apply elem_lower_covers in Hc as [HcE Hcov].
    apply covers_spec in Hcov as [Hlt _]. apply lt_spec in Hlt as [HcT _].
    by apply (leq_trans L HP) with c.
Qed.

Lemma projectives_Ok T :
  T ∈ E →
  ∃ projs, projectives L (Some T) = Ok projs ∧ projs ⊆ all_bricks L.
Proof.
  intros HT. unfold projectives, indec_tau_rigid.
  rewrite (coerce_elem L T HT). simpl.
  destruct (filterM_Ok
    (λ M, s ← has_tau_rigid_summand L (Some M) false; Ok (bool_decide (T ∈ s)))
    (elements (all_bricks L))) as (r & -> & Hr).
  { intros M HM. apply elem_of_elements, elem_of_all_bricks in HM as [HM _].
    unfold has_tau_rigid_summand. rewrite (coerce_elem L M HM). simpl.
    destruct (plus_Ok M HM) as (p & -> & _). simpl. eauto. }
  simpl. eexists. split; [done|].
  intros M HM. apply elem_of_list_to_set, Hr in HM as [HM _].
  by apply elem_of_elements in HM.
Qed.

Lemma coerce_obj_element elt v :
  distinct_elements L elt → v ∈ E → coerce_obj L elt (elt v) = Ok v.
Proof.
  intros Hd Hv. unfold distinct_elements in Hd. rewrite forallb_elem in Hd.
  specialize (Hd v Hv). apply bool_decide_spec in Hd.
  unfold coerce_obj. rewrite Hd. by apply coerce_elem.
Qed.

(** [number_of_projs] on a tuple of two elements. *)
Lemma number_of_projs_eq elt U T projs :
  distinct_elements L elt →
  U ∈ E → T ∈ E → projectives L (Some T) = Ok projs →
  number_of_projs L elt (PyTuple [elt U; elt T]) =
    Ok (size (filter (λ M, ¬ is_lequal L M U) projs)).
Proof.
  intros Hd HU HT Hprojs. unfold number_of_projs. simpl.
  rewrite (coerce_obj_element elt U Hd HU), (coerce_obj_element elt T Hd HT).
  simpl. by rewrite Hprojs.
Qed.

(** [number_of_projs] on an object that is not a tuple. *)
Lemma number_of_projs_not_tuple elt arg :
  is_tuple arg = false →
  number_of_projs L elt arg =
    (U ← coerce_obj L elt (element_of elt (zero L));
     T ← coerce_obj L elt arg;
     projs ← projectives L (Some T);
     Ok (size (filter (λ M, ¬ is_lequal L M U) projs))).
Proof. intros Hnt. unfold number_of_projs. by rewrite Hnt. Qed.
End cover_facts.

(** *** Wide, ICE and IKE intervals *)

Section wide_facts.
Context (L : FiniteLatticePoset).
Local Abbreviation E := (elems L).
Local Notation "a ≼ b" := (Is_true (leq L a b)) (at level 70).
Local Notation "a ≺ b" := (Is_true (lt L a b)) (at level 70).

Hypothesis HL : is_lattice L.
Let HP : is_poset L := lattice_poset L HL.

(** The upper covers of [U] that lie below [T]. *)
Let covers_below (U T : nat) : list nat :=
  filter (λ x, is_lequal L x T) (upper_covers L U).

Lemma covers_below_elem U T x :
  x ∈ covers_below U T ↔ x ∈ E ∧ covers L U x ∧ x ≼ T.
Proof.
  unfold covers_below. rewrite list_elem_of_filter, elem_upper_covers.
  unfold is_lequal. tauto.
Qed.

(** [is_wide_itv] on an interval: the test of the join of the covers. *)
Lemma is_wide_itv_true U T check :
  U ∈ E → T ∈ E → U ≼ T →
  is_wide_itv L (Some U, Some T) check = Ok true →
  U = T ∨ (U ≠ T ∧ is_sup L (covers_below U T) T).
Proof.
  intros HU HT HUT. unfold is_wide_itv.
  rewrite (coerce_elem L U HU), (coerce_elem L T HT). simpl.
  unfold is_lequal at 1. rewrite (Is_true_true_1 _ HUT), andb_false_r.
  case_bool_decide as Heq; [by left|].
  destruct (join_sup L HL (covers_below U T)) as (j & Hj & Hsup).
  { intros x Hx. by apply covers_below_elem in Hx as [Hx _]. }
  fold (covers_below U T). rewrite Hj. simpl.
  intros [= Hb]. apply bool_decide_eq_true in Hb as ->. right. done.
Qed.

Lemma is_ice_itv_eq U T check p :
  U ∈ E → T ∈ E → U ≼ T → plus L (Some U) = Ok p →
  is_ice_itv L (Some U, Some T) check = Ok (leq L T p).
Proof.
  intros HU HT HUT Hp. unfold is_ice_itv.
  rewrite (coerce_elem L U HU), (coerce_elem L T HT). simpl.
  unfold is_lequal. rewrite (Is_true_true_1 _ HUT), andb_false_r.
  by rewrite Hp.
Qed.

Lemma is_ike_itv_eq U T check m :
  U ∈ E → T ∈ E → U ≼ T → minus L (Some T) = Ok m →
  is_ike_itv L (Some U, Some T) check = Ok (leq L m U).
Proof.
  intros HU HT HUT Hm. unfold is_ike_itv.
  rewrite (coerce_elem L U HU), (coerce_elem L T HT). simpl.
  unfold is_lequal. rewrite (Is_true_true_1 _ HUT), andb_false_r.
  by rewrite Hm.
Qed.

(** Wide intervals are ICE intervals, in any finite lattice. *)
Lemma wide_below_plus U T p :
  U ∈ E → T ∈ E → U ≼ T →
  U = T ∨ (U ≠ T ∧ is_sup L (covers_below U T) T) →
  p ∈ E → U ≼ p → (∀ x, x ∈ upper_covers L U → x ≼ p) →
  T ≼ p.
Proof.
  intros HU HT HUT [<-|[Hne (_ & _ & Hleast)]] Hp HUp Hub; [done|].
  apply Hleast; [done|]. intros x Hx. apply Hub.
  apply covers_below_elem in Hx as (HxE & Hcov & _).
  by apply elem_upper_covers.
Qed.

Hypothesis HM : is_meet_semidistributive L.

(** The elements of the interval [[U,T]] that meet the cover [a] of [U]
    in [U] have an upper bound of the same kind. *)
Lemma meet_class_bound U T a (l : list nat) :
  U ∈ E → T ∈ E → a ∈ E → U ≼ T → U ≼ a →
  (∀ y, y ∈ l → y ∈ E ∧ U ≼ y ∧ y ≼ T ∧ meet2 L a y = Some U) →
  ∃ k, (k ∈ E ∧ U ≼ k ∧ k ≼ T ∧ meet2 L a k = Some U) ∧
       ∀ y, y ∈ l → y ≼ k.
Proof.
  intros HU HT Ha HUT HUa. induction l as [|y l IH]; intros Hl.
  - exists U. split.
    + split; [done|]. split; [by apply leq_refl|]. split; [done|].
      apply meet2_glb; [done..|]. apply is_glb_spec.
      split; [done|]. split; [by apply leq_refl|]. auto.
    + intros y Hy. by apply not_elem_of_nil in Hy.
  - destruct IH as (k & (HkE & HUk & HkT & Hak) & Hub).
    { intros y' Hy'. apply Hl. by right. }
    destruct (Hl y) as (HyE & HUy & HyT & Hay); [by left|].
    destruct (join2_total L HL y k HyE HkE) as (j & Hj & HjE & Hyj & Hkj & Hleast).
    exists j. split.
    + split; [done|]. split; [by apply (leq_trans L HP) with k|].
      split; [by apply Hleast|].
      by apply (meet_sd L a y k U j).
    + intros y' Hy'. apply elem_of_cons in Hy' as [->|Hy']; [done|].
      apply (leq_trans L HP) with k; auto.
      by apply Hl; right.
Qed.

(** In a meet-semidistributive lattice, below the top of a wide interval
    the meet of the lower covers reaches the bottom of the interval. *)
Lemma wide_above_minus U T m :
  U ∈ E → T ∈ E → U ≼ T →
  U = T ∨ (U ≠ T ∧ is_sup L (covers_below U T) T) →
  m ∈ E → m ≼ T → (∀ x, x ∈ lower_covers L T → m ≼ x) →
  m ≼ U.
Proof.
  intros HU HT HUT [<-|[Hne (_ & Hub & Hleast)]] Hm HmT Hlb; [done|].
  destruct (decide (m ≼ U)) as [|HmU]; [done|]. exfalso.
  (* the join of [U] and [m] lies strictly above [U], below [T] *)
  destruct (join2_total L HL U m HU Hm) as (x & _ & HxE & HUx & Hmx & Hxleast).
  assert (HxT : x ≼ T) by (by apply Hxleast).
  assert (HUltx : U ≺ x).
  { apply lt_spec. split; [done|]. intros ->. by apply HmU. }
  (* a cover [a] of [U] below it *)
  destruct (upper_cover_below L HP U x HU HxE HUltx) as (a & Ha & Hax).
  apply elem_upper_covers in Ha as [HaE Hcov].
  pose proof (covers_lt L U a Hcov) as HUlta.
  apply lt_spec in HUlta as [HUa HUnea].
  assert (HaT : a ≼ T) by (by apply (leq_trans L HP) with x).
  (* the largest element of the interval meeting [a] in [U] *)
  pose (Q := λ y, leq L U y && leq L y T && bool_decide (meet2 L a y = Some U)).
  assert (HQ : ∀ y, y ∈ filter (λ y, Q y) E ↔
                    y ∈ E ∧ U ≼ y ∧ y ≼ T ∧ meet2 L a y = Some U).
  { intros y. rewrite list_elem_of_filter. unfold Q.
    rewrite !andb_True, bool_decide_spec. tauto. }
  destruct (meet_class_bound U T a (filter (λ y, Q y) E))
    as (k & (HkE & HUk & HkT & Hak) & Hkub); [done..| |].
  { intros y Hy. by apply HQ. }
  assert (HkltT : k ≺ T).
  { apply lt_spec. split; [done|]. intros ->.
    assert (meet2 L a T = Some a).
    { apply meet2_glb; [done..|]. apply is_glb_spec.
      split; [by apply leq_refl|]. split; [done|]. auto. }
    congruence. }
  (* a lower cover [c] of [T] above it *)
  destruct (lower_cover_above L HP k T HkE HT HkltT) as (c & Hc & Hkc).
  pose proof (Hlb c Hc) as Hmc.
  apply elem_lower_covers in Hc as [HcE HcovT].
  pose proof (covers_lt L c T HcovT) as HcltT.
  apply lt_spec in HcltT as [HcT HcneT].
  assert (HUc : U ≼ c) by (by apply (leq_trans L HP) with k).
  assert (Hac : a ≼ c).
  { apply (leq_trans L HP) with x; auto. }
  (* [c] bounds every cover of [U] below [T], hence [T] *)
  apply HcneT. apply (leq_antisym L HP); [done..|].
  apply Hleast; [done|]. intros b Hb.
  apply covers_below_elem in Hb as (HbE & Hcovb & HbT).
  pose proof (covers_lt L U b Hcovb) as HUltb.
  apply lt_spec in HUltb as [HUb HUneb].
  destruct (meet2_total L HL a b HaE HbE) as (g & Hg & HgE & Hga & Hgb & Hgst).
  destruct (covers_squeeze L U a g) as [->| ->]; auto.
  - apply (leq_trans L HP) with k; auto. apply Hkub. by apply HQ.
  - destruct (covers_squeeze L U b a) as [->| ->]; auto. done.
Qed.
End wide_facts.

End Facts.

(** ** Properties of the module *)

Import Order Facts.

(** C10: for elements [U], [T] with [U ≤ T] failing, [label((U,T), check)]
    raises the "not an interval" error whatever the value of [check], in
    particular with [check = False]: [label] calls [bricks] with the
    default [check = True], so its own flag only governs the test on the
    size of the heart. *)
Theorem label_always_checks_interval (L : FiniteLatticePoset) (U T : nat) (check : bool) :
  U ∈ elems L → T ∈ elems L → leq L U T = false →
  bricks L (Some U, Some T) true = Raise NotAnInterval ∧
  label L (Some U, Some T) check = Raise NotAnInterval.
Proof.
  intros HU HT Hle.
  assert (Hb : bricks L (Some U, Some T) true = Raise NotAnInterval).
  { by rewrite bricks_not_leq. }
  split; [done|]. unfold label. by rewrite Hb.
Qed.

Lemma label_always_checks_interval_witness :
  (1 ∈ elems pentagon ∧ 3 ∈ elems pentagon ∧ leq pentagon 1 3 = false) ∧
  bricks pentagon (Some 1, Some 3) true = Raise NotAnInterval ∧
  label pentagon (Some 1, Some 3) false = Raise NotAnInterval.
Proof.
  assert (H1 : 1 ∈ elems pentagon) by (apply (bool_decide_unpack _); vm_compute; exact I).
  assert (H3 : 3 ∈ elems pentagon) by (apply (bool_decide_unpack _); vm_compute; exact I).
  assert (Hle : leq pentagon 1 3 = false) by reflexivity.
  split; [done|].
  exact (label_always_checks_interval pentagon 1 3 false H1 H3 Hle).
Defined.

(** C6: in a lattice built by [TorsLattice], for elements [U], [T],
    [bricks((U,T), check=True)] raises the "not an interval" error exactly
    when [U ≤ T] fails, and when [U ≤ T] holds it returns the intersection
    of what [bricks_in_tors(T)] and [bricks_in_torf(U)] return. *)
Theorem bricks_checked (data L : FiniteLatticePoset) (U T : nat) :
  TorsLattice data = Ok L → U ∈ elems L → T ∈ elems L →
  (bricks L (Some U, Some T) true = Raise NotAnInterval ↔ leq L U T = false) ∧
  (leq L U T = true →
   ∃ in_tors in_torf,
     bricks_in_tors L (Some T) = Ok in_tors ∧
     bricks_in_torf L (Some U) = Ok in_torf ∧
     bricks L (Some U, Some T) true = Ok (in_tors ∩ in_torf)).
Proof.
  intros Hdata HU HT.
  apply TorsLattice_inv in Hdata as (_ & HL & HJ & HM).
  destruct (bricks_in_torf_Ok L HL HJ HM U HU) as (in_torf & Htorf & _).
  pose proof (bricks_in_tors_Ok L T HT) as Htors.
  assert (Hret : leq L U T = true →
    bricks L (Some U, Some T) true =
    Ok (filter (λ j, is_lequal L j T) (all_bricks L) ∩ in_torf)).
  { intros Hle. rewrite bricks_leq by done. by rewrite Htors, Htorf. }
  split.
  - split.
    + intros Hraise. destruct (leq L U T) eqn:Hle; [|done].
      rewrite Hret in Hraise by done. discriminate.
    + intros Hle. by rewrite bricks_not_leq.
  - intros Hle. eexists _, in_torf. split; [exact Htors|]. split; [done|]. auto.
Qed.

Lemma bricks_checked_witness :
  (TorsLattice pentagon = Ok pentagon ∧ 1 ∈ elems pentagon ∧ 3 ∈ elems pentagon) ∧
  (bricks pentagon (Some 1, Some 3) true = Raise NotAnInterval ↔
   leq pentagon 1 3 = false) ∧
  (leq pentagon 1 3 = true →
   ∃ in_tors in_torf,
     bricks_in_tors pentagon (Some 3) = Ok in_tors ∧
     bricks_in_torf pentagon (Some 1) = Ok in_torf ∧
     bricks pentagon (Some 1, Some 3) true = Ok (in_tors ∩ in_torf)).
Proof.
  assert (H0 : TorsLattice pentagon = Ok pentagon) by (vm_compute; reflexivity).
  assert (H1 : 1 ∈ elems pentagon) by (apply (bool_decide_unpack _); vm_compute; exact I).
  assert (H3 : 3 ∈ elems pentagon) by (apply (bool_decide_unpack _); vm_compute; exact I).
  split; [done|].
  exact (bricks_checked pentagon pentagon 1 3 H0 H1 H3).
Defined.

(** C2, at the failing input: on the pentagon (the lattice of torsion
    classes of the path algebra of type A2) the heart of the pair [(0,0)]
    has no brick, and [label((0,0), check=True)] ends in the [IndexError]
    of [list(bricks_in)[0]], not in the "not a covering relation" error;
    a heart with three bricks is refused as documented. *)
Theorem label_empty_heart :
  TorsLattice pentagon = Ok pentagon ∧
  bricks pentagon (Some 0, Some 0) true = Ok ∅ ∧
  label pentagon (Some 0, Some 0) true = Raise IndexError ∧
  label pentagon (Some 0, Some 4) true = Raise NotACoveringRelation.
Proof. repeat split; vm_compute; reflexivity. Qed.

(** C3, as stated, fails on the chain [0 < 1 < 2 < 3]: the top element [3]
    is a brick as well, and the interval [(0,3)] is not wide. *)
Lemma chain4_scenario_as_stated_fails :
  TorsLattice chain4 = Ok chain4 ∧
  all_bricks chain4 ≠ {[1; 2]} ∧
  is_wide_itv chain4 (Some 0, Some 3) true ≠ Ok true ∧
  ¬ (all_bricks chain4 = {[1; 2]} ∧
     simples chain4 = Ok {[1]} ∧
     label chain4 (Some 0, Some 1) true = Ok 1 ∧
     label chain4 (Some 1, Some 2) true = Ok 2 ∧
     bricks chain4 (Some 0, Some 2) true = Ok {[1; 2]} ∧
     is_wide_itv chain4 (Some 0, Some 3) true = Ok true).
Proof.
  assert (Hbricks : all_bricks chain4 ≠ {[1; 2]}).
  { intros H. assert (Hin : 3 ∈ all_bricks chain4).
    { apply elem_of_all_bricks. split.
      - apply (bool_decide_unpack _). vm_compute. exact I.
      - vm_compute. reflexivity. }
    rewrite H in Hin. set_solver. }
  assert (Hwide : is_wide_itv chain4 (Some 0, Some 3) true ≠ Ok true).
  { vm_compute. discriminate. }
  split; [vm_compute; reflexivity|]. split; [done|]. split; [done|].
  intros (_ & _ & _ & _ & _ & H). done.
Qed.

(** C3, amended: on the chain [0 < 1 < 2 < 3] the bricks are [1], [2] and
    the top element [3]; the only simple is [1]; the labels of [(0,1)] and
    [(1,2)] are [1] and [2]; the heart of [(0,2)] holds the bricks [1] and
    [2]; and [(0,3)] is not a wide interval. *)
Theorem chain4_scenario :
  all_bricks chain4 = {[1; 2; 3]} ∧
  simples chain4 = Ok {[1]} ∧
  label chain4 (Some 0, Some 1) true = Ok 1 ∧
  label chain4 (Some 1, Some 2) true = Ok 2 ∧
  bricks chain4 (Some 0, Some 2) true = Ok {[1; 2]} ∧
  is_wide_itv chain4 (Some 0, Some 3) true = Ok false.
Proof. repeat split; vm_compute; reflexivity. Qed.

(** C1: in a finite lattice, for a join-irreducible element [j] with lower
    cover [lc], [_kappa] returns without raising; its result is [Some m]
    exactly when [m] is the unique maximal element [x] with [lc ≤ x] and
    [j ≰ x], and it is [None] when there is no such unique maximal
    element. *)
Theorem kappa_unique_maximal (L : FiniteLatticePoset) (j : nat) :
  is_lattice L = true → j ∈ join_irreducibles L →
  ∃ lc r,
    lower_covers L j = [lc] ∧
    _kappa L (Some j) = Ok r ∧
    (∀ m, r = Some m ↔ unique_maximal L (kappa_cand L lc j) m) ∧
    ((¬ ∃ m, unique_maximal L (kappa_cand L lc j) m) → r = None).
Proof.
  intros HL Hj. apply Is_true_true_2 in HL.
  apply list_elem_of_filter in Hj as [Hlen Hj].
  destruct (lower_covers L j) as [|lc [|lc' rest]] eqn:Hlow; try done.
  destruct (hasse_kappa_Ok L j lc [] Hlow) as [r Hr].
  exists lc, r. split; [done|]. split; [by apply _kappa_hasse|].
  assert (Hiff : ∀ m, r = Some m ↔ unique_maximal L (kappa_cand L lc j) m).
  { intros m.
    rewrite <- (hasse_kappa_Some L (lattice_poset L HL) j lc [] m Hlow).
    rewrite Hr. split; congruence. }
  split; [done|]. intros Hno. destruct r as [m|]; [|done].
  destruct Hno. exists m. by apply Hiff.
Qed.

Lemma kappa_unique_maximal_witness :
  (is_lattice diamond = true ∧ 1 ∈ join_irreducibles diamond) ∧
  ∃ lc r,
    lower_covers diamond 1 = [lc] ∧
    _kappa diamond (Some 1) = Ok r ∧
    (∀ m, r = Some m ↔ unique_maximal diamond (kappa_cand diamond lc 1) m) ∧
    ((¬ ∃ m, unique_maximal diamond (kappa_cand diamond lc 1) m) → r = None).
Proof.
  assert (H0 : is_lattice diamond = true) by (vm_compute; reflexivity).
  assert (H1 : 1 ∈ join_irreducibles diamond)
    by (apply (bool_decide_unpack _); vm_compute; exact I).
  split; [done|].
  exact (kappa_unique_maximal diamond 1 H0 H1).
Defined.

(** C5: in a finite lattice, for an element [x], [_extended_kappa] returns
    without raising.  It asks [canonical_joinands] first: without canonical
    joinands the result is [None]; otherwise [_kappa] is taken of every
    joinand and the result is what [meet] gives on these values, with
    [None] in place of any failure of [meet].  So the result is [None] as
    soon as the kappa of one joinand is [None], and it is the infimum of
    the kappas when all of them are defined. *)
Theorem extended_kappa_absent (L : FiniteLatticePoset) (x : nat) :
  is_lattice L = true → x ∈ elems L →
  ∃ CJR r,
    canonical_joinands L (Some x) = Ok CJR ∧
    _extended_kappa L (Some x) = Ok r ∧
    match CJR with
    | None => r = None
    | Some js =>
        ∃ ks, forM (λ j, _kappa L (Some j)) js = Ok ks ∧
              r = try_or_None (meet L ks) ∧
              (∀ e, meet L ks = Raise e → r = None) ∧
              (None ∈ ks → r = None) ∧
              (∀ ms, ks = Some <$> ms → ∃ c, is_inf L ms c ∧ r = Some c)
    end.
Proof.
  intros HL Hx. apply Is_true_true_2 in HL.
  pose proof (canonical_joinands_Ok L x Hx) as HCJR.
  destruct (mapM (canonical_joinand_at L x) (lower_covers L x)) as [js|] eqn:Hjs.
  - pose proof (canonical_joinands_elems L HL x js Hx HCJR) as Helems.
    destruct (forM_Ok (λ j, _kappa L (Some j)) js) as [ks Hks].
    { intros j Hj. destruct (Helems j Hj). by apply _kappa_Ok. }
    exists (Some js), (try_or_None (meet L ks)).
    split; [done|]. split.
    { unfold _extended_kappa. rewrite HCJR. simpl. by rewrite Hks. }
    exists ks. split; [done|]. split; [done|]. split; [|split].
    + intros e ->. done.
    + intros Hin. destruct (meet_None L ks Hin) as [e ->]. done.
    + intros ms ->. apply forM_Some_inv in Hks.
      destruct (meet_inf L HL ms) as (c & -> & Hinf).
      * intros m Hm. apply list_elem_of_lookup in Hm as [i Hi].
        destruct (Forall2_lookup_r _ _ _ _ _ Hks Hi) as (j & Hj & Hkj).
        apply list_elem_of_lookup_2 in Hj.
        destruct (Helems j Hj) as [HjE Hlow].
        destruct (lower_covers L j) as [|lc rest] eqn:Hlc; [done|].
        apply _kappa_hasse in Hkj; [|done].
        apply (hasse_kappa_Some L (lattice_poset L HL) j lc rest m Hlc) in Hkj.
        destruct Hkj as [[Hcand _] _]. apply Hcand.
      * exists c. done.
  - exists None, None. split; [done|]. split; [|done].
    unfold _extended_kappa. by rewrite HCJR.
Qed.

Lemma extended_kappa_absent_witness :
  (is_lattice diamond = true ∧ 4 ∈ elems diamond) ∧
  ∃ CJR r,
    canonical_joinands diamond (Some 4) = Ok CJR ∧
    _extended_kappa diamond (Some 4) = Ok r ∧
    match CJR with
    | None => r = None
    | Some js =>
        ∃ ks, forM (λ j, _kappa diamond (Some j)) js = Ok ks ∧
              r = try_or_None (meet diamond ks) ∧
              (∀ e, meet diamond ks = Raise e → r = None) ∧
              (None ∈ ks → r = None) ∧
              (∀ ms, ks = Some <$> ms → ∃ c, is_inf diamond ms c ∧ r = Some c)
    end.
Proof.
  assert (H0 : is_lattice diamond = true) by (vm_compute; reflexivity).
  assert (H1 : 4 ∈ elems diamond)
    by (apply (bool_decide_unpack _); vm_compute; exact I).
  split; [done|].
  exact (extended_kappa_absent diamond 4 H0 H1).
Defined.

(** C7: in a lattice built by [TorsLattice], for elements [U], [T] the
    kappas of [U] and [T] are defined and [wide_lequal(U,T)] returns
    [True] exactly when [U ≤ T] and [kappa(U) ≥ kappa(T)]; the relation is
    reflexive, antisymmetric and transitive on the elements. *)
Theorem wide_lequal_partial_order (data L : FiniteLatticePoset) :
  TorsLattice data = Ok L →
  (∀ U T, U ∈ elems L → T ∈ elems L →
     ∃ kU kT b,
       kappa L (Some U) = Ok (Some kU) ∧ kappa L (Some T) = Ok (Some kT) ∧
       wide_lequal L (Some U) (Some T) = Ok b ∧
       (b = true ↔ leq L U T = true ∧ leq L kT kU = true)) ∧
  (∀ U, U ∈ elems L → wide_lequal L (Some U) (Some U) = Ok true) ∧
  (∀ U T, U ∈ elems L → T ∈ elems L →
     wide_lequal L (Some U) (Some T) = Ok true →
     wide_lequal L (Some T) (Some U) = Ok true → U = T) ∧
  (∀ U T V, U ∈ elems L → T ∈ elems L → V ∈ elems L →
     wide_lequal L (Some U) (Some T) = Ok true →
     wide_lequal L (Some T) (Some V) = Ok true →
     wide_lequal L (Some U) (Some V) = Ok true).
Proof.
  intros Hdata. apply TorsLattice_inv in Hdata as (_ & HL & HJ & HM).
  pose proof (lattice_poset L HL) as HP.
  pose proof (wide_lequal_eq L HL HJ HM) as Heq.
  split; [|split; [|split]].
  - intros U T HU HT.
    destruct (Heq U T HU HT) as (kU & kT & HkU & HkT & _ & _ & Hw).
    exists kU, kT, (leq L U T && leq L kT kU).
    split; [done|]. split; [done|]. split; [done|].
    by rewrite andb_true_iff.
  - intros U HU.
    destruct (Heq U U HU HU) as (kU & kU' & HkU & HkU' & HkUE & _ & ->).
    assert (kU' = kU) as -> by congruence. f_equal.
    apply andb_true_iff. split; apply Is_true_true_1; by apply leq_refl.
  - intros U T HU HT.
    destruct (Heq U T HU HT) as (kU & kT & _ & _ & _ & _ & ->).
    destruct (Heq T U HT HU) as (kT' & kU' & _ & _ & _ & _ & ->).
    intros [= H1] [= H2].
    apply andb_true_iff in H1 as [H1 _]. apply andb_true_iff in H2 as [H2 _].
    apply (leq_antisym L HP); auto using Is_true_true_2.
  - intros U T V HU HT HV.
    destruct (Heq U T HU HT) as (kU & kT & HkU & HkT & HkUE & HkTE & ->).
    destruct (Heq T V HT HV) as (kT' & kV & HkT' & HkV & _ & HkVE & ->).
    destruct (Heq U V HU HV) as (kU' & kV' & HkU' & HkV' & _ & _ & ->).
    assert (kT' = kT) as -> by congruence.
    assert (kU' = kU) as -> by congruence.
    assert (kV' = kV) as -> by congruence.
    intros [= H1] [= H2]. f_equal.
    apply andb_true_iff in H1 as [H1 H1']. apply andb_true_iff in H2 as [H2 H2'].
    apply andb_true_iff. split; apply Is_true_true_1.
    + apply (leq_trans L HP) with T; auto using Is_true_true_2.
    + apply (leq_trans L HP) with kT; auto using Is_true_true_2.
Qed.

Lemma wide_lequal_partial_order_witness :
  TorsLattice pentagon = Ok pentagon ∧
  wide_lequal pentagon (Some 1) (Some 1) = Ok true.
Proof.
  assert (H0 : TorsLattice pentagon = Ok pentagon) by (vm_compute; reflexivity).
  split; [done|].
  destruct (wide_lequal_partial_order pentagon pentagon H0) as (_ & Hrefl & _).
  apply Hrefl. apply (bool_decide_unpack _). vm_compute. exact I.
Defined.

(** C9: in a finite lattice (semidistributive or not), [simples()] returns
    exactly the set of the upper covers of the bottom element, and every
    element of it is join-irreducible, so the set is included in
    [all_bricks()]. *)
Theorem simples_are_atoms (L : FiniteLatticePoset) :
  is_lattice L = true →
  ∃ z s,
    zero L = Some z ∧
    simples L = Ok s ∧
    (∀ x, x ∈ s ↔ x ∈ upper_covers L z) ∧
    s ⊆ all_bricks L.
Proof.
  intros HL. apply Is_true_true_2 in HL.
  destruct (simples_Ok L HL) as (z & Hz & HzE & Hs).
  exists z, (list_to_set (upper_covers L z)).
  split; [done|]. split; [done|]. split.
  - intros x. apply elem_of_list_to_set.
  - intros x Hx. apply elem_of_list_to_set in Hx. by apply (atom_is_brick L HL z).
Qed.

Lemma simples_are_atoms_witness :
  is_lattice pentagon = true ∧
  ∃ z s,
    zero pentagon = Some z ∧
    simples pentagon = Ok s ∧
    (∀ x, x ∈ s ↔ x ∈ upper_covers pentagon z) ∧
    s ⊆ all_bricks pentagon.
Proof.
  assert (H0 : is_lattice pentagon = true) by (vm_compute; reflexivity).
  split; [done|].
  exact (simples_are_atoms pentagon H0).
Defined.

(** C8, at the failing input: the square, built as the product of two
    chains, has the pairs [(0,0)], [(0,1)], [(1,0)], [(1,1)] as elements
    and is accepted by [TorsLattice].  Its top element [(1,1)] is a tuple,
    so [number_of_projs((1,1))] takes the branch of intervals, unpacks the
    element into [1] and [1] and fails on [self(1)], where the docstring
    promises the count for the element, which is [2] here and is what the
    explicit interval from the bottom element to [(1,1)] gives. *)
Theorem number_of_projs_tuple_element :
  TorsLattice square = Ok square ∧
  distinct_elements square pair_elements = true ∧
  whole square = Some 3 ∧
  pair_elements 3 = PyTuple [PyAtom 1; PyAtom 1] ∧
  coerce_obj square pair_elements (pair_elements 3) = Ok 3 ∧
  (∃ projs, projectives square (whole square) = Ok projs ∧ size projs = 2) ∧
  number_of_projs square pair_elements
    (PyTuple [element_of pair_elements (zero square); pair_elements 3]) = Ok 2 ∧
  number_of_projs square pair_elements (pair_elements 3) = Raise NotAnElement.
Proof.
  repeat split; try (vm_compute; reflexivity).
  eexists. split; vm_compute; reflexivity.
Qed.

(** C4: in a lattice built by [TorsLattice], for elements [U ≤ T], if
    [is_wide_itv((U,T))] returns [True] then [is_ice_itv((U,T))] and
    [is_ike_itv((U,T))] return [True], whatever the [check] flags. *)
Theorem wide_is_ice_and_ike (data L : FiniteLatticePoset) (U T : nat)
    (check_wide check_ice check_ike : bool) :
  TorsLattice data = Ok L → U ∈ elems L → T ∈ elems L → leq L U T = true →
  is_wide_itv L (Some U, Some T) check_wide = Ok true →
  is_ice_itv L (Some U, Some T) check_ice = Ok true ∧
  is_ike_itv L (Some U, Some T) check_ike = Ok true.
Proof.
  intros Hdata HU HT HUT Hwide.
  apply TorsLattice_inv in Hdata as (_ & HL & _ & HM).
  apply Is_true_true_2 in HUT.
  apply (is_wide_itv_true L HL) in Hwide; [|done..].
  destruct (plus_Ok L HL U HU) as (p & Hp & HpE & HUp & Hub).
  destruct (minus_Ok L HL T HT) as (m & Hm & HmE & HmT & Hlb).
  rewrite (is_ice_itv_eq L U T check_ice p), (is_ike_itv_eq L U T check_ike m)
    by done.
  split; f_equal; apply Is_true_true_1.
  - by apply (wide_below_plus L U T p).
  - by apply (wide_above_minus L HL HM U T m).
Qed.

Lemma wide_is_ice_and_ike_witness :
  (TorsLattice pentagon = Ok pentagon ∧ 0 ∈ elems pentagon ∧
   4 ∈ elems pentagon ∧ leq pentagon 0 4 = true ∧
   is_wide_itv pentagon (Some 0, Some 4) true = Ok true) ∧
  is_ice_itv pentagon (Some 0, Some 4) true = Ok true ∧
  is_ike_itv pentagon (Some 0, Some 4) true = Ok true.
Proof.
  assert (H : TorsLattice pentagon = Ok pentagon) by (vm_compute; reflexivity).
  assert (H0 : 0 ∈ elems pentagon) by (apply (bool_decide_unpack _); vm_compute; exact I).
  assert (H4 : 4 ∈ elems pentagon) by (apply (bool_decide_unpack _); vm_compute; exact I).
  assert (Hle : leq pentagon 0 4 = true) by reflexivity.
  assert (Hw : is_wide_itv pentagon (Some 0, Some 4) true = Ok true)
    by (vm_compute; reflexivity).
  split; [done|].
  exact (wide_is_ice_and_ike pentagon pentagon 0 4 true true true H H0 H4 Hle Hw).
Defined.

(** Semidistributivity matters for the IKE half: in the lattice
    [two_coatoms], which [TorsLattice] refuses, the interval [(0,6)] is
    wide and ICE but not IKE. *)
Example wide_not_ike_without_semidistributivity :
  is_lattice two_coatoms = true ∧
  TorsLattice two_coatoms = Raise NotSemidistributive ∧
  is_wide_itv two_coatoms (Some 0, Some 6) true = Ok true ∧
  is_ice_itv two_coatoms (Some 0, Some 6) true = Ok true ∧
  is_ike_itv two_coatoms (Some 0, Some 6) true = Ok false.
Proof. repeat split; vm_compute; reflexivity. Qed.

(** ** Hearts of intervals *)

Module Hearts.

Section finite_extremes.
Context (L : FiniteLatticePoset).
Local Abbreviation E := (elems L).
Local Notation "a ≼ b" := (Is_true (leq L a b)) (at level 70).
Local Notation "a ≺ b" := (Is_true (lt L a b)) (at level 70).

Hypothesis HP : is_poset L.

(** In a finite poset a unique maximal element is a greatest element. *)
Lemma unique_maximal_greatest (P : nat → Prop) m :
  (∀ x, Decision (P x)) → (∀ x, P x → x ∈ E) →
  unique_maximal L P m → ∀ x, P x → x ≼ m.
Proof.
  intros Hdec HPE [[Hm Hmax] Huniq] x Hx.
  destruct (exists_maximal L HP (λ y, P y ∧ x ≼ y) E)
    as (m' & Hm'E & [HPm' Hxm'] & Hmax'); [apply _|done|..].
  { exists x. split; [by apply HPE|]. split; [done|]. apply leq_refl; auto. }
  assert (m' = m) as <-; [|done].
  apply Huniq; [done|]. intros z Hz Hlt.
  apply (Hmax' z); [by apply HPE| |done].
  split; [done|]. apply lt_spec in Hlt as [Hle _].
  apply (leq_trans L HP) with m'; auto.
Qed.

Lemma unique_minimal_least (P : nat → Prop) m :
  (∀ x, Decision (P x)) → (∀ x, P x → x ∈ E) →
  unique_minimal L P m → ∀ x, P x → m ≼ x.
Proof.
  intros Hdec HPE [[Hm Hmin] Huniq] x Hx.
  destruct (exists_minimal L HP (λ y, P y ∧ y ≼ x) E)
    as (m' & Hm'E & [HPm' Hm'x] & Hmin'); [apply _|done|..].
  { exists x. split; [by apply HPE|]. split; [done|]. apply leq_refl; auto. }
  assert (m' = m) as <-; [|done].
  apply Huniq; [done|]. intros z Hz Hlt.
  apply (Hmin' z); [by apply HPE| |done].
  split; [done|]. apply lt_spec in Hlt as [Hle _].
  apply (leq_trans L HP) with m'; auto.
Qed.

Lemma kappa_cand_greatest lc j k x :
  unique_maximal L (kappa_cand L lc j) k → kappa_cand L lc j x → x ≼ k.
Proof.
  intros Hk Hx. apply (unique_maximal_greatest (kappa_cand L lc j) k); auto.
  - intros y. unfold kappa_cand. apply _.
  - by intros y [Hy _].
Qed.

Lemma joinand_cand_least e a m x :
  unique_minimal L (joinand_cand L e a) m → joinand_cand L e a x → m ≼ x.
Proof.
  intros Hm Hx. apply (unique_minimal_least (joinand_cand L e a) m); auto.
  - intros y. unfold joinand_cand. apply _.
  - by intros y [Hy _].
Qed.

(** Below an element with a single lower cover, everything else lies
    below that cover. *)
Lemma below_lower_cover j lc x :
  lower_covers L j = [lc] → j ∈ E → x ∈ E → x ≺ j → x ≼ lc.
Proof.
  intros Hlow Hj Hx Hlt.
  destruct (lower_cover_above L HP x j Hx Hj Hlt) as (c & Hc & Hxc).
  rewrite Hlow in Hc. by apply list_elem_of_singleton in Hc as ->.
Qed.

Lemma brick_lower_cover j :
  j ∈ all_bricks L →
  ∃ lc, lower_covers L j = [lc] ∧ j ∈ E ∧ lc ∈ E ∧ covers L lc j.
Proof.
  intros Hj. apply elem_of_all_bricks in Hj as [Hj Hlen].
  destruct (lower_covers L j) as [|lc [|lc' rest]] eqn:Hlow; try done.
  exists lc. split; [done|]. split; [done|].
  assert (Hlc : lc ∈ lower_covers L j) by (rewrite Hlow; by left).
  by apply elem_lower_covers in Hlc.
Qed.

(** The canonical joinand of a join-irreducible element is the element
    itself. *)
Lemma brick_canonical_joinand j lc :
  j ∈ E → lc ∈ E → covers L lc j → lower_covers L j = [lc] →
  canonical_joinand_at L j lc = Some j.
Proof.
  intros Hj Hlc Hcov Hlow. apply (canonical_joinand_at_Some L HP).
  pose proof (covers_lt L lc j Hcov) as Hlt. apply lt_spec in Hlt as [Hle Hne].
  assert (Hcand : joinand_cand L j lc j).
  { split; [done|]. split; [by apply leq_refl|].
    intros Hjlc. apply Hne. by apply (leq_antisym L HP). }
  assert (Honly : ∀ x, joinand_cand L j lc x → x = j).
  { intros x (Hx & Hxj & Hxlc). destruct (decide (x = j)) as [|Hxne]; [done|].
    destruct Hxlc. apply (below_lower_cover j lc x); auto. by apply lt_spec. }
  split; [split; [done|]|].
  - intros x Hx Hlt. apply Honly in Hx as ->. by apply lt_irrefl in Hlt.
  - intros m' Hm' _. by apply Honly.
Qed.
End finite_extremes.

Section lattice.
Context (L : FiniteLatticePoset).
Local Abbreviation E := (elems L).
Local Notation "a ≼ b" := (Is_true (leq L a b)) (at level 70).
Local Notation "a ≺ b" := (Is_true (lt L a b)) (at level 70).

Hypothesis HL : is_lattice L.
Let HP : is_poset L := lattice_poset L HL.

Lemma meet_singleton m : m ∈ E → meet L [Some m] = Ok m.
Proof.
  intros Hm. destruct (top_total L HL) as (t & Ht & HtE & Hgreatest).
  unfold meet. rewrite Ht. simpl.
  rewrite (coerce_elem L t HtE), (coerce_elem L m Hm). simpl.
  rewrite (meet2_glb L HP m t m); [done..|].
  apply is_glb_spec. split; [by apply leq_refl|]. split; [by apply Hgreatest|]. auto.
Qed.

Lemma join_singleton x : x ∈ E → join L [Some x] = Ok x.
Proof.
  intros Hx. destruct (bottom_total L HL) as (b & Hb & HbE & Hleast).
  unfold join. rewrite Hb. simpl.
  rewrite (coerce_elem L b HbE), (coerce_elem L x Hx). simpl.
  rewrite (join2_lub L HP x b x); [done..|].
  apply is_lub_spec. split; [by apply leq_refl|]. split; [by apply Hleast|]. auto.
Qed.

Lemma brick_canonical_joinands j :
  j ∈ all_bricks L → canonical_joinands L (Some j) = Ok (Some [j]).
Proof.
  intros Hj. destruct (brick_lower_cover L j Hj) as (lc & Hlow & HjE & HlcE & Hcov).
  rewrite (canonical_joinands_Ok L j HjE), Hlow. simpl.
  by rewrite (brick_canonical_joinand L HP j lc).
Qed.

(** On a join-irreducible element the extended kappa map is the kappa
    map. *)
Lemma kappa_brick j :
  j ∈ all_bricks L → kappa L (Some j) = _kappa L (Some j).
Proof.
  intros Hj. destruct (brick_lower_cover L j Hj) as (lc & Hlow & HjE & HlcE & Hcov).
  unfold kappa, _extended_kappa. rewrite (coerce_elem L j HjE). simpl.
  rewrite (brick_canonical_joinands j Hj). simpl.
  destruct (_kappa_Ok L j HjE) as [r Hr]; [by rewrite Hlow|].
  rewrite Hr. simpl. destruct r as [m|].
  - assert (Hm : m ∈ E).
    { apply _kappa_hasse in Hr; [|done].
      apply (hasse_kappa_Some L HP j lc [] m Hlow) in Hr.
      destruct Hr as [[Hcand _] _]. apply Hcand. }
    by rewrite (meet_singleton m Hm).
  - destruct (meet_None L [None]) as [e ->]; [by left|]. done.
Qed.

(** The kappa of the bottom element is the top element. *)
Lemma kappa_bottom z t :
  bottom L = Some z → top L = Some t → kappa L (Some z) = Ok (Some t).
Proof.
  intros Hz Ht. pose proof (bottom_spec L z Hz) as [HzE _].
  pose proof (top_spec L t Ht) as [HtE _].
  unfold kappa, _extended_kappa. rewrite (coerce_elem L z HzE). simpl.
  rewrite (canonical_joinands_Ok L z HzE).
  assert (Hnil : lower_covers L z = []).
  { destruct (lower_covers L z) as [|c rest] eqn:Hlow; [done|].
    destruct (bottom_no_lower_cover L HL z c Hz). rewrite Hlow. by left. }
  rewrite Hnil. simpl. unfold meet. rewrite Ht. simpl.
  by rewrite (coerce_elem L t HtE).
Qed.
(** Every element is the supremum of the bricks below it. *)
Lemma sup_of_bricks_below T :
  T ∈ E → is_sup L (elements (filter (λ j, is_lequal L j T) (all_bricks L))) T.
Proof.
  pose (good := λ V, match join L (Some <$> elements
                        (filter (λ j, is_lequal L j V) (all_bricks L))) with
                     | Ok j => bool_decide (j = V)
                     | Raise _ => false
                     end).
  assert (Hin : ∀ V x,
    x ∈ elements (filter (λ j, is_lequal L j V) (all_bricks L)) ↔
    x ∈ all_bricks L ∧ x ≼ V).
  { intros V x. rewrite elem_of_elements, elem_of_filter.
    unfold is_lequal. tauto. }
  assert (HinE : ∀ V x,
    x ∈ elements (filter (λ j, is_lequal L j V) (all_bricks L)) → x ∈ E).
  { intros V x Hx. apply Hin in Hx as [Hx _].
    by apply elem_of_all_bricks in Hx as [Hx _]. }
  assert (Hgood : ∀ V, V ∈ E → good V ↔
    is_sup L (elements (filter (λ j, is_lequal L j V) (all_bricks L))) V).
  { intros V HV. unfold good.
    destruct (join_sup L HL (elements (filter (λ j, is_lequal L j V) (all_bricks L))))
      as (j & -> & Hj); [apply HinE|].
    rewrite bool_decide_spec. split; [by intros <-|].
    intros (HVE & HubV & HlstV). destruct Hj as (HjE & Hubj & Hlstj).
    apply (leq_antisym L HP); auto. }
  intros HT. apply Hgood; [done|].
  destruct (decide (good T)) as [|Hbad]; [done|]. exfalso.
  destruct (exists_minimal L HP (λ x, ¬ good x) E)
    as (m & HmE & Hm & Hmin); [apply _|done|by exists T|].
  apply Hm. apply Hgood; [done|].
  assert (Hbelow : ∀ c, c ∈ E → c ≺ m →
    is_sup L (elements (filter (λ j, is_lequal L j c) (all_bricks L))) c).
  { intros c Hc Hcm. apply Hgood; [done|].
    destruct (decide (good c)) as [|Hn]; [done|]. by destruct (Hmin c Hc Hn). }
  split; [done|]. split.
  { intros x Hx. by apply Hin in Hx as [_ Hx]. }
  intros d Hd Hub.
  assert (Hcover : ∀ c, c ∈ lower_covers L m → c ∈ E ∧ c ≺ m ∧ c ≼ d).
  { intros c Hc. apply elem_lower_covers in Hc as [HcE Hcov].
    pose proof (covers_lt L c m Hcov) as Hcm.
    split; [done|]. split; [done|].
    destruct (Hbelow c HcE Hcm) as (_ & _ & Hleast).
    apply Hleast; [done|]. intros x Hx. apply Hub, Hin.
    apply Hin in Hx as [Hx Hxc]. split; [done|].
    pose proof Hx as HxE. apply elem_of_all_bricks in HxE as [HxE _].
    apply lt_spec in Hcm as [Hcm _]. by apply (leq_trans L HP) with c. }
  destruct (lower_covers L m) as [|c1 [|c2 rest]] eqn:Hlow.
  - destruct (bottom_total L HL) as (z & Hz & HzE & Hleast).
    destruct (decide (z = m)) as [<-|Hne]; [by apply Hleast|].
    destruct (lower_cover_above L HP z m HzE HmE) as (c & Hc & _).
    + apply lt_spec. split; [by apply Hleast|done].
    + rewrite Hlow in Hc. by apply not_elem_of_nil in Hc.
  - apply Hub, Hin. split; [|by apply leq_refl].
    apply elem_of_all_bricks. split; [done|]. by rewrite Hlow.
  - destruct (Hcover c1) as (Hc1E & Hc1m & Hc1d); [by left|].
    destruct (Hcover c2) as (Hc2E & Hc2m & Hc2d); [right; by left|].
    assert (Hne : c1 ≠ c2).
    { assert (Hnd : NoDup (lower_covers L m))
        by (apply NoDup_filter, elems_NoDup, HP).
      rewrite Hlow in Hnd. apply NoDup_cons in Hnd as [Hnin _].
      intros ->. apply Hnin. by left. }
    assert (Hcov1 : covers L c1 m).
    { assert (H1 : c1 ∈ lower_covers L m) by (rewrite Hlow; by left).
      by apply elem_lower_covers in H1 as [_ H1]. }
    assert (Hcov2 : covers L c2 m).
    { assert (H2 : c2 ∈ lower_covers L m) by (rewrite Hlow; right; by left).
      by apply elem_lower_covers in H2 as [_ H2]. }
    pose proof Hc1m as Hc1m'. apply lt_spec in Hc1m' as [Hc1le Hc1ne].
    pose proof Hc2m as Hc2m'. apply lt_spec in Hc2m' as [Hc2le Hc2ne].
    destruct (join2_total L HL c1 c2 Hc1E Hc2E) as (g & _ & HgE & H1g & H2g & Hleast).
    destruct (covers_squeeze L c1 m g) as [->| ->]; auto.
    destruct (covers_squeeze L c2 m c1) as [->| ->]; auto; done.
Qed.

End lattice.

Section semidistributive.
Context (L : FiniteLatticePoset).
Local Abbreviation E := (elems L).
Local Notation "a ≼ b" := (Is_true (leq L a b)) (at level 70).
Local Notation "a ≺ b" := (Is_true (lt L a b)) (at level 70).

Hypothesis HL : is_lattice L.
Hypothesis HJ : is_join_semidistributive L.
Hypothesis HM : is_meet_semidistributive L.
Let HP : is_poset L := lattice_poset L HL.

(** The kappa of a brick [j]: the greatest element above the lower cover
    of [j] that is not above [j]. *)
Lemma brick_kappa j :
  j ∈ all_bricks L →
  ∃ lc k, lower_covers L j = [lc] ∧ j ∈ E ∧ lc ∈ E ∧ k ∈ E ∧
          kappa L (Some j) = Ok (Some k) ∧
          lc ≼ k ∧ ¬ j ≼ k ∧
          ∀ x, x ∈ E → lc ≼ x → ¬ j ≼ x → x ≼ k.
Proof.
  intros Hj. destruct (brick_lower_cover L j Hj) as (lc & Hlow & HjE & HlcE & Hcov).
  destruct (hasse_kappa_total L HL HM j lc [] HjE Hlow) as (k & Hk & HkE).
  exists lc, k. repeat (split; [done|]). split.
  { rewrite (kappa_brick L HL j Hj). by apply _kappa_hasse. }
  apply (hasse_kappa_Some L HP j lc [] k Hlow) in Hk.
  pose proof Hk as [[(_ & Hlck & Hjk) _] _].
  split; [done|]. split; [done|].
  intros x Hx Hlcx Hjx. by apply (kappa_cand_greatest L HP lc j k x).
Qed.

(** Membership in the heart of a pair of elements. *)
Lemma heart_elem U T :
  U ∈ E → T ∈ E →
  ∃ s, bricks L (Some U, Some T) false = Ok s ∧
       (U ≼ T → bricks L (Some U, Some T) true = Ok s) ∧
       ∀ j, j ∈ s ↔ j ∈ all_bricks L ∧ j ≼ T ∧
                    ∃ k, kappa L (Some j) = Ok (Some k) ∧ U ≼ k.
Proof.
  intros HU HT.
  destruct (bricks_in_torf_Ok L HL HJ HM U HU) as (in_torf & Htorf & Hspec).
  pose proof (bricks_in_tors_Ok L T HT) as Htors.
  exists (filter (λ j, is_lequal L j T) (all_bricks L) ∩ in_torf).
  assert (Hunchecked : bricks L (Some U, Some T) false =
    Ok (filter (λ j, is_lequal L j T) (all_bricks L) ∩ in_torf)).
  { unfold bricks. rewrite (coerce_elem L U HU), (coerce_elem L T HT). simpl.
    by rewrite Htors, Htorf. }
  split; [done|]. split.
  - intros HUT. rewrite bricks_leq by (auto using Is_true_true_1).
    by rewrite Htors, Htorf.
  - intros j. rewrite elem_of_intersection, elem_of_filter, Hspec.
    unfold is_lequal. tauto.
Qed.

(** No brick lies in the heart of a pair [(U,T)] with [T ≤ U]. *)
Lemma heart_empty U T s :
  U ∈ E → T ∈ E → T ≼ U →
  bricks L (Some U, Some T) false = Ok s → s = ∅.
Proof.
  intros HU HT HTU Hs. destruct (heart_elem U T HU HT) as (s' & Hs' & _ & Hspec).
  assert (s' = s) as -> by congruence.
  apply set_eq. intros j. rewrite Hspec. split; [|set_solver].
  intros (Hj & HjT & k & Hk & HUk). exfalso.
  destruct (brick_kappa j Hj) as (lc & k' & _ & HjE & _ & HkE & Hk' & _ & Hjk & _).
  assert (k' = k) as -> by congruence.
  apply Hjk. apply (leq_trans L HP) with T; [done..|].
  by apply (leq_trans L HP) with U.
Qed.

(** The canonical joinand of [T] at a lower cover [U] is a brick whose
    lower cover is its meet with [U]. *)
Lemma joinand_is_brick T U m :
  U ∈ E → T ∈ E → covers L U T →
  unique_minimal L (joinand_cand L T U) m →
  ∃ g, lower_covers L m = [g] ∧ g ∈ E ∧ g ≼ U.
Proof.
  intros HU HT Hcov Hm. pose proof Hm as [[(HmE & HmT & HmU) Hmin] _].
  destruct (meet2_total L HL m U HmE HU) as (g & _ & HgE & Hgm & HgU & Hgst).
  assert (Hgltm : g ≺ m).
  { apply lt_spec. split; [done|]. intros ->. by apply HmU. }
  assert (Hbelow : ∀ x, x ∈ E → x ≺ m → x ≼ g).
  { intros x Hx Hxm. pose proof Hxm as Hxm'. apply lt_spec in Hxm' as [Hle _].
    apply Hgst; [done..|].
    destruct (decide (x ≼ U)) as [|HxU]; [done|]. exfalso.
    apply (Hmin x); [|done]. split; [done|]. split; [|done].
    by apply (leq_trans L HP) with m. }
  exists g. split; [|done].
  apply filter_singleton; [by apply elems_NoDup|done|].
  intros y Hy. split.
  - intros Hcovy. pose proof (covers_lt L y m Hcovy) as Hym.
    pose proof (Hbelow y Hy Hym) as Hyg.
    destruct (covers_squeeze L y m g) as [->| ->]; auto.
    by apply lt_irrefl in Hgltm.
  - intros ->.
    destruct (lower_cover_above L HP g m HgE HmE Hgltm) as (c & Hc & Hgc).
    apply elem_lower_covers in Hc as [HcE Hcovc].
    pose proof (Hbelow c HcE (covers_lt L c m Hcovc)) as Hcg.
    by rewrite (leq_antisym L HP g c).
Qed.

(** The heart of a covering relation holds exactly one brick, the
    canonical joinand of the upper element at the lower one. *)
Lemma heart_of_cover U T :
  U ∈ E → T ∈ E → covers L U T →
  ∃ b, canonical_joinand_at L T U = Some b ∧
       bricks L (Some U, Some T) true = Ok {[b]}.
Proof.
  intros HU HT Hcov.
  pose proof (covers_lt L U T Hcov) as HUT. apply lt_spec in HUT as [HUT HUneT].
  destruct (canonical_joinand_at_total L HL HJ T U HT) as (m & Hm & Hcand).
  { by apply elem_lower_covers. }
  exists m. split; [done|].
  apply (canonical_joinand_at_Some L HP) in Hm.
  destruct Hcand as (HmE & HmT & HmU).
  destruct (joinand_is_brick T U m HU HT Hcov Hm) as (g & Hlow & HgE & HgU).
  assert (Hbrick : m ∈ all_bricks L).
  { apply elem_of_all_bricks. split; [done|]. by rewrite Hlow. }
  destruct (heart_elem U T HU HT) as (s & _ & Hs & Hspec).
  rewrite (Hs HUT). f_equal. apply set_eq. intros j.
  rewrite Hspec, elem_of_singleton. split.
  - intros (Hj & HjT & k & Hk & HUk).
    destruct (brick_kappa j Hj)
      as (lc & k' & Hlowj & HjE & HlcE & HkE & Hk' & Hlck & Hjk & _).
    assert (k' = k) as -> by congruence.
    assert (HjU : ¬ j ≼ U).
    { intros HjU. apply Hjk. by apply (leq_trans L HP) with U. }
    assert (Hmj : m ≼ j).
    { by apply (joinand_cand_least L HP T U m j). }
    destruct (decide (j = m)) as [|Hne]; [done|]. exfalso.
    assert (Hmlc : m ≼ lc).
    { apply (below_lower_cover L HP j lc m); auto.
      apply lt_spec. split; [done|congruence]. }
    assert (Hmk : m ≼ k) by (by apply (leq_trans L HP) with lc).
    pose proof (joinand_cand_join L HL T U m HU HT Hcov) as Hjoin.
    apply join2_Some in Hjoin as [_ Hlub]; [|done].
    apply is_lub_spec in Hlub as (_ & _ & Hleast).
    apply Hjk. apply (leq_trans L HP) with T; auto.
  - intros ->. split; [done|]. split; [done|].
    destruct (brick_kappa m Hbrick)
      as (lc & k & Hlowm & _ & _ & HkE & Hk & _ & _ & Hgreatest).
    exists k. split; [done|].
    assert (lc = g) as -> by congruence.
    by apply Hgreatest.
Qed.
End semidistributive.

End Hearts.

(** ** Plus, minus and the interval classifiers *)

Module Intervals.

Lemma filter_all {A} (P : A → Prop) `{!∀ x, Decision (P x)} (l : list A) :
  (∀ x, x ∈ l → P x) → filter P l = l.
Proof.
  induction l as [|a l IH]; intros Hall; [done|].
  rewrite filter_cons_True by (apply Hall; by left).
  f_equal. apply IH. intros x Hx. apply Hall. by right.
Qed.

Section lattice.
Context (L : FiniteLatticePoset).
Local Abbreviation E := (elems L).
Local Notation "a ≼ b" := (Is_true (leq L a b)) (at level 70).
Local Notation "a ≺ b" := (Is_true (lt L a b)) (at level 70).

Hypothesis HL : is_lattice L.
Let HP : is_poset L := lattice_poset L HL.

Lemma is_sup_unique xs c c' : is_sup L xs c → is_sup L xs c' → c = c'.
Proof.
  intros (Hc & Hub & Hlst) (Hc' & Hub' & Hlst').
  apply (leq_antisym L HP); auto.
Qed.

Lemma is_inf_unique xs c c' : is_inf L xs c → is_inf L xs c' → c = c'.
Proof.
  intros (Hc & Hlb & Hgst) (Hc' & Hlb' & Hgst').
  apply (leq_antisym L HP); auto.
Qed.

(** [plus] away from the top element: the supremum of the upper covers,
    strictly above the argument. *)
Lemma plus_sup U :
  U ∈ E → top L ≠ Some U →
  ∃ p, plus L (Some U) = Ok p ∧ is_sup L (upper_covers L U) p ∧ U ≺ p.
Proof.
  intros HU Htop. unfold plus, whole. rewrite (coerce_elem L U HU). simpl.
  rewrite bool_decide_eq_false_2 by congruence.
  destruct (join_sup L HL (upper_covers L U)) as (p & -> & Hsup).
  { intros x Hx. by apply elem_upper_covers in Hx as [Hx _]. }
  exists p. split; [done|]. split; [done|].
  destruct Hsup as (HpE & Hub & _).
  destruct (top_total L HL) as (t & Ht & HtE & Hgreatest).
  destruct (upper_cover_below L HP U t HU HtE) as (c & Hc & _).
  { apply lt_spec. split; [by apply Hgreatest|]. congruence. }
  pose proof (Hub c Hc) as Hcp. apply elem_upper_covers in Hc as [HcE Hcov].
  apply (lt_leq_trans L HP) with c; auto. by apply covers_lt.
Qed.

Lemma plus_top t : top L = Some t → plus L (Some t) = Ok t.
Proof.
  intros Ht. pose proof (top_spec L t Ht) as [HtE _].
  unfold plus, whole. rewrite (coerce_elem L t HtE). simpl.
  by rewrite bool_decide_eq_true_2.
Qed.

Lemma minus_inf T :
  T ∈ E → bottom L ≠ Some T →
  ∃ m, minus L (Some T) = Ok m ∧ is_inf L (lower_covers L T) m ∧ m ≺ T.
Proof.
  intros HT Hbot. unfold minus, zero. rewrite (coerce_elem L T HT). simpl.
  rewrite bool_decide_eq_false_2 by congruence.
  destruct (meet_inf L HL (lower_covers L T)) as (m & -> & Hinf).
  { intros x Hx. by apply elem_lower_covers in Hx as [Hx _]. }
  exists m. split; [done|]. split; [done|].
  destruct Hinf as (HmE & Hlb & _).
  destruct (bottom_total L HL) as (z & Hz & HzE & Hleast).
  destruct (lower_cover_above L HP z T HzE HT) as (c & Hc & _).
  { apply lt_spec. split; [by apply Hleast|]. congruence. }
  pose proof (Hlb c Hc) as Hmc. apply elem_lower_covers in Hc as [HcE Hcov].
  apply (leq_lt_trans L HP) with c; auto. by apply covers_lt.
Qed.

Lemma minus_bottom z : bottom L = Some z → minus L (Some z) = Ok z.
Proof.
  intros Hz. pose proof (bottom_spec L z Hz) as [HzE _].
  unfold minus, zero. rewrite (coerce_elem L z HzE). simpl.
  by rewrite bool_decide_eq_true_2.
Qed.

(** [is_wide_itv] on an interval with distinct ends: the supremum test. *)
Lemma is_wide_itv_sup U T check :
  U ∈ E → T ∈ E → U ≼ T → U ≠ T →
  is_sup L (filter (λ x, is_lequal L x T) (upper_covers L U)) T →
  is_wide_itv L (Some U, Some T) check = Ok true.
Proof.
  intros HU HT HUT Hne Hsup. unfold is_wide_itv.
  rewrite (coerce_elem L U HU), (coerce_elem L T HT). simpl.
  unfold is_lequal at 1. rewrite (Is_true_true_1 _ HUT), andb_false_r.
  rewrite bool_decide_eq_false_2 by done.
  destruct (join_sup L HL (filter (λ x, is_lequal L x T) (upper_covers L U)))
    as (j & -> & Hj).
  { intros x Hx. apply list_elem_of_filter in Hx as [_ Hx].
    by apply elem_upper_covers in Hx as [Hx _]. }
  simpl. f_equal. apply bool_decide_eq_true_2. by eapply is_sup_unique.
Qed.

Lemma is_wide_itv_refl U check :
  U ∈ E → is_wide_itv L (Some U, Some U) check = Ok true.
Proof.
  intros HU. unfold is_wide_itv. rewrite (coerce_elem L U HU). simpl.
  unfold is_lequal. rewrite (Is_true_true_1 _ (leq_refl L HP U HU)), andb_false_r.
  by rewrite bool_decide_eq_true_2.
Qed.

(** The only upper cover of [U] below an upper cover [T] is [T]. *)
Lemma covers_below_cover U T :
  U ∈ E → T ∈ E → covers L U T →
  is_sup L (filter (λ x, is_lequal L x T) (upper_covers L U)) T.
Proof.
  intros HU HT Hcov. split; [done|]. split.
  - intros x Hx. by apply list_elem_of_filter in Hx as [Hx _].
  - intros d Hd Hub. apply Hub. apply list_elem_of_filter. split.
    + unfold is_lequal. by apply leq_refl.
    + by apply elem_upper_covers.
Qed.

(** The interval from [U] to [plus(U)] passes the supremum test. *)
Lemma covers_below_plus U p :
  is_sup L (upper_covers L U) p →
  is_sup L (filter (λ x, is_lequal L x p) (upper_covers L U)) p.
Proof.
  intros Hsup. rewrite filter_all; [done|].
  intros x Hx. destruct Hsup as (_ & Hub & _). by apply Hub.
Qed.

Hypothesis HJ : is_join_semidistributive L.

(** The elements of the interval [[U,T]] that join the lower cover [c] of
    [T] to [T] have a lower bound of the same kind. *)
Lemma join_class_bound U T c (l : list nat) :
  U ∈ E → T ∈ E → c ∈ E → U ≼ T → c ≼ T →
  (∀ y, y ∈ l → y ∈ E ∧ U ≼ y ∧ y ≼ T ∧ join2 L c y = Some T) →
  ∃ k, (k ∈ E ∧ U ≼ k ∧ k ≼ T ∧ join2 L c k = Some T) ∧
       ∀ y, y ∈ l → k ≼ y.
Proof.
  intros HU HT Hc HUT HcT. induction l as [|y l IH]; intros Hl.
  - exists T. split.
    + split; [done|]. split; [done|]. split; [by apply leq_refl|].
      apply join2_lub; [done..|]. apply is_lub_spec.
      split; [done|]. split; [by apply leq_refl|]. auto.
    + intros y Hy. by apply not_elem_of_nil in Hy.
  - destruct IH as (k & (HkE & HUk & HkT & Hck) & Hlb).
    { intros y' Hy'. apply Hl. by right. }
    destruct (Hl y) as (HyE & HUy & HyT & Hcy); [by left|].
    destruct (meet2_total L HL y k HyE HkE) as (g & Hg & HgE & Hgy & Hgk & Hgreatest).
    exists g. split.
    + split; [done|]. split; [by apply Hgreatest|].
      split; [by apply (leq_trans L HP) with k|].
      by apply (join_sd L c y k T g).
    + intros y' Hy'. apply elem_of_cons in Hy' as [->|Hy']; [done|].
      apply (leq_trans L HP) with k; auto.
      by apply Hl; right.
Qed.

(** In a join-semidistributive lattice, an element [T] is the join of the
    upper covers, below [T], of the meet of its lower covers. *)
Lemma covers_below_minus U T :
  U ∈ E → T ∈ E → U ≺ T → is_inf L (lower_covers L T) U →
  is_sup L (filter (λ x, is_lequal L x T) (upper_covers L U)) T.
Proof.
  intros HU HT HUltT (_ & Hlb & Hgst).
  pose proof HUltT as HUT'. apply lt_spec in HUT' as [HUT HUneT].
  set (cs := filter (λ x, is_lequal L x T) (upper_covers L U)).
  assert (Hcs : ∀ x, x ∈ cs ↔ x ∈ E ∧ covers L U x ∧ x ≼ T).
  { intros x. unfold cs. rewrite list_elem_of_filter, elem_upper_covers.
    unfold is_lequal. tauto. }
  destruct (join_sup L HL cs) as (p & _ & Hsup).
  { intros x Hx. by apply Hcs in Hx as [Hx _]. }
  destruct (decide (p = T)) as [->|HpneT]; [done|]. exfalso.
  destruct Hsup as (HpE & Hub & Hleast).
  assert (HpT : p ≼ T).
  { apply Hleast; [done|]. intros x Hx. by apply Hcs in Hx as (_ & _ & Hx). }
  (* a lower cover [c] of [T] above [p] *)
  destruct (lower_cover_above L HP p T HpE HT) as (c & Hc & Hpc).
  { by apply lt_spec. }
  pose proof (Hlb c Hc) as HUc.
  apply elem_lower_covers in Hc as [HcE Hcov].
  pose proof (covers_lt L c T Hcov) as HcltT.
  apply lt_spec in HcltT as [HcT HcneT].
  (* the least element of the interval joining [c] to [T] *)
  pose (Q := λ y, leq L U y && leq L y T && bool_decide (join2 L c y = Some T)).
  assert (HQ : ∀ y, y ∈ filter (λ y, Q y) E ↔
                    y ∈ E ∧ U ≼ y ∧ y ≼ T ∧ join2 L c y = Some T).
  { intros y. rewrite list_elem_of_filter. unfold Q.
    rewrite !andb_True, bool_decide_spec. tauto. }
  destruct (join_class_bound U T c (filter (λ y, Q y) E))
    as (k & (HkE & HUk & HkT & Hck) & Hklb); [done..| |].
  { intros y Hy. by apply HQ. }
  assert (HUltk : U ≺ k).
  { apply lt_spec. split; [done|]. intros <-.
    assert (join2 L c U = Some c).
    { apply join2_lub; [done..|]. apply is_lub_spec.
      split; [by apply leq_refl|]. split; [done|]. auto. }
    congruence. }
  (* an upper cover [b] of [U] below it lies below every lower cover *)
  destruct (upper_cover_below L HP U k HU HkE HUltk) as (b & Hb & Hbk).
  apply elem_upper_covers in Hb as [HbE Hcovb].
  pose proof (covers_lt L U b Hcovb) as HUltb.
  assert (Hbc : b ≼ c).
  { apply (leq_trans L HP) with p; auto. apply Hub, Hcs.
    split; [done|]. split; [done|]. by apply (leq_trans L HP) with k. }
  apply lt_spec in HUltb as [HUb HUneb]. apply HUneb.
  apply (leq_antisym L HP); [done..|].
  apply Hgst; [done|]. intros c' Hc'.
  pose proof (Hlb c' Hc') as HUc'.
  apply elem_lower_covers in Hc' as [Hc'E Hcov'].
  pose proof (covers_lt L c' T Hcov') as Hc'ltT.
  apply lt_spec in Hc'ltT as [Hc'T Hc'neT].
  destruct (join2_total L HL c c' HcE Hc'E) as (g & Hg & HgE & Hcg & Hc'g & Hlst).
  destruct (covers_squeeze L c T g) as [->| ->]; auto.
  - destruct (covers_squeeze L c' T c) as [->| ->]; auto. done.
  - apply (leq_trans L HP) with k; auto. apply Hklb. by apply HQ.
Qed.
End lattice.

End Intervals.

(** ** The tau-tilting layer *)

Module TauTilting.
Import Hearts Intervals.

Section lattice.
Context (L : FiniteLatticePoset).
Local Abbreviation E := (elems L).
Local Notation "a ≼ b" := (Is_true (leq L a b)) (at level 70).
Local Notation "a ≺ b" := (Is_true (lt L a b)) (at level 70).

Hypothesis HL : is_lattice L.
Let HP : is_poset L := lattice_poset L HL.

(** [has_tau_rigid_summand] in closed form. *)
Lemma has_tau_rigid_summand_eq M check :
  M ∈ E →
  ∃ p, plus L (Some M) = Ok p ∧ p ∈ E ∧ M ≼ p ∧
       has_tau_rigid_summand L (Some M) check =
         if check && bool_decide (M ∉ all_bricks L) then Raise NotJoinIrreducible
         else Ok (list_to_set
                    (filter (λ T, is_lequal L M T && is_lequal L T p) E)).
Proof.
  intros HM. destruct (plus_Ok L HL M HM) as (p & Hp & HpE & HMp & _).
  exists p. repeat (split; [done|]).
  unfold has_tau_rigid_summand, indec_tau_rigid.
  rewrite (coerce_elem L M HM). simpl. by rewrite Hp.
Qed.

Lemma projectives_elem T :
  T ∈ E →
  ∃ projs, projectives L (Some T) = Ok projs ∧
    ∀ M, M ∈ projs ↔
         M ∈ all_bricks L ∧ M ≼ T ∧ ∃ p, plus L (Some M) = Ok p ∧ T ≼ p.
Proof.
  intros HT. unfold projectives, indec_tau_rigid.
  rewrite (coerce_elem L T HT). simpl.
  assert (Hbody : ∀ M, M ∈ E →
    ∃ p, plus L (Some M) = Ok p ∧
         (s ← has_tau_rigid_summand L (Some M) false; Ok (bool_decide (T ∈ s)))
         = Ok (leq L M T && leq L T p)).
  { intros M HM.
    destruct (has_tau_rigid_summand_eq M false HM) as (p & Hp & _ & _ & ->).
    exists p. split; [done|]. simpl. f_equal.
    destruct (leq L M T && leq L T p) eqn:Hb.
    - apply bool_decide_eq_true_2.
      rewrite elem_of_list_to_set, list_elem_of_filter.
      unfold is_lequal. by rewrite Hb.
    - apply bool_decide_eq_false_2.
      rewrite elem_of_list_to_set, list_elem_of_filter.
      unfold is_lequal. rewrite Hb. by intros [[] _]. }
  destruct (filterM_Ok
    (λ M, s ← has_tau_rigid_summand L (Some M) false; Ok (bool_decide (T ∈ s)))
    (elements (all_bricks L))) as (r & -> & Hr).
  { intros M HM. apply elem_of_elements, elem_of_all_bricks in HM as [HM _].
    destruct (Hbody M HM) as (p & _ & ->). eauto. }
  simpl. eexists. split; [done|]. intros M.
  rewrite elem_of_list_to_set, Hr, elem_of_elements. split.
  - intros [HM Hb]. split; [done|].
    pose proof HM as HM'. apply elem_of_all_bricks in HM' as [HME _].
    destruct (Hbody M HME) as (p & Hp & Heq). rewrite Heq in Hb.
    injection Hb as Hb. apply andb_true_iff in Hb as [H1 H2].
    split; [by apply Is_true_true_2|]. exists p. split; [done|].
    by apply Is_true_true_2.
  - intros (HM & HMT & p & Hp & HTp). split; [done|].
    pose proof HM as HM'. apply elem_of_all_bricks in HM' as [HME _].
    destruct (Hbody M HME) as (p' & Hp' & ->).
    assert (p' = p) as -> by congruence. f_equal.
    apply andb_true_iff. split; by apply Is_true_true_1.
Qed.

Lemma simples_elem :
  ∃ z s, bottom L = Some z ∧ z ∈ E ∧ simples L = Ok s ∧
         ∀ x, x ∈ s ↔ x ∈ E ∧ covers L z x.
Proof.
  destruct (simples_Ok L HL) as (z & Hz & HzE & Hs).
  exists z, (list_to_set (upper_covers L z)). repeat (split; [done|]).
  intros x. by rewrite elem_of_list_to_set, elem_upper_covers.
Qed.

(** [has_support_summand] in closed form: the down-set of the join of the
    other simples. *)
Lemma has_support_summand_eq S check :
  S ∈ E →
  ∃ s serre, simples L = Ok s ∧
    is_sup L (elements (s ∖ {[S]})) serre ∧
    has_support_summand L (Some S) check =
      if check && bool_decide (S ∉ s) then Raise NotSimple
      else Ok (list_to_set (filter (λ T, is_lequal L T serre) E)).
Proof.
  intros HS. destruct simples_elem as (z & s & Hz & HzE & Hs & Hspec).
  destruct (join_sup L HL (elements (s ∖ {[S]}))) as (serre & Hjoin & Hsup).
  { intros x Hx. apply elem_of_elements, elem_of_difference in Hx as [Hx _].
    by apply Hspec in Hx as [Hx _]. }
  exists s, serre. split; [done|]. split; [done|].
  unfold has_support_summand. rewrite (coerce_elem L S HS). simpl.
  rewrite Hs. simpl. by rewrite Hjoin.
Qed.

Lemma has_support_summand_elem serre T :
  T ∈ list_to_set (C:=gset nat) (filter (λ T, is_lequal L T serre) E) ↔
  T ∈ E ∧ T ≼ serre.
Proof.
  rewrite elem_of_list_to_set, list_elem_of_filter. unfold is_lequal. tauto.
Qed.

(** The body of the comprehensions over the simples: whether [T] lies in
    [has_support_summand(S)]. *)
Lemma support_test S T :
  S ∈ E → T ∈ E →
  ∃ s serre, simples L = Ok s ∧
    is_sup L (elements (s ∖ {[S]})) serre ∧
    (hs ← has_support_summand L (Some S) false; Ok (bool_decide (T ∈ hs)))
      = Ok (leq L T serre) ∧
    (hs ← has_support_summand L (Some S) false; Ok (bool_decide (T ∉ hs)))
      = Ok (negb (leq L T serre)).
Proof.
  intros HS HT.
  destruct (has_support_summand_eq S false HS) as (s & serre & Hs & Hsup & ->).
  exists s, serre. split; [done|]. split; [done|]. simpl.
  destruct (leq L T serre) eqn:Hle; simpl.
  - split; f_equal.
    + apply bool_decide_eq_true_2, has_support_summand_elem.
      split; [done|]. by apply Is_true_true_2.
    + apply bool_decide_eq_false_2. intros Hn. apply Hn.
      apply has_support_summand_elem. split; [done|]. by apply Is_true_true_2.
  - split; f_equal.
    + apply bool_decide_eq_false_2. intros Hin.
      apply has_support_summand_elem in Hin as [_ Hin].
      apply Is_true_true_1 in Hin. congruence.
    + apply bool_decide_eq_true_2. intros Hin.
      apply has_support_summand_elem in Hin as [_ Hin].
      apply Is_true_true_1 in Hin. congruence.
Qed.

Lemma composition_factors_elem T :
  T ∈ E →
  ∃ s cf, simples L = Ok s ∧ composition_factors L (Some T) = Ok cf ∧
    ∀ S, S ∈ cf ↔
         S ∈ s ∧ ∃ serre, is_sup L (elements (s ∖ {[S]})) serre ∧ ¬ T ≼ serre.
Proof.
  intros HT. destruct simples_elem as (z & s & Hz & HzE & Hs & Hspec).
  unfold composition_factors. rewrite (coerce_elem L T HT). simpl.
  rewrite Hs. simpl.
  assert (Hbody : ∀ S, S ∈ elements s →
    ∃ serre, is_sup L (elements (s ∖ {[S]})) serre ∧
      (hs ← has_support_summand L (Some S) false; Ok (bool_decide (T ∉ hs)))
        = Ok (negb (leq L T serre))).
  { intros S HS. apply elem_of_elements, Hspec in HS as [HS _].
    destruct (support_test S T HS HT) as (s' & serre & Hs' & Hsup & _ & Heq).
    assert (s' = s) as -> by congruence. eauto. }
  destruct (filterM_Ok
    (λ S, hs ← has_support_summand L (Some S) false; Ok (bool_decide (T ∉ hs)))
    (elements s)) as (r & -> & Hr).
  { intros S HS. destruct (Hbody S HS) as (serre & _ & ->). eauto. }
  simpl. exists s. eexists. split; [done|]. split; [done|]. intros S.
  rewrite elem_of_list_to_set, Hr, elem_of_elements. split.
  - intros [HS Hb]. split; [done|].
    destruct (Hbody S) as (serre & Hsup & Heq); [by apply elem_of_elements|].
    exists serre. split; [done|]. rewrite Heq in Hb. injection Hb as Hb.
    apply negb_true_iff in Hb. by apply Is_true_false_2.
  - intros (HS & serre & Hsup & Hn). split; [done|].
    destruct (Hbody S) as (serre' & Hsup' & ->); [by apply elem_of_elements|].
    assert (serre' = serre) as -> by (by eapply is_sup_unique).
    f_equal. apply negb_true_iff. by apply Is_true_false_1.
Qed.

Hypothesis HM : is_meet_semidistributive L.

(** In a meet-semidistributive lattice a simple does not lie below the
    join of the other simples. *)
Lemma simple_not_below_others z (s : gset nat) S serre :
  bottom L = Some z → (∀ x, x ∈ s ↔ x ∈ E ∧ covers L z x) →
  S ∈ s → is_sup L (elements (s ∖ {[S]})) serre → ¬ S ≼ serre.
Proof.
  intros Hz Hspec HS (HserE & Hub & Hleast) HSser.
  pose proof (bottom_spec L z Hz) as [HzE Hbot].
  destruct (top_total L HL) as (t & Ht & HtE & Htop).
  apply Hspec in HS as [HSE HcovS].
  pose proof (covers_lt L z S HcovS) as HzS. apply lt_spec in HzS as [HzS HzneS].
  destruct (meet_class_bound L HL HM z t S (elements (s ∖ {[S]})))
    as (k & (HkE & _ & _ & Hk) & Hkub); auto.
  { intros y Hy. apply elem_of_elements, elem_of_difference in Hy as [Hy HyS].
    apply Hspec in Hy as [HyE Hcovy].
    pose proof (covers_lt L z y Hcovy) as Hzy. apply lt_spec in Hzy as [Hzy Hzney].
    repeat (split; [by auto|]).
    destruct (meet2_total L HL S y HSE HyE) as (g & Hg & HgE & HgS & Hgy & Hgst).
    destruct (covers_squeeze L z S g) as [->| ->]; auto.
    exfalso. destruct (covers_squeeze L z y S) as [HSz|HSy]; auto.
    apply HyS, elem_of_singleton. congruence. }
  assert (HSk : S ≼ k).
  { apply (leq_trans L HP) with serre; auto. }
  assert (meet2 L S k = Some S).
  { apply meet2_glb; [done..|]. apply is_glb_spec.
    split; [by apply leq_refl|]. split; [done|]. auto. }
  congruence.
Qed.
End lattice.

End TauTilting.

(** ** Further properties of the module *)

Import Hearts Intervals TauTilting.

(** X1: in a finite lattice, a join-irreducible element [j] is its own and
    only canonical joinand, and the method [kappa] (the extended kappa
    map) returns on [j] what [_kappa] returns, be it an element or
    [None]. *)
Theorem kappa_on_brick (L : FiniteLatticePoset) (j : nat) :
  is_lattice L = true → j ∈ join_irreducibles L →
  canonical_joinands L (Some j) = Ok (Some [j]) ∧
  kappa L (Some j) = _kappa L (Some j).
Proof.
  intros HL Hj. apply Is_true_true_2 in HL.
  assert (Hb : j ∈ all_bricks L) by (by apply elem_of_list_to_set).
  split.
  - by apply brick_canonical_joinands.
  - by apply kappa_brick.
Qed.

Lemma kappa_on_brick_witness :
  (is_lattice diamond = true ∧ 1 ∈ join_irreducibles diamond) ∧
  canonical_joinands diamond (Some 1) = Ok (Some [1]) ∧
  kappa diamond (Some 1) = _kappa diamond (Some 1).
Proof.
  assert (H0 : is_lattice diamond = true) by (vm_compute; reflexivity).
  assert (H1 : 1 ∈ join_irreducibles diamond)
    by (apply (bool_decide_unpack _); vm_compute; exact I).
  split; [done|].
  exact (kappa_on_brick diamond 1 H0 H1).
Defined.

(** X2: in a finite lattice the bottom element has no canonical joinand,
    and [kappa(zero())] is the top element [whole()], the meet of no
    element. *)
Theorem kappa_zero_is_whole (L : FiniteLatticePoset) :
  is_lattice L = true →
  ∃ z t, zero L = Some z ∧ whole L = Some t ∧
         canonical_joinands L (Some z) = Ok (Some []) ∧
         kappa L (Some z) = Ok (Some t).
Proof.
  intros HL. apply Is_true_true_2 in HL.
  destruct (bottom_total L HL) as (z & Hz & HzE & _).
  destruct (top_total L HL) as (t & Ht & HtE & _).
  exists z, t. split; [done|]. split; [done|]. split.
  - rewrite (canonical_joinands_Ok L z HzE).
    destruct (lower_covers L z) as [|c rest] eqn:Hlow; [done|].
    destruct (bottom_no_lower_cover L HL z c Hz). rewrite Hlow. by left.
  - by apply kappa_bottom.
Qed.

Lemma kappa_zero_is_whole_witness :
  is_lattice pentagon = true ∧
  ∃ z t, zero pentagon = Some z ∧ whole pentagon = Some t ∧
         canonical_joinands pentagon (Some z) = Ok (Some []) ∧
         kappa pentagon (Some z) = Ok (Some t).
Proof.
  assert (H0 : is_lattice pentagon = true) by (vm_compute; reflexivity).
  split; [done|].
  exact (kappa_zero_is_whole pentagon H0).
Defined.

(** X3: in a lattice built by [TorsLattice], [wide_lequal(zero(), T)]
    returns [True] for every element [T]: the zero class is the least
    element of the order of wide subcategories. *)
Theorem wide_lequal_zero_least (data L : FiniteLatticePoset) (T : nat) :
  TorsLattice data = Ok L → T ∈ elems L →
  wide_lequal L (zero L) (Some T) = Ok true.
Proof.
  intros Hdata HT. apply TorsLattice_inv in Hdata as (_ & HL & HJ & HM).
  destruct (bottom_total L HL) as (z & Hz & HzE & Hleast).
  destruct (top_total L HL) as (t & Ht & HtE & Hgreatest).
  unfold zero. rewrite Hz.
  destruct (wide_lequal_eq L HL HJ HM z T HzE HT)
    as (kz & kT & Hkz & HkT & _ & HkTE & ->).
  rewrite (kappa_bottom L HL z t Hz Ht) in Hkz. injection Hkz as <-.
  f_equal. apply andb_true_iff. split; apply Is_true_true_1; auto.
Qed.

Lemma wide_lequal_zero_least_witness :
  (TorsLattice pentagon = Ok pentagon ∧ 2 ∈ elems pentagon) ∧
  wide_lequal pentagon (zero pentagon) (Some 2) = Ok true.
Proof.
  assert (H0 : TorsLattice pentagon = Ok pentagon) by (vm_compute; reflexivity).
  assert (H2 : 2 ∈ elems pentagon)
    by (apply (bool_decide_unpack _); vm_compute; exact I).
  split; [done|].
  exact (wide_lequal_zero_least pentagon pentagon 2 H0 H2).
Defined.

(** X4: in a lattice built by [TorsLattice], for elements [T ≤ U] the
    unchecked [bricks((U,T), check=False)] is the empty set; in particular
    the heart of [(U,U)] is empty, and [label((U,U), check)] raises
    [IndexError] whatever the flag. *)
Theorem trivial_heart_empty (data L : FiniteLatticePoset) (U T : nat) (check : bool) :
  TorsLattice data = Ok L → U ∈ elems L → T ∈ elems L → leq L T U = true →
  bricks L (Some U, Some T) false = Ok ∅ ∧
  bricks L (Some U, Some U) true = Ok ∅ ∧
  label L (Some U, Some U) check = Raise IndexError.
Proof.
  intros Hdata HU HT HTU. apply TorsLattice_inv in Hdata as (_ & HL & HJ & HM).
  apply Is_true_true_2 in HTU.
  pose proof (lattice_poset L HL) as HP.
  split; [|split].
  - destruct (heart_elem L HL HJ HM U T HU HT) as (s & Hs & _).
    rewrite Hs. f_equal. by apply (heart_empty L HL HJ HM U T).
  - destruct (heart_elem L HL HJ HM U U HU HU) as (s & Hs & Hchecked & _).
    rewrite Hchecked by (by apply leq_refl). f_equal.
    apply (heart_empty L HL HJ HM U U); auto. by apply leq_refl.
  - destruct (heart_elem L HL HJ HM U U HU HU) as (s & Hs & Hchecked & _).
    assert (s = ∅) as ->.
    { apply (heart_empty L HL HJ HM U U); auto. by apply leq_refl. }
    rewrite (label_of_bricks L (Some U, Some U) check ∅)
      by (apply Hchecked; by apply leq_refl).
    rewrite size_empty, elements_empty.
    rewrite bool_decide_eq_false_2 by lia. by rewrite andb_false_r.
Qed.

Lemma trivial_heart_empty_witness :
  (TorsLattice pentagon = Ok pentagon ∧ 2 ∈ elems pentagon ∧
   1 ∈ elems pentagon ∧ leq pentagon 1 2 = true) ∧
  bricks pentagon (Some 2, Some 1) false = Ok ∅ ∧
  bricks pentagon (Some 2, Some 2) true = Ok ∅ ∧
  label pentagon (Some 2, Some 2) false = Raise IndexError.
Proof.
  assert (H0 : TorsLattice pentagon = Ok pentagon) by (vm_compute; reflexivity).
  assert (H2 : 2 ∈ elems pentagon)
    by (apply (bool_decide_unpack _); vm_compute; exact I).
  assert (H1 : 1 ∈ elems pentagon)
    by (apply (bool_decide_unpack _); vm_compute; exact I).
  assert (Hle : leq pentagon 1 2 = true) by reflexivity.
  split; [done|].
  exact (trivial_heart_empty pentagon pentagon 2 1 false H0 H2 H1 Hle).
Defined.

(** X5: in a lattice built by [TorsLattice], when [T] is an upper cover of
    [U] the heart of [(U,T)] holds exactly one brick [b], which [label]
    returns whatever its flag; [b] is the canonical joinand of [T] at its
    lower cover [U], it lies below [T] and not below [U]. *)
Theorem label_of_cover (data L : FiniteLatticePoset) (U T : nat) (check : bool) :
  TorsLattice data = Ok L → U ∈ elems L → T ∈ elems L → covers L U T = true →
  ∃ b, bricks L (Some U, Some T) true = Ok {[b]} ∧
       label L (Some U, Some T) check = Ok b ∧
       b ∈ all_bricks L ∧ leq L b T = true ∧ leq L b U = false ∧
       canonical_joinand_at L T U = Some b.
Proof.
  intros Hdata HU HT Hcov. apply TorsLattice_inv in Hdata as (_ & HL & HJ & HM).
  apply Is_true_true_2 in Hcov. pose proof (lattice_poset L HL) as HP.
  destruct (heart_of_cover L HL HJ HM U T HU HT Hcov) as (b & Hb & Hheart).
  exists b. split; [done|]. split.
  { rewrite (label_of_bricks L (Some U, Some T) check {[b]} Hheart).
    rewrite size_singleton, elements_singleton.
    rewrite bool_decide_eq_false_2 by lia. by rewrite andb_false_r. }
  pose proof (covers_lt L U T Hcov) as HUT. apply lt_spec in HUT as [HUT _].
  destruct (heart_elem L HL HJ HM U T HU HT) as (s & _ & Hs & Hspec).
  rewrite (Hs HUT) in Hheart. injection Hheart as ->.
  destruct (Hspec b) as [(Hbrick & HbT & _) _]; [set_solver|].
  apply (canonical_joinand_at_Some L HP) in Hb as Hmin.
  destruct Hmin as [[(_ & _ & HbU) _] _].
  split; [done|]. split; [by apply Is_true_true_1|].
  split; [by apply Is_true_false_1|done].
Qed.

Lemma label_of_cover_witness :
  (TorsLattice pentagon = Ok pentagon ∧ 2 ∈ elems pentagon ∧
   4 ∈ elems pentagon ∧ covers pentagon 2 4 = true) ∧
  ∃ b, bricks pentagon (Some 2, Some 4) true = Ok {[b]} ∧
       label pentagon (Some 2, Some 4) true = Ok b ∧
       b ∈ all_bricks pentagon ∧ leq pentagon b 4 = true ∧
       leq pentagon b 2 = false ∧
       canonical_joinand_at pentagon 4 2 = Some b.
Proof.
  assert (H0 : TorsLattice pentagon = Ok pentagon) by (vm_compute; reflexivity).
  assert (H2 : 2 ∈ elems pentagon)
    by (apply (bool_decide_unpack _); vm_compute; exact I).
  assert (H4 : 4 ∈ elems pentagon)
    by (apply (bool_decide_unpack _); vm_compute; exact I).
  assert (Hcov : covers pentagon 2 4 = true) by (vm_compute; reflexivity).
  split; [done|].
  exact (label_of_cover pentagon pentagon 2 4 true H0 H2 H4 Hcov).
Defined.

(** X6: in a lattice built by [TorsLattice], every brick [j] is the label
    of the covering relation from its lower cover to [j]. *)
Theorem brick_labels_own_cover (data L : FiniteLatticePoset) (j : nat) (check : bool) :
  TorsLattice data = Ok L → j ∈ all_bricks L →
  ∃ lc, lower_covers L j = [lc] ∧ label L (Some lc, Some j) check = Ok j.
Proof.
  intros Hdata Hj. apply TorsLattice_inv in Hdata as (_ & HL & HJ & HM).
  pose proof (lattice_poset L HL) as HP.
  destruct (brick_lower_cover L j Hj) as (lc & Hlow & HjE & HlcE & Hcov).
  exists lc. split; [done|].
  destruct (heart_of_cover L HL HJ HM lc j HlcE HjE Hcov) as (b & Hb & Hheart).
  rewrite (brick_canonical_joinand L HP j lc HjE HlcE Hcov Hlow) in Hb.
  injection Hb as <-.
  rewrite (label_of_bricks L (Some lc, Some j) check {[j]} Hheart).
  rewrite size_singleton, elements_singleton.
  rewrite bool_decide_eq_false_2 by lia. by rewrite andb_false_r.
Qed.

Lemma brick_labels_own_cover_witness :
  (TorsLattice pentagon = Ok pentagon ∧ 2 ∈ all_bricks pentagon) ∧
  ∃ lc, lower_covers pentagon 2 = [lc] ∧
        label pentagon (Some lc, Some 2) true = Ok 2.
Proof.
  assert (H0 : TorsLattice pentagon = Ok pentagon) by (vm_compute; reflexivity).
  assert (H2 : 2 ∈ all_bricks pentagon)
    by (apply (bool_decide_unpack _); vm_compute; exact I).
  split; [done|].
  exact (brick_labels_own_cover pentagon pentagon 2 true H0 H2).
Defined.

(** X7: whenever [label(itv, check=True)] returns a brick [b], the heart
    [bricks(itv)] is exactly [{b}]; with [check=False] the brick returned
    belongs to the heart. *)
Theorem label_in_heart (L : FiniteLatticePoset) (itv : val * val) (check : bool) (b : nat) :
  label L itv check = Ok b →
  ∃ s, bricks L itv true = Ok s ∧ b ∈ s ∧ (check = true → s = {[b]}).
Proof.
  unfold label. destruct (bricks L itv true) as [s|e]; simpl; [|done].
  intros Hlab. exists s. split; [done|].
  destruct (check && bool_decide (1 < size s)) eqn:Hguard; [done|].
  destruct (elements s) as [|b' l] eqn:Hel; [done|]. injection Hlab as ->.
  assert (Hin : b ∈ s) by (apply elem_of_elements; rewrite Hel; by left).
  split; [done|]. intros ->. simpl in Hguard.
  apply bool_decide_eq_false in Hguard.
  assert (Hlen : size s = S (length l)).
  { unfold size, set_size. simpl. by rewrite Hel. }
  destruct l as [|c l]; [|simpl in Hlen; lia].
  rewrite <- (list_to_set_elements_L s), Hel. simpl. apply (right_id_L ∅ (∪)).
Qed.

Lemma label_in_heart_witness :
  label pentagon (Some 0, Some 1) true = Ok 1 ∧
  ∃ s, bricks pentagon (Some 0, Some 1) true = Ok s ∧ 1 ∈ s ∧
       (true = true → s = {[1]}).
Proof.
  assert (H0 : label pentagon (Some 0, Some 1) true = Ok 1)
    by (vm_compute; reflexivity).
  split; [done|].
  exact (label_in_heart pentagon (Some 0, Some 1) true 1 H0).
Defined.

(** X8: in a lattice built by [TorsLattice], no brick lies in the zero
    torsion class and every brick lies in the whole one; dually every
    brick lies in the torsion-free class of zero and none in that of the
    whole category; so the heart of [(zero(), whole())] is the set of all
    bricks. *)
Theorem extreme_hearts (data L : FiniteLatticePoset) :
  TorsLattice data = Ok L →
  bricks_in_tors L (zero L) = Ok ∅ ∧
  bricks_in_tors L (whole L) = Ok (all_bricks L) ∧
  bricks_in_torf L (zero L) = Ok (all_bricks L) ∧
  bricks_in_torf L (whole L) = Ok ∅ ∧
  bricks L (zero L, whole L) true = Ok (all_bricks L).
Proof.
  intros Hdata. apply TorsLattice_inv in Hdata as (_ & HL & HJ & HM).
  pose proof (lattice_poset L HL) as HP.
  destruct (bottom_total L HL) as (z & Hz & HzE & Hleast).
  destruct (top_total L HL) as (t & Ht & HtE & Hgreatest).
  unfold zero, whole. rewrite Hz, Ht.
  assert (Htors_z : bricks_in_tors L (Some z) = Ok ∅).
  { rewrite (bricks_in_tors_Ok L z HzE). f_equal. apply set_eq. intros j.
    rewrite elem_of_filter. split; [|by intros ?%not_elem_of_empty].
    intros [Hjz Hj]. by destruct (brick_not_below_bottom L HL z j Hz Hj). }
  assert (Htors_t : bricks_in_tors L (Some t) = Ok (all_bricks L)).
  { rewrite (bricks_in_tors_Ok L t HtE). f_equal. apply set_eq. intros j.
    rewrite elem_of_filter. split; [tauto|]. intros Hj. split; [|done].
    apply Hgreatest. by apply elem_of_all_bricks in Hj as [Hj _]. }
  assert (Htorf_z : bricks_in_torf L (Some z) = Ok (all_bricks L)).
  { destruct (bricks_in_torf_Ok L HL HJ HM z HzE) as (s & -> & Hs). f_equal.
    apply set_eq. intros j. rewrite Hs. split; [tauto|]. intros Hj.
    split; [done|].
    destruct (brick_kappa L HL HM j Hj) as (lc & k & _ & _ & _ & HkE & Hk & _).
    exists k. split; [done|]. by apply Hleast. }
  assert (Htorf_t : bricks_in_torf L (Some t) = Ok ∅).
  { destruct (bricks_in_torf_Ok L HL HJ HM t HtE) as (s & -> & Hs). f_equal.
    apply set_eq. intros j. rewrite Hs. split; [|by intros ?%not_elem_of_empty].
    intros (Hj & k & Hk & Htk). exfalso.
    destruct (brick_kappa L HL HM j Hj)
      as (lc & k' & _ & HjE & _ & HkE & Hk' & _ & Hjk & _).
    assert (k' = k) as -> by congruence.
    apply Hjk. apply (leq_trans L HP) with t; auto. }
  repeat (split; [done|]).
  rewrite bricks_leq; [|done..|apply Is_true_true_1; by apply Hleast].
  rewrite Htors_t, Htorf_z. simpl. f_equal. apply (idemp_L (∩)).
Qed.

Lemma extreme_hearts_witness :
  TorsLattice pentagon = Ok pentagon ∧
  bricks pentagon (zero pentagon, whole pentagon) true = Ok (all_bricks pentagon).
Proof.
  assert (H0 : TorsLattice pentagon = Ok pentagon) by (vm_compute; reflexivity).
  split; [done|].
  exact (proj2 (proj2 (proj2 (proj2 (extreme_hearts pentagon pentagon H0))))).
Defined.

(** X9: in a lattice built by [TorsLattice], for elements
    [U' ≤ U ≤ T ≤ T'] the heart of [(U,T)] is included in the heart of
    [(U',T')], and [itv_lequal((U,T), (U',T'))] returns [True]. *)
Theorem nested_intervals_nested_hearts (data L : FiniteLatticePoset) (U T U' T' : nat) :
  TorsLattice data = Ok L →
  U ∈ elems L → T ∈ elems L → U' ∈ elems L → T' ∈ elems L →
  leq L U' U = true → leq L U T = true → leq L T T' = true →
  (∃ s s', bricks L (Some U, Some T) true = Ok s ∧
           bricks L (Some U', Some T') true = Ok s' ∧ s ⊆ s') ∧
  itv_lequal L (Some U, Some T) (Some U', Some T') = Ok true.
Proof.
  intros Hdata HU HT HU' HT' H1 H2 H3.
  apply TorsLattice_inv in Hdata as (_ & HL & HJ & HM).
  pose proof (lattice_poset L HL) as HP.
  apply Is_true_true_2 in H1, H2, H3.
  destruct (heart_elem L HL HJ HM U T HU HT) as (s & _ & Hs & Hspec).
  destruct (heart_elem L HL HJ HM U' T' HU' HT') as (s' & _ & Hs' & Hspec').
  assert (HU'T' : leq L U' T').
  { apply (leq_trans L HP) with U; auto. by apply (leq_trans L HP) with T. }
  assert (Hsub : s ⊆ s').
  { intros j. rewrite Hspec, Hspec'. intros (Hj & HjT & k & Hk & HUk).
    pose proof Hj as HjE. apply elem_of_all_bricks in HjE as [HjE _].
    destruct (kappa_total L HL HJ HM j HjE) as (k' & Hk' & HkE).
    assert (k' = k) as -> by congruence.
    split; [done|]. split; [by apply (leq_trans L HP) with T|].
    exists k. split; [done|]. by apply (leq_trans L HP) with U. }
  split.
  - exists s, s'. auto.
  - unfold itv_lequal. rewrite (Hs H2), (Hs' HU'T'). simpl. f_equal.
    by apply bool_decide_eq_true_2.
Qed.

Lemma nested_intervals_nested_hearts_witness :
  (TorsLattice pentagon = Ok pentagon ∧
   1 ∈ elems pentagon ∧ 2 ∈ elems pentagon ∧ 0 ∈ elems pentagon ∧
   4 ∈ elems pentagon ∧ leq pentagon 0 1 = true ∧ leq pentagon 1 2 = true ∧
   leq pentagon 2 4 = true) ∧
  itv_lequal pentagon (Some 1, Some 2) (Some 0, Some 4) = Ok true.
Proof.
  assert (H : TorsLattice pentagon = Ok pentagon) by (vm_compute; reflexivity).
  assert (H1 : 1 ∈ elems pentagon)
    by (apply (bool_decide_unpack _); vm_compute; exact I).
  assert (H2 : 2 ∈ elems pentagon)
    by (apply (bool_decide_unpack _); vm_compute; exact I).
  assert (H0 : 0 ∈ elems pentagon)
    by (apply (bool_decide_unpack _); vm_compute; exact I).
  assert (H4 : 4 ∈ elems pentagon)
    by (apply (bool_decide_unpack _); vm_compute; exact I).
  assert (Ha : leq pentagon 0 1 = true) by reflexivity.
  assert (Hb : leq pentagon 1 2 = true) by reflexivity.
  assert (Hc : leq pentagon 2 4 = true) by reflexivity.
  split; [done|].
  exact (proj2 (nested_intervals_nested_hearts pentagon pentagon 1 2 0 4
                  H H1 H2 H0 H4 Ha Hb Hc)).
Defined.

(** X10: in a lattice built by [TorsLattice], [bricks(itv, check=False)]
    returns on every pair of elements, comparable or not, the
    intersection of [bricks_in_tors(T)] and [bricks_in_torf(U)]; on an
    interval it returns what the checked call returns. *)
Theorem bricks_unchecked (data L : FiniteLatticePoset) (U T : nat) :
  TorsLattice data = Ok L → U ∈ elems L → T ∈ elems L →
  ∃ in_tors in_torf,
    bricks_in_tors L (Some T) = Ok in_tors ∧
    bricks_in_torf L (Some U) = Ok in_torf ∧
    bricks L (Some U, Some T) false = Ok (in_tors ∩ in_torf) ∧
    (leq L U T = true →
     bricks L (Some U, Some T) true = bricks L (Some U, Some T) false).
Proof.
  intros Hdata HU HT. apply TorsLattice_inv in Hdata as (_ & HL & HJ & HM).
  destruct (bricks_in_torf_Ok L HL HJ HM U HU) as (in_torf & Htorf & _).
  pose proof (bricks_in_tors_Ok L T HT) as Htors.
  eexists _, in_torf. split; [exact Htors|]. split; [done|].
  assert (Hfalse : bricks L (Some U, Some T) false =
    Ok (filter (λ j, is_lequal L j T) (all_bricks L) ∩ in_torf)).
  { unfold bricks. rewrite (coerce_elem L U HU), (coerce_elem L T HT). simpl.
    by rewrite Htors, Htorf. }
  split; [done|]. intros Hle.
  rewrite Hfalse, bricks_leq by done. by rewrite Htors, Htorf.
Qed.

Lemma bricks_unchecked_witness :
  (TorsLattice pentagon = Ok pentagon ∧ 1 ∈ elems pentagon ∧ 3 ∈ elems pentagon) ∧
  ∃ in_tors in_torf,
    bricks_in_tors pentagon (Some 3) = Ok in_tors ∧
    bricks_in_torf pentagon (Some 1) = Ok in_torf ∧
    bricks pentagon (Some 1, Some 3) false = Ok (in_tors ∩ in_torf) ∧
    (leq pentagon 1 3 = true →
     bricks pentagon (Some 1, Some 3) true = bricks pentagon (Some 1, Some 3) false).
Proof.
  assert (H0 : TorsLattice pentagon = Ok pentagon) by (vm_compute; reflexivity).
  assert (H1 : 1 ∈ elems pentagon)
    by (apply (bool_decide_unpack _); vm_compute; exact I).
  assert (H3 : 3 ∈ elems pentagon)
    by (apply (bool_decide_unpack _); vm_compute; exact I).
  split; [done|].
  exact (bricks_unchecked pentagon pentagon 1 3 H0 H1 H3).
Defined.

(** X11: a value that is not an element of the lattice ([None] or a
    foreign vertex) is refused with the "not in poset" error before any
    other test, whatever the [check] flag: by [kappa], [bricks_in_tors],
    [bricks_in_torf], [plus], [minus], [has_tau_rigid_summand], and as the
    first component of the pair by [bricks], [label], [is_wide_itv],
    [is_ice_itv] and [is_ike_itv]. *)
Theorem non_element_refused (L : FiniteLatticePoset) (x y : val) (check : bool) :
  (∀ a, x = Some a → a ∉ elems L) →
  kappa L x = Raise NotAnElement ∧
  bricks_in_tors L x = Raise NotAnElement ∧
  bricks_in_torf L x = Raise NotAnElement ∧
  plus L x = Raise NotAnElement ∧
  minus L x = Raise NotAnElement ∧
  has_tau_rigid_summand L x check = Raise NotAnElement ∧
  bricks L (x, y) check = Raise NotAnElement ∧
  label L (x, y) check = Raise NotAnElement ∧
  is_wide_itv L (x, y) check = Raise NotAnElement ∧
  is_ice_itv L (x, y) check = Raise NotAnElement ∧
  is_ike_itv L (x, y) check = Raise NotAnElement.
Proof.
  intros Hx.
  assert (Hc : coerce L x = Raise NotAnElement).
  { unfold coerce. destruct x as [a|]; [|done].
    rewrite bool_decide_eq_false_2; [done|]. by apply Hx. }
  assert (Hb : ∀ c, bricks L (x, y) c = Raise NotAnElement).
  { intros c. unfold bricks. by rewrite Hc. }
  unfold kappa, bricks_in_tors, bricks_in_torf, plus, minus,
    has_tau_rigid_summand, label, is_wide_itv, is_ice_itv, is_ike_itv.
  rewrite !Hb, !Hc. done.
Qed.

Lemma non_element_refused_witness :
  (∀ a, (None : val) = Some a → a ∉ elems pentagon) ∧
  bricks pentagon (None, Some 1) false = Raise NotAnElement.
Proof.
  assert (H0 : ∀ a, (None : val) = Some a → a ∉ elems pentagon) by (intros a [=]).
  split; [done|].
  pose proof (non_element_refused pentagon None (Some 1) false H0) as H.
  exact (proj1 (proj2 (proj2 (proj2 (proj2 (proj2 (proj2 H))))))).
Defined.

(** X12: in a finite lattice, [plus(U)] returns on every element: on the
    top element the element itself, and otherwise the supremum of the
    upper covers of [U], which lies strictly above [U]. *)
Theorem plus_spec (L : FiniteLatticePoset) (U : nat) :
  is_lattice L = true → U ∈ elems L →
  ∃ p, plus L (Some U) = Ok p ∧ p ∈ elems L ∧ leq L U p = true ∧
       (whole L = Some U → p = U) ∧
       (whole L ≠ Some U → is_sup L (upper_covers L U) p ∧ p ≠ U).
Proof.
  intros HL HU. apply Is_true_true_2 in HL.
  destruct (plus_Ok L HL U HU) as (p & Hp & HpE & HUp & _).
  exists p. split; [done|]. split; [done|].
  split; [by apply Is_true_true_1|]. split.
  - intros Htop. rewrite (plus_top L U) in Hp by done. congruence.
  - intros Htop. destruct (plus_sup L HL U HU Htop) as (p' & Hp' & Hsup & Hlt).
    assert (p' = p) as -> by congruence. split; [done|].
    apply lt_spec in Hlt as [_ Hne]. congruence.
Qed.

Lemma plus_spec_witness :
  (is_lattice pentagon = true ∧ 0 ∈ elems pentagon) ∧
  ∃ p, plus pentagon (Some 0) = Ok p ∧ p ∈ elems pentagon ∧
       leq pentagon 0 p = true ∧
       (whole pentagon = Some 0 → p = 0) ∧
       (whole pentagon ≠ Some 0 →
        is_sup pentagon (upper_covers pentagon 0) p ∧ p ≠ 0).
Proof.
  assert (H : is_lattice pentagon = true) by (vm_compute; reflexivity).
  assert (H0 : 0 ∈ elems pentagon)
    by (apply (bool_decide_unpack _); vm_compute; exact I).
  split; [done|].
  exact (plus_spec pentagon 0 H H0).
Defined.

(** X13: in a finite lattice, [minus(T)] returns on every element: on the
    bottom element the element itself, and otherwise the infimum of the
    lower covers of [T], which lies strictly below [T]. *)
Theorem minus_spec (L : FiniteLatticePoset) (T : nat) :
  is_lattice L = true → T ∈ elems L →
  ∃ m, minus L (Some T) = Ok m ∧ m ∈ elems L ∧ leq L m T = true ∧
       (zero L = Some T → m = T) ∧
       (zero L ≠ Some T → is_inf L (lower_covers L T) m ∧ m ≠ T).
Proof.
  intros HL HT. apply Is_true_true_2 in HL.
  destruct (minus_Ok L HL T HT) as (m & Hm & HmE & HmT & _).
  exists m. split; [done|]. split; [done|].
  split; [by apply Is_true_true_1|]. split.
  - intros Hbot. rewrite (minus_bottom L T) in Hm by done. congruence.
  - intros Hbot. destruct (minus_inf L HL T HT Hbot) as (m' & Hm' & Hinf & Hlt).
    assert (m' = m) as -> by congruence. split; [done|].
    apply lt_spec in Hlt as [_ Hne]. congruence.
Qed.

Lemma minus_spec_witness :
  (is_lattice pentagon = true ∧ 4 ∈ elems pentagon) ∧
  ∃ m, minus pentagon (Some 4) = Ok m ∧ m ∈ elems pentagon ∧
       leq pentagon m 4 = true ∧
       (zero pentagon = Some 4 → m = 4) ∧
       (zero pentagon ≠ Some 4 →
        is_inf pentagon (lower_covers pentagon 4) m ∧ m ≠ 4).
Proof.
  assert (H : is_lattice pentagon = true) by (vm_compute; reflexivity).
  assert (H4 : 4 ∈ elems pentagon)
    by (apply (bool_decide_unpack _); vm_compute; exact I).
  split; [done|].
  exact (minus_spec pentagon 4 H H4).
Defined.

(** X14: in a finite lattice, for every element [U] the interval from [U]
    to [plus(U)] is classified wide by [is_wide_itv] and ICE by
    [is_ice_itv], whatever the [check] flags. *)
Theorem interval_to_plus_is_wide (L : FiniteLatticePoset) (U : nat)
    (check_wide check_ice : bool) :
  is_lattice L = true → U ∈ elems L →
  ∃ p, plus L (Some U) = Ok p ∧
       is_wide_itv L (Some U, Some p) check_wide = Ok true ∧
       is_ice_itv L (Some U, Some p) check_ice = Ok true.
Proof.
  intros HL HU. apply Is_true_true_2 in HL.
  pose proof (lattice_poset L HL) as HP.
  destruct (plus_Ok L HL U HU) as (p & Hp & HpE & HUp & _).
  exists p. split; [done|]. split.
  - destruct (decide (top L = Some U)) as [Htop|Htop].
    + rewrite (plus_top L U) in Hp by done. injection Hp as <-.
      by apply is_wide_itv_refl.
    + destruct (plus_sup L HL U HU Htop) as (p' & Hp' & Hsup & Hlt).
      assert (p' = p) as -> by congruence.
      apply lt_spec in Hlt as [_ Hne].
      apply is_wide_itv_sup; auto. by apply covers_below_plus.
  - rewrite (is_ice_itv_eq L U p check_ice p) by done.
    f_equal. apply Is_true_true_1. by apply leq_refl.
Qed.

Lemma interval_to_plus_is_wide_witness :
  (is_lattice pentagon = true ∧ 1 ∈ elems pentagon) ∧
  ∃ p, plus pentagon (Some 1) = Ok p ∧
       is_wide_itv pentagon (Some 1, Some p) true = Ok true ∧
       is_ice_itv pentagon (Some 1, Some p) true = Ok true.
Proof.
  assert (H : is_lattice pentagon = true) by (vm_compute; reflexivity).
  assert (H1 : 1 ∈ elems pentagon)
    by (apply (bool_decide_unpack _); vm_compute; exact I).
  split; [done|].
  exact (interval_to_plus_is_wide pentagon 1 true true H H1).
Defined.

(** X15: in a lattice built by [TorsLattice], for every element [T] the
    interval from [minus(T)] to [T] is classified wide by [is_wide_itv]
    and IKE by [is_ike_itv], whatever the [check] flags. *)
Theorem interval_from_minus_is_wide (data L : FiniteLatticePoset) (T : nat)
    (check_wide check_ike : bool) :
  TorsLattice data = Ok L → T ∈ elems L →
  ∃ m, minus L (Some T) = Ok m ∧
       is_wide_itv L (Some m, Some T) check_wide = Ok true ∧
       is_ike_itv L (Some m, Some T) check_ike = Ok true.
Proof.
  intros Hdata HT. apply TorsLattice_inv in Hdata as (_ & HL & HJ & _).
  pose proof (lattice_poset L HL) as HP.
  destruct (minus_Ok L HL T HT) as (m & Hm & HmE & HmT & _).
  exists m. split; [done|]. split.
  - destruct (decide (bottom L = Some T)) as [Hbot|Hbot].
    + rewrite (minus_bottom L T) in Hm by done. injection Hm as <-.
      by apply is_wide_itv_refl.
    + destruct (minus_inf L HL T HT Hbot) as (m' & Hm' & Hinf & Hlt).
      assert (m' = m) as -> by congruence.
      pose proof Hlt as Hlt'. apply lt_spec in Hlt' as [_ Hne].
      apply is_wide_itv_sup; auto. by apply covers_below_minus.
  - rewrite (is_ike_itv_eq L m T check_ike m) by done.
    f_equal. apply Is_true_true_1. by apply leq_refl.
Qed.

Lemma interval_from_minus_is_wide_witness :
  (TorsLattice pentagon = Ok pentagon ∧ 4 ∈ elems pentagon) ∧
  ∃ m, minus pentagon (Some 4) = Ok m ∧
       is_wide_itv pentagon (Some m, Some 4) true = Ok true ∧
       is_ike_itv pentagon (Some m, Some 4) true = Ok true.
Proof.
  assert (H : TorsLattice pentagon = Ok pentagon) by (vm_compute; reflexivity).
  assert (H4 : 4 ∈ elems pentagon)
    by (apply (bool_decide_unpack _); vm_compute; exact I).
  split; [done|].
  exact (interval_from_minus_is_wide pentagon pentagon 4 true true H H4).
Defined.

(** X16: in a finite lattice, a covering relation [(U,T)] is classified
    wide, ICE and IKE, whatever the [check] flags. *)
Theorem cover_is_wide_ice_ike (L : FiniteLatticePoset) (U T : nat)
    (check_wide check_ice check_ike : bool) :
  is_lattice L = true → U ∈ elems L → T ∈ elems L → covers L U T = true →
  is_wide_itv L (Some U, Some T) check_wide = Ok true ∧
  is_ice_itv L (Some U, Some T) check_ice = Ok true ∧
  is_ike_itv L (Some U, Some T) check_ike = Ok true.
Proof.
  intros HL HU HT Hcov. apply Is_true_true_2 in HL, Hcov.
  pose proof (covers_lt L U T Hcov) as Hlt. apply lt_spec in Hlt as [HUT Hne].
  destruct (plus_Ok L HL U HU) as (p & Hp & _ & _ & Hub).
  destruct (minus_Ok L HL T HT) as (m & Hm & _ & _ & Hlb).
  split; [|split].
  - apply is_wide_itv_sup; auto. by apply covers_below_cover.
  - rewrite (is_ice_itv_eq L U T check_ice p) by done.
    f_equal. apply Is_true_true_1, Hub. by apply elem_upper_covers.
  - rewrite (is_ike_itv_eq L U T check_ike m) by done.
    f_equal. apply Is_true_true_1, Hlb. by apply elem_lower_covers.
Qed.

Lemma cover_is_wide_ice_ike_witness :
  (is_lattice diamond = true ∧ 1 ∈ elems diamond ∧ 4 ∈ elems diamond ∧
   covers diamond 1 4 = true) ∧
  is_wide_itv diamond (Some 1, Some 4) true = Ok true ∧
  is_ice_itv diamond (Some 1, Some 4) true = Ok true ∧
  is_ike_itv diamond (Some 1, Some 4) true = Ok true.
Proof.
  assert (H : is_lattice diamond = true) by (vm_compute; reflexivity).
  assert (H1 : 1 ∈ elems diamond)
    by (apply (bool_decide_unpack _); vm_compute; exact I).
  assert (H4 : 4 ∈ elems diamond)
    by (apply (bool_decide_unpack _); vm_compute; exact I).
  assert (Hcov : covers diamond 1 4 = true) by (vm_compute; reflexivity).
  split; [done|].
  exact (cover_is_wide_ice_ike diamond 1 4 true true true H H1 H4 Hcov).
Defined.

(** X17: in a finite lattice, on a pair of elements with [U ≤ T] failing,
    [is_wide_itv], [is_ice_itv] and [is_ike_itv] raise the "not an
    interval" error when [check] is enabled, and return a Boolean without
    raising when it is disabled. *)
Theorem classifiers_check_interval (L : FiniteLatticePoset) (U T : nat) :
  is_lattice L = true → U ∈ elems L → T ∈ elems L → leq L U T = false →
  (is_wide_itv L (Some U, Some T) true = Raise NotAnInterval ∧
   is_ice_itv L (Some U, Some T) true = Raise NotAnInterval ∧
   is_ike_itv L (Some U, Some T) true = Raise NotAnInterval) ∧
  (∃ b, is_wide_itv L (Some U, Some T) false = Ok b) ∧
  (∃ p, plus L (Some U) = Ok p ∧
        is_ice_itv L (Some U, Some T) false = Ok (leq L T p)) ∧
  (∃ m, minus L (Some T) = Ok m ∧
        is_ike_itv L (Some U, Some T) false = Ok (leq L m U)).
Proof.
  intros HL HU HT Hle. apply Is_true_true_2 in HL.
  unfold is_wide_itv, is_ice_itv, is_ike_itv.
  rewrite (coerce_elem L U HU), (coerce_elem L T HT). simpl.
  change (is_lequal L U T) with (leq L U T). rewrite Hle. simpl.
  split; [done|].
  destruct (plus_Ok L HL U HU) as (p & Hp & _).
  destruct (minus_Ok L HL T HT) as (m & Hm & _).
  split; [|split].
  - case_bool_decide; [by eexists|].
    destruct (join_sup L HL (filter (λ x, is_lequal L x T) (upper_covers L U)))
      as (j & -> & _).
    { intros x Hx. apply list_elem_of_filter in Hx as [_ Hx].
      by apply elem_upper_covers in Hx as [Hx _]. }
    simpl. by eexists.
  - exists p. split; [done|]. by rewrite Hp.
  - exists m. split; [done|]. by rewrite Hm.
Qed.

Lemma classifiers_check_interval_witness :
  (is_lattice pentagon = true ∧ 1 ∈ elems pentagon ∧ 3 ∈ elems pentagon ∧
   leq pentagon 1 3 = false) ∧
  is_wide_itv pentagon (Some 1, Some 3) true = Raise NotAnInterval ∧
  is_ice_itv pentagon (Some 1, Some 3) true = Raise NotAnInterval ∧
  is_ike_itv pentagon (Some 1, Some 3) true = Raise NotAnInterval.
Proof.
  assert (H : is_lattice pentagon = true) by (vm_compute; reflexivity).
  assert (H1 : 1 ∈ elems pentagon)
    by (apply (bool_decide_unpack _); vm_compute; exact I).
  assert (H3 : 3 ∈ elems pentagon)
    by (apply (bool_decide_unpack _); vm_compute; exact I).
  assert (Hle : leq pentagon 1 3 = false) by reflexivity.
  split; [done|].
  exact (proj1 (classifiers_check_interval pentagon 1 3 H H1 H3 Hle)).
Defined.

(** X18: in a finite lattice, for an element [U] other than the bottom
    element, the pair [(U, zero())] is no interval, yet
    [is_wide_itv((U, zero()), check=False)] returns [True]: no upper cover
    of [U] lies below the bottom element, and the join of no element is
    the bottom element.  With [check] enabled the pair is refused. *)
Theorem unchecked_pair_to_zero_is_wide (L : FiniteLatticePoset) (U : nat) :
  is_lattice L = true → U ∈ elems L → zero L ≠ Some U →
  is_wide_itv L (Some U, zero L) false = Ok true ∧
  is_wide_itv L (Some U, zero L) true = Raise NotAnInterval.
Proof.
  intros HL HU Hne. apply Is_true_true_2 in HL.
  pose proof (lattice_poset L HL) as HP.
  destruct (bottom_total L HL) as (z & Hz & HzE & Hleast).
  unfold zero in *. rewrite Hz in *.
  assert (HUz : leq L U z = false).
  { apply Is_true_false_1. intros HUz. apply Hne. f_equal.
    apply (leq_antisym L HP); auto. }
  unfold is_wide_itv. rewrite (coerce_elem L U HU), (coerce_elem L z HzE). simpl.
  change (is_lequal L U z) with (leq L U z). rewrite HUz. simpl.
  split; [|done].
  rewrite bool_decide_eq_false_2 by congruence.
  assert (Hnil : filter (λ x, is_lequal L x z) (upper_covers L U) = []).
  { destruct (filter (λ x, is_lequal L x z) (upper_covers L U)) as [|x l] eqn:Hf;
      [done|]. exfalso.
    assert (Hx : x ∈ filter (λ x, is_lequal L x z) (upper_covers L U))
      by (rewrite Hf; by left).
    apply list_elem_of_filter in Hx as [Hxz Hx].
    apply elem_upper_covers in Hx as [HxE Hcov].
    pose proof (covers_lt L U x Hcov) as Hlt. apply lt_spec in Hlt as [HUx _].
    apply Is_true_false_2 in HUz. apply HUz.
    by apply (leq_trans L HP) with x. }
  rewrite Hnil. simpl. unfold join. simpl. rewrite Hz, (coerce_elem L z HzE).
  simpl. f_equal. by apply bool_decide_eq_true_2.
Qed.

Lemma unchecked_pair_to_zero_is_wide_witness :
  (is_lattice pentagon = true ∧ 3 ∈ elems pentagon ∧ zero pentagon ≠ Some 3) ∧
  is_wide_itv pentagon (Some 3, zero pentagon) false = Ok true ∧
  is_wide_itv pentagon (Some 3, zero pentagon) true = Raise NotAnInterval.
Proof.
  assert (H : is_lattice pentagon = true) by (vm_compute; reflexivity).
  assert (H3 : 3 ∈ elems pentagon)
    by (apply (bool_decide_unpack _); vm_compute; exact I).
  assert (Hne : zero pentagon ≠ Some 3) by (vm_compute; discriminate).
  split; [done|].
  exact (unchecked_pair_to_zero_is_wide pentagon 3 H H3 Hne).
Defined.

(** X19: in a finite lattice, [has_tau_rigid_summand(M, check=True)]
    raises the "not join-irreducible" error exactly when the element [M]
    is no brick; otherwise, and always with [check=False], it returns the
    set of the elements [T] with [M ≤ T ≤ plus(M)], which holds [M] and
    [plus(M)]. *)
Theorem has_tau_rigid_summand_spec (L : FiniteLatticePoset) (M : nat) :
  is_lattice L = true → M ∈ elems L →
  (has_tau_rigid_summand L (Some M) true = Raise NotJoinIrreducible ↔
   M ∉ all_bricks L) ∧
  ∃ p s,
    plus L (Some M) = Ok p ∧
    has_tau_rigid_summand L (Some M) false = Ok s ∧
    (M ∈ all_bricks L → has_tau_rigid_summand L (Some M) true = Ok s) ∧
    (∀ T, T ∈ s ↔ T ∈ elems L ∧ leq L M T = true ∧ leq L T p = true) ∧
    M ∈ s ∧ p ∈ s.
Proof.
  intros HL HM. apply Is_true_true_2 in HL.
  pose proof (lattice_poset L HL) as HP.
  destruct (has_tau_rigid_summand_eq L HL M true HM) as (p & Hp & HpE & HMp & Ht).
  destruct (has_tau_rigid_summand_eq L HL M false HM) as (p' & Hp' & _ & _ & Hf).
  assert (p' = p) as -> by congruence. simpl in Ht, Hf.
  split.
  - rewrite Ht. case_bool_decide; split; done.
  - exists p. eexists. split; [done|]. split; [exact Hf|].
    assert (Hmem : ∀ T,
      T ∈ list_to_set (C:=gset nat)
            (filter (λ T, is_lequal L M T && is_lequal L T p) (elems L)) ↔
      T ∈ elems L ∧ leq L M T = true ∧ leq L T p = true).
    { intros T. rewrite elem_of_list_to_set, list_elem_of_filter, andb_True.
      unfold is_lequal. rewrite !Is_true_true. tauto. }
    split; [|split; [done|split]].
    + intros Hb. rewrite Ht. by rewrite bool_decide_eq_false_2 by auto.
    + apply Hmem. split; [done|]. split; apply Is_true_true_1; [|done].
      by apply leq_refl.
    + apply Hmem. split; [done|]. split; apply Is_true_true_1; [done|].
      by apply leq_refl.
Qed.

Lemma has_tau_rigid_summand_spec_witness :
  (is_lattice pentagon = true ∧ 4 ∈ elems pentagon) ∧
  (has_tau_rigid_summand pentagon (Some 4) true = Raise NotJoinIrreducible ↔
   4 ∉ all_bricks pentagon).
Proof.
  assert (H : is_lattice pentagon = true) by (vm_compute; reflexivity).
  assert (H4 : 4 ∈ elems pentagon)
    by (apply (bool_decide_unpack _); vm_compute; exact I).
  split; [done|].
  exact (proj1 (has_tau_rigid_summand_spec pentagon 4 H H4)).
Defined.

(** X20: in a finite lattice, [projectives(T)] returns the bricks [M] with
    [M ≤ T ≤ plus(M)]: a subset of [bricks_in_tors(T)] that holds [T]
    itself when [T] is a brick. *)
Theorem projectives_spec (L : FiniteLatticePoset) (T : nat) :
  is_lattice L = true → T ∈ elems L →
  ∃ projs in_tors,
    projectives L (Some T) = Ok projs ∧
    bricks_in_tors L (Some T) = Ok in_tors ∧
    (∀ M, M ∈ projs ↔
          M ∈ all_bricks L ∧ leq L M T = true ∧
          ∃ p, plus L (Some M) = Ok p ∧ leq L T p = true) ∧
    projs ⊆ in_tors ∧
    (T ∈ all_bricks L → T ∈ projs).
Proof.
  intros HL HT. apply Is_true_true_2 in HL.
  pose proof (lattice_poset L HL) as HP.
  destruct (projectives_elem L HL T HT) as (projs & Hprojs & Hspec).
  exists projs. eexists. split; [done|].
  split; [apply (bricks_in_tors_Ok L T HT)|].
  assert (Hspec' : ∀ M, M ∈ projs ↔
          M ∈ all_bricks L ∧ leq L M T = true ∧
          ∃ p, plus L (Some M) = Ok p ∧ leq L T p = true).
  { intros M. rewrite Hspec, Is_true_true.
    split; intros (H1 & H2 & p & H3 & H4); (split; [done|]); (split; [done|]);
      exists p; (split; [done|]); by apply Is_true_true. }
  split; [done|]. split.
  - intros M HM. apply Hspec in HM as (Hb & HMT & _).
    apply elem_of_filter. by split.
  - intros Hb. apply Hspec. split; [done|]. split; [by apply leq_refl|].
    destruct (plus_Ok L HL T HT) as (p & Hp & _ & HTp & _). eauto.
Qed.

Lemma projectives_spec_witness :
  (is_lattice pentagon = true ∧ 2 ∈ elems pentagon) ∧
  ∃ projs in_tors,
    projectives pentagon (Some 2) = Ok projs ∧
    bricks_in_tors pentagon (Some 2) = Ok in_tors ∧
    (∀ M, M ∈ projs ↔
          M ∈ all_bricks pentagon ∧ leq pentagon M 2 = true ∧
          ∃ p, plus pentagon (Some M) = Ok p ∧ leq pentagon 2 p = true) ∧
    projs ⊆ in_tors ∧
    (2 ∈ all_bricks pentagon → 2 ∈ projs).
Proof.
  assert (H : is_lattice pentagon = true) by (vm_compute; reflexivity).
  assert (H2 : 2 ∈ elems pentagon)
    by (apply (bool_decide_unpack _); vm_compute; exact I).
  split; [done|].
  exact (projectives_spec pentagon 2 H H2).
Defined.

(** X21: in a finite lattice whose elements are pairwise distinct objects,
    for elements [U] and [T], [T] not being a tuple, the count
    [number_of_projs((U,T))] is at most [number_of_projs(T)], and it is
    [0] when [T ≤ U], in particular on [(T,T)]. *)
Theorem number_of_projs_bounds (L : FiniteLatticePoset) (elt : nat → pyobj)
    (U T : nat) :
  is_lattice L = true → distinct_elements L elt = true →
  U ∈ elems L → T ∈ elems L → is_tuple (elt T) = false →
  ∃ n n',
    number_of_projs L elt (PyTuple [elt U; elt T]) = Ok n ∧
    number_of_projs L elt (elt T) = Ok n' ∧
    n ≤ n' ∧
    (leq L T U = true → n = 0).
Proof.
  intros HL Hd HU HT Hnt. apply Is_true_true_2 in HL, Hd.
  pose proof (lattice_poset L HL) as HP.
  destruct (projectives_elem L HL T HT) as (projs & Hprojs & Hspec).
  destruct (bottom_total L HL) as (z & Hz & HzE & Hleast).
  exists (size (filter (λ M, ¬ is_lequal L M U) projs)),
         (size (filter (λ M, ¬ is_lequal L M z) projs)).
  split; [by apply number_of_projs_eq|]. split.
  { rewrite (number_of_projs_not_tuple L elt (elt T) Hnt).
    unfold zero. rewrite Hz. simpl.
    rewrite (coerce_obj_element L elt z Hd HzE), (coerce_obj_element L elt T Hd HT).
    simpl. by rewrite Hprojs. }
  split.
  - apply subseteq_size. intros M. rewrite !elem_of_filter.
    intros [HMU HM]. split; [|done]. intros HMz. apply HMU.
    apply Hspec in HM as (HM & _). apply elem_of_all_bricks in HM as [HM _].
    unfold is_lequal in *. apply (leq_trans L HP) with z; auto.
  - intros HTU. apply Is_true_true_2 in HTU.
    apply size_empty_iff. intros M. rewrite elem_of_filter.
    split; [|by intros ?%not_elem_of_empty]. intros [HMU HM]. exfalso.
    apply HMU. apply Hspec in HM as (HM & HMT & _).
    apply elem_of_all_bricks in HM as [HM _].
    unfold is_lequal. by apply (leq_trans L HP) with T.
Qed.

Lemma number_of_projs_bounds_witness :
  (is_lattice pentagon = true ∧ distinct_elements pentagon int_elements = true ∧
   1 ∈ elems pentagon ∧ 4 ∈ elems pentagon ∧
   is_tuple (int_elements 4) = false) ∧
  ∃ n n',
    number_of_projs pentagon int_elements
      (PyTuple [int_elements 1; int_elements 4]) = Ok n ∧
    number_of_projs pentagon int_elements (int_elements 4) = Ok n' ∧
    n ≤ n' ∧
    (leq pentagon 4 1 = true → n = 0).
Proof.
  assert (H : is_lattice pentagon = true) by (vm_compute; reflexivity).
  assert (Hd : distinct_elements pentagon int_elements = true)
    by (vm_compute; reflexivity).
  assert (H1 : 1 ∈ elems pentagon)
    by (apply (bool_decide_unpack _); vm_compute; exact I).
  assert (H4 : 4 ∈ elems pentagon)
    by (apply (bool_decide_unpack _); vm_compute; exact I).
  assert (Hnt : is_tuple (int_elements 4) = false) by reflexivity.
  split; [done|].
  exact (number_of_projs_bounds pentagon int_elements 1 4 H Hd H1 H4 Hnt).
Defined.

(** X22: in a lattice built by [TorsLattice], [has_support_summand(S,
    check=True)] raises the "not a simple torsion class" error exactly
    when the element [S] is no simple; otherwise, and always with
    [check=False], it returns a down-set of the lattice that holds the
    bottom element; for a simple [S] it holds neither [S] nor the top
    element. *)
Theorem has_support_summand_spec (data L : FiniteLatticePoset) (S : nat) :
  TorsLattice data = Ok L → S ∈ elems L →
  ∃ simples_ hs z t,
    simples L = Ok simples_ ∧ zero L = Some z ∧ whole L = Some t ∧
    (has_support_summand L (Some S) true = Raise NotSimple ↔ S ∉ simples_) ∧
    has_support_summand L (Some S) false = Ok hs ∧
    (S ∈ simples_ → has_support_summand L (Some S) true = Ok hs) ∧
    z ∈ hs ∧
    (∀ T T', T ∈ hs → T' ∈ elems L → leq L T' T = true → T' ∈ hs) ∧
    (S ∈ simples_ → (S ∉ hs) ∧ (t ∉ hs)).
Proof.
  intros Hdata HS. apply TorsLattice_inv in Hdata as (_ & HL & _ & HM).
  pose proof (lattice_poset L HL) as HP.
  destruct (simples_elem L HL) as (z & s & Hz & HzE & Hs & Hspec).
  destruct (top_total L HL) as (t & Ht & HtE & Hgreatest).
  destruct (has_support_summand_eq L HL S true HS) as (s' & serre & Hs' & Hsup & Htrue).
  destruct (has_support_summand_eq L HL S false HS) as (s'' & serre' & Hs'' & Hsup' & Hfalse).
  assert (s' = s) as -> by congruence. assert (s'' = s) as -> by congruence.
  assert (serre' = serre) as -> by (by eapply is_sup_unique).
  simpl in Htrue, Hfalse.
  exists s. eexists. exists z, t. repeat (split; [done|]).
  split.
  { rewrite Htrue. case_bool_decide; split; done. }
  split; [exact Hfalse|]. split.
  { intros Hin. rewrite Htrue. by rewrite bool_decide_eq_false_2 by auto. }
  pose proof (bottom_spec L z Hz) as [_ Hleast].
  destruct Hsup as (HserE & Hub & Hlst).
  split; [|split].
  - apply has_support_summand_elem. split; [done|]. by apply Hleast.
  - intros T T' HT HT' Hle. apply has_support_summand_elem in HT as [HTE HT].
    apply has_support_summand_elem. split; [done|].
    apply (leq_trans L HP) with T; auto using Is_true_true_2.
  - intros Hin.
    assert (Hn : ¬ leq L S serre).
    { by apply (simple_not_below_others L HL HM z s S serre). }
    split; intros Hbad; apply has_support_summand_elem in Hbad as [_ Hbad].
    + done.
    + apply Hn. apply (leq_trans L HP) with t; auto.
Qed.

Lemma has_support_summand_spec_witness :
  (TorsLattice pentagon = Ok pentagon ∧ 1 ∈ elems pentagon) ∧
  ∃ simples_ hs z t,
    simples pentagon = Ok simples_ ∧ zero pentagon = Some z ∧
    whole pentagon = Some t ∧
    (has_support_summand pentagon (Some 1) true = Raise NotSimple ↔ 1 ∉ simples_) ∧
    has_support_summand pentagon (Some 1) false = Ok hs ∧
    (1 ∈ simples_ → has_support_summand pentagon (Some 1) true = Ok hs) ∧
    z ∈ hs ∧
    (∀ T T', T ∈ hs → T' ∈ elems pentagon → leq pentagon T' T = true → T' ∈ hs) ∧
    (1 ∈ simples_ → (1 ∉ hs) ∧ (t ∉ hs)).
Proof.
  assert (H : TorsLattice pentagon = Ok pentagon) by (vm_compute; reflexivity).
  assert (H1 : 1 ∈ elems pentagon)
    by (apply (bool_decide_unpack _); vm_compute; exact I).
  split; [done|].
  exact (has_support_summand_spec pentagon pentagon 1 H H1).
Defined.

(** X23: in a lattice built by [TorsLattice], the zero class has no
    composition factor, every simple is a composition factor of itself,
    the composition factors of the whole category are all the simples, and
    [is_sincere(whole())] returns [True]. *)
Theorem composition_factors_extremes (data L : FiniteLatticePoset) :
  TorsLattice data = Ok L →
  ∃ simples_,
    simples L = Ok simples_ ∧
    composition_factors L (zero L) = Ok ∅ ∧
    composition_factors L (whole L) = Ok simples_ ∧
    is_sincere L (whole L) = Ok true ∧
    (∀ S, S ∈ simples_ →
       ∃ cf, composition_factors L (Some S) = Ok cf ∧ S ∈ cf).
Proof.
  intros Hdata. apply TorsLattice_inv in Hdata as (_ & HL & _ & HM).
  pose proof (lattice_poset L HL) as HP.
  destruct (simples_elem L HL) as (z & s & Hz & HzE & Hs & Hspec).
  destruct (top_total L HL) as (t & Ht & HtE & Hgreatest).
  pose proof (bottom_spec L z Hz) as [_ Hleast].
  assert (Hserre : ∀ S, S ∈ s →
    ∃ serre, is_sup L (elements (s ∖ {[S]})) serre ∧ ¬ leq L S serre).
  { intros S HS.
    destruct (join_sup L HL (elements (s ∖ {[S]}))) as (serre & _ & Hsup).
    { intros x Hx. apply elem_of_elements, elem_of_difference in Hx as [Hx _].
      by apply Hspec in Hx as [Hx _]. }
    exists serre. split; [done|].
    by apply (simple_not_below_others L HL HM z s S serre). }
  assert (Hcf_t : composition_factors L (Some t) = Ok s).
  { destruct (composition_factors_elem L HL t HtE) as (s' & cf & Hs' & -> & Hcf).
    assert (s' = s) as -> by congruence. f_equal. apply set_eq. intros S.
    rewrite Hcf. split; [tauto|]. intros HS. split; [done|].
    destruct (Hserre S HS) as (serre & Hsup & Hn). exists serre. split; [done|].
    intros Hle. apply Hn. apply (leq_trans L HP) with t; auto.
    - by apply Hspec in HS as [HS _].
    - apply Hsup.
    - apply Hgreatest. by apply Hspec in HS as [HS _]. }
  exists s. split; [done|]. unfold zero, whole. rewrite Hz, Ht.
  split; [|split; [done|split]].
  - destruct (composition_factors_elem L HL z HzE) as (s' & cf & Hs' & -> & Hcf).
    f_equal. apply set_eq. intros S. rewrite Hcf.
    split; [|by intros ?%not_elem_of_empty].
    intros (_ & serre & Hsup & Hn). destruct Hn. apply Hleast, Hsup.
  - unfold is_sincere. rewrite (coerce_elem L t HtE). simpl.
    rewrite Hcf_t. simpl. rewrite Hs. simpl. f_equal.
    by apply bool_decide_eq_true_2.
  - intros S HS. pose proof HS as HSE. apply Hspec in HSE as [HSE _].
    destruct (composition_factors_elem L HL S HSE) as (s' & cf & Hs' & -> & Hcf).
    assert (s' = s) as -> by congruence.
    exists cf. split; [done|]. apply Hcf. split; [done|]. by apply Hserre.
Qed.

Lemma composition_factors_extremes_witness :
  TorsLattice pentagon = Ok pentagon ∧
  is_sincere pentagon (whole pentagon) = Ok true.
Proof.
  assert (H : TorsLattice pentagon = Ok pentagon) by (vm_compute; reflexivity).
  split; [done|].
  destruct (composition_factors_extremes pentagon pentagon H)
    as (s & _ & _ & _ & Hsincere & _).
  exact Hsincere.
Defined.

(** X24: in a finite lattice, [tau_rigid_pair_summand(T)] returns pairs
    tagged [0] or [1] only: [(M,0)] belongs to it exactly when [M] is in
    [projectives(T)], and [(S,1)] exactly when [S] is a simple that is not
    in [composition_factors(T)]. *)
Theorem tau_rigid_pair_summand_spec (L : FiniteLatticePoset) (T : nat) :
  is_lattice L = true → T ∈ elems L →
  ∃ pairs projs cf simples_,
    tau_rigid_pair_summand L (Some T) = Ok pairs ∧
    projectives L (Some T) = Ok projs ∧
    composition_factors L (Some T) = Ok cf ∧
    simples L = Ok simples_ ∧
    (∀ M, (M, 0) ∈ pairs ↔ M ∈ projs) ∧
    (∀ S, (S, 1) ∈ pairs ↔ S ∈ simples_ ∧ S ∉ cf) ∧
    (∀ x i, (x, i) ∈ pairs → i = 0 ∨ i = 1).
Proof.
  intros HL HT. apply Is_true_true_2 in HL.
  pose proof (lattice_poset L HL) as HP.
  destruct (projectives_elem L HL T HT) as (projs & Hprojs & _).
  destruct (composition_factors_elem L HL T HT) as (s & cf & Hs & Hcf & Hcfspec).
  destruct (simples_elem L HL) as (z & s' & Hz & HzE & Hs' & Hspec).
  assert (s' = s) as -> by congruence.
  assert (Hbody : ∀ S, S ∈ elements s →
    ∃ serre, is_sup L (elements (s ∖ {[S]})) serre ∧
      (hs ← has_support_summand L (Some S) false; Ok (bool_decide (T ∈ hs)))
        = Ok (leq L T serre)).
  { intros S HS. apply elem_of_elements, Hspec in HS as [HS _].
    destruct (support_test L HL S T HS HT) as (s'' & serre & Hs'' & Hsup & Heq & _).
    assert (s'' = s) as -> by congruence. eauto. }
  destruct (filterM_Ok
    (λ S, hs ← has_support_summand L (Some S) false; Ok (bool_decide (T ∈ hs)))
    (elements s)) as (Ss & HSs & HSsspec).
  { intros S HS. destruct (Hbody S HS) as (serre & _ & ->). eauto. }
  eexists _, projs, cf, s. split.
  { unfold tau_rigid_pair_summand. rewrite (coerce_elem L T HT). simpl.
    rewrite Hprojs. simpl. rewrite Hs. simpl. rewrite HSs. done. }
  repeat (split; [done|]). split; [|split].
  - intros M. rewrite elem_of_union, !elem_of_list_to_set, !list_elem_of_fmap.
    split.
    + intros [(M' & [= ->] & HM')|(S & [=] & _)]. by apply elem_of_elements.
    + intros HM. left. exists M. split; [done|]. by apply elem_of_elements.
  - intros S. rewrite elem_of_union, !elem_of_list_to_set, !list_elem_of_fmap.
    split.
    + intros [(M' & [=] & _)|(S' & [= ->] & HS')].
      apply HSsspec in HS' as [HS' Hb].
      destruct (Hbody S' HS') as (serre & Hsup & Heq).
      rewrite Heq in Hb. injection Hb as Hb.
      split; [by apply elem_of_elements|].
      rewrite Hcfspec. intros (_ & serre' & Hsup' & Hn).
      assert (serre' = serre) as -> by (by eapply is_sup_unique).
      apply Hn. by apply Is_true_true_2.
    + intros [HS Hn]. right. exists S. split; [done|].
      apply HSsspec. split; [by apply elem_of_elements|].
      destruct (Hbody S) as (serre & Hsup & ->); [by apply elem_of_elements|].
      f_equal. destruct (leq L T serre) eqn:Hle; [done|]. exfalso.
      apply Hn, Hcfspec. split; [done|]. exists serre. split; [done|].
      by apply Is_true_false_2.
  - intros x i. rewrite elem_of_union, !elem_of_list_to_set, !list_elem_of_fmap.
    intros [(M' & [= _ ->] & _)|(S' & [= _ ->] & _)]; auto.
Qed.

Lemma tau_rigid_pair_summand_spec_witness :
  (is_lattice pentagon = true ∧ 2 ∈ elems pentagon) ∧
  ∃ pairs projs cf simples_,
    tau_rigid_pair_summand pentagon (Some 2) = Ok pairs ∧
    projectives pentagon (Some 2) = Ok projs ∧
    composition_factors pentagon (Some 2) = Ok cf ∧
    simples pentagon = Ok simples_ ∧
    (∀ M, (M, 0) ∈ pairs ↔ M ∈ projs) ∧
    (∀ S, (S, 1) ∈ pairs ↔ S ∈ simples_ ∧ S ∉ cf) ∧
    (∀ x i, (x, i) ∈ pairs → i = 0 ∨ i = 1).
Proof.
  assert (H : is_lattice pentagon = true) by (vm_compute; reflexivity).
  assert (H2 : 2 ∈ elems pentagon)
    by (apply (bool_decide_unpack _); vm_compute; exact I).
  split; [done|].
  exact (tau_rigid_pair_summand_spec pentagon 2 H H2).
Defined.

(** X25: in a lattice built by [TorsLattice], [all_itvs()] holds exactly
    the pairs of elements [(U,T)] with [U ≤ T], and on each of them
    [bricks] returns the same heart with [check] enabled or disabled. *)
Theorem all_itvs_spec (data L : FiniteLatticePoset) (U T : nat) :
  TorsLattice data = Ok L →
  ((U, T) ∈ all_itvs L ↔ U ∈ elems L ∧ T ∈ elems L ∧ leq L U T = true) ∧
  ((U, T) ∈ all_itvs L →
   ∃ s, bricks L (Some U, Some T) true = Ok s ∧
        bricks L (Some U, Some T) false = Ok s).
Proof.
  intros Hdata. apply TorsLattice_inv in Hdata as (_ & HL & HJ & HM).
  assert (Hmem : (U, T) ∈ all_itvs L ↔
                 U ∈ elems L ∧ T ∈ elems L ∧ leq L U T = true).
  { unfold all_itvs. rewrite elem_of_list_to_set, list_elem_of_bind. split.
    - intros (U' & HUT & HU'). apply list_elem_of_bind in HUT as (T' & HUT & HT').
      unfold is_lequal in HUT. destruct (leq L U' T') eqn:Hle.
      + apply list_elem_of_singleton in HUT as [= -> ->]. done.
      + by apply not_elem_of_nil in HUT.
    - intros (HU & HT & Hle). exists U. split; [|done].
      apply list_elem_of_bind. exists T. split; [|done].
      unfold is_lequal. rewrite Hle. by left. }
  split; [done|]. intros Hin. apply Hmem in Hin as (HU & HT & Hle).
  destruct (heart_elem L HL HJ HM U T HU HT) as (s & Hfalse & Htrue & _).
  exists s. split; [|done]. apply Htrue. by apply Is_true_true_2.
Qed.

Lemma all_itvs_spec_witness :
  TorsLattice pentagon = Ok pentagon ∧
  ((1, 2) ∈ all_itvs pentagon ↔
   1 ∈ elems pentagon ∧ 2 ∈ elems pentagon ∧ leq pentagon 1 2 = true).
Proof.
  assert (H : TorsLattice pentagon = Ok pentagon) by (vm_compute; reflexivity).
  split; [done|].
  exact (proj1 (all_itvs_spec pentagon pentagon 1 2 H)).
Defined.

(** X26: in a finite lattice, every element [T] is the join of the bricks
    that [bricks_in_tors(T)] returns, so two elements with the same
    [bricks_in_tors] are equal. *)
Theorem torsion_class_from_bricks (L : FiniteLatticePoset) (U T : nat) :
  is_lattice L = true → U ∈ elems L → T ∈ elems L →
  (∃ s, bricks_in_tors L (Some T) = Ok s ∧
        join L (Some <$> elements s) = Ok T) ∧
  (bricks_in_tors L (Some U) = bricks_in_tors L (Some T) → U = T).
Proof.
  intros HL HU HT. apply Is_true_true_2 in HL.
  pose proof (lattice_poset L HL) as HP.
  assert (Hjoin : ∀ V, V ∈ elems L →
    join L (Some <$> elements (filter (λ j, is_lequal L j V) (all_bricks L)))
    = Ok V).
  { intros V HV.
    destruct (join_sup L HL
      (elements (filter (λ j, is_lequal L j V) (all_bricks L))))
      as (j & -> & Hj).
    { intros x Hx. apply elem_of_elements, elem_of_filter in Hx as [_ Hx].
      by apply elem_of_all_bricks in Hx as [Hx _]. }
    f_equal. eapply (is_sup_unique L HL); [exact Hj|].
    by apply sup_of_bricks_below. }
  split.
  - eexists. split; [apply (bricks_in_tors_Ok L T HT)|]. by apply Hjoin.
  - rewrite (bricks_in_tors_Ok L U HU), (bricks_in_tors_Ok L T HT).
    intros [= Heq]. pose proof (Hjoin U HU) as HjU.
    rewrite Heq, (Hjoin T HT) in HjU. congruence.
Qed.

Lemma torsion_class_from_bricks_witness :
  (is_lattice pentagon = true ∧ 2 ∈ elems pentagon ∧ 4 ∈ elems pentagon) ∧
  (∃ s, bricks_in_tors pentagon (Some 4) = Ok s ∧
        join pentagon (Some <$> elements s) = Ok 4) ∧
  (bricks_in_tors pentagon (Some 2) = bricks_in_tors pentagon (Some 4) → 2 = 4).
Proof.
  assert (H : is_lattice pentagon = true) by (vm_compute; reflexivity).
  assert (H2 : 2 ∈ elems pentagon)
    by (apply (bool_decide_unpack _); vm_compute; exact I).
  assert (H4 : 4 ∈ elems pentagon)
    by (apply (bool_decide_unpack _); vm_compute; exact I).
  split; [done|].
  exact (torsion_class_from_bricks pentagon 2 4 H H2 H4).
Defined.

(** X27: [itv_lequal] calls [bricks] with the default [check=True]: on a
    pair of elements with [U ≤ T] failing it raises the "not an interval"
    error, whatever the second interval; on pairs where [bricks] returns
    it is reflexive, and it is transitive. *)
Theorem itv_lequal_preorder (L : FiniteLatticePoset) (U T : nat)
    (itv1 itv2 itv3 : val * val) :
  U ∈ elems L → T ∈ elems L →
  (leq L U T = false →
   itv_lequal L (Some U, Some T) itv2 = Raise NotAnInterval) ∧
  (∀ s, bricks L itv1 true = Ok s → itv_lequal L itv1 itv1 = Ok true) ∧
  (itv_lequal L itv1 itv2 = Ok true → itv_lequal L itv2 itv3 = Ok true →
   itv_lequal L itv1 itv3 = Ok true).
Proof.
  intros HU HT. split; [|split].
  - intros Hle. unfold itv_lequal. by rewrite bricks_not_leq.
  - intros s Hs. unfold itv_lequal. rewrite Hs. simpl. f_equal.
    by apply bool_decide_eq_true_2.
  - unfold itv_lequal.
    destruct (bricks L itv1 true) as [s1|]; simpl; [|done].
    destruct (bricks L itv2 true) as [s2|]; simpl; [|done].
    destruct (bricks L itv3 true) as [s3|]; simpl; [|done].
    intros [= H12] [= H23]. f_equal.
    apply bool_decide_eq_true in H12, H23.
    apply bool_decide_eq_true_2. by transitivity s2.
Qed.

Lemma itv_lequal_preorder_witness :
  (1 ∈ elems pentagon ∧ 3 ∈ elems pentagon) ∧
  (leq pentagon 1 3 = false →
   itv_lequal pentagon (Some 1, Some 3) (Some 0, Some 4) = Raise NotAnInterval).
Proof.
  assert (H1 : 1 ∈ elems pentagon)
    by (apply (bool_decide_unpack _); vm_compute; exact I).
  assert (H3 : 3 ∈ elems pentagon)
    by (apply (bool_decide_unpack _); vm_compute; exact I).
  split; [done|].
  exact (proj1 (itv_lequal_preorder pentagon 1 3
                  (Some 0, Some 4) (Some 0, Some 4) (Some 0, Some 4) H1 H3)).
Defined.

(** X28: in a finite lattice whose elements are pairwise distinct objects,
    [number_of_projs] returns on a tuple of two elements [(U,T)] the
    number of the [M] in [projectives(T)] with [M ≰ U], and on an element
    [T] that is not a tuple the number of elements of [projectives(T)];
    a tuple is always read as an interval: with two components they are
    both passed to [self(...)], with another number of components the
    unpacking fails. *)
Theorem number_of_projs_counts (L : FiniteLatticePoset) (elt : nat → pyobj) :
  is_lattice L = true → distinct_elements L elt = true →
  (∀ U T, U ∈ elems L → T ∈ elems L →
     ∃ projs,
       projectives L (Some T) = Ok projs ∧
       number_of_projs L elt (PyTuple [elt U; elt T]) =
         Ok (size (filter (λ M, ¬ is_lequal L M U) projs))) ∧
  (∀ T, T ∈ elems L → is_tuple (elt T) = false →
     ∃ projs,
       projectives L (Some T) = Ok projs ∧
       number_of_projs L elt (elt T) = Ok (size projs)) ∧
  (∀ a b,
     number_of_projs L elt (PyTuple [a; b]) =
       (U ← coerce_obj L elt a;
        T ← coerce_obj L elt b;
        projs ← projectives L (Some T);
        Ok (size (filter (λ M, ¬ is_lequal L M U) projs)))) ∧
  (∀ xs, length xs ≠ 2 →
     number_of_projs L elt (PyTuple xs) = Raise UnpackError).
Proof.
  intros HL Hd. apply Is_true_true_2 in HL, Hd.
  split; [|split; [|split]].
  - intros U T HU HT. destruct (projectives_Ok L HL T HT) as (projs & Hp & _).
    exists projs. split; [done|]. by apply number_of_projs_eq.
  - intros T HT Hnt. destruct (projectives_Ok L HL T HT) as (projs & Hp & Hsub).
    exists projs. split; [done|].
    destruct (bottom_total L HL) as (z & Hz & HzE & _).
    rewrite (number_of_projs_not_tuple L elt (elt T) Hnt).
    unfold zero. rewrite Hz. simpl.
    rewrite (coerce_obj_element L elt z Hd HzE).
    rewrite (coerce_obj_element L elt T Hd HT).
    simpl. rewrite Hp. simpl. do 2 f_equal.
    apply set_eq. intros M. rewrite elem_of_filter. split; [tauto|].
    intros HM. split; [|done].
    apply (brick_not_below_bottom L HL z M Hz). by apply Hsub.
  - done.
  - intros xs Hlen. unfold number_of_projs. simpl.
    destruct xs as [|a [|b [|c xs]]]; simpl in *; done.
Qed.

Lemma number_of_projs_counts_witness :
  (is_lattice pentagon = true ∧ distinct_elements pentagon int_elements = true) ∧
  ∃ projs,
    projectives pentagon (Some 4) = Ok projs ∧
    number_of_projs pentagon int_elements (int_elements 4) = Ok (size projs).
Proof.
  assert (H : is_lattice pentagon = true) by (vm_compute; reflexivity).
  assert (Hd : distinct_elements pentagon int_elements = true)
    by (vm_compute; reflexivity).
  assert (H4 : 4 ∈ elems pentagon)
    by (apply (bool_decide_unpack _); vm_compute; exact I).
  split; [done|].
  exact (proj1 (proj2 (number_of_projs_counts pentagon int_elements H Hd))
           4 H4 eq_refl).
Defined.
